(** * Game-hook discovery and class matching (src/ast/highSpellWalker.ts)

    A shallow embedding of the dependency-discovery script: the hook usage
    extractor, the hook registration extractor, the client class recoverer,
    the match scorer and the driver [analyzeGameHookDependencies], together
    with [obtainGameClient] (utils/clientUtils).

    Modelling conventions.
    - A JavaScript [Set<string>] is a [gset string]; [Array.from(s)] is
      [elements s].  JavaScript enumerates a set in insertion order, the
      model in the order of [elements]; scores, membership and sizes do not
      depend on that order.
    - An object used as a dictionary ([GameHookUsage]) and the alias [Map]
      are [gmap string _]; [Object.entries] is visited in the order of the
      map.  A lookup of a name that every object inherits from
      [Object.prototype] finds the inherited member: the statements that
      then throw are modelled as throwing.  The class [Map], whose
      iteration order decides the order of the recovered class list, is an
      association list.
    - A JavaScript number holding a score or a version is a [Z].  The text
      of the client bundle, which is cut by position, is a list of UTF-16
      code units ([JSString]); the other strings (names, paths, messages,
      URLs), which are only compared, searched for ASCII patterns and
      concatenated, are [string]s.
    - A promise that rejects, or a statement that throws, is an [outcome]
      with the message of the error; [try]/[catch] is a match on it.
    - The parsers (TypeScript compiler, acorn), the file system and the
      network are external: the model starts from the syntax trees, the
      file list and the responses they produce.  Output to [console.log]
      and [console.warn] is not modelled. *)

From stdpp Require Import gmap strings list fin_maps pretty sorting.
From Stdlib Require Import ZArith Lia.

Set Warnings "-register-all,-clear-no-such-hyp".

Open Scope string_scope.
Open Scope list_scope.

(* ===================================================================== *)
(** ** Data model *)
(* ===================================================================== *)

(** [GameHookUsage[hookName]]: the per-hook aggregate. *)
Module GameHookUsage.
Record t := mk {
  properties : gset string;
  methods : gset string;
  fullExpressions : gset string;
  files : gset string;
  fromDirectAccess : bool;
  fromHookRegistration : bool
}.
End GameHookUsage.

(** [interface ClientClass]. *)
Module ClientClass.
Record t := mk {
  name : string;
  properties : gset string;
  methods : gset string;
  staticProperties : gset string;
  staticMethods : gset string;
  hasInstance : bool;
  hasManager : bool
}.
End ClientClass.

(** [interface ClassMatch]. *)
Module ClassMatch.
Record t := mk {
  hookName : string;
  clientClassName : string;
  matchScore : Z;
  matchedProperties : list string;
  matchedMethods : list string;
  missingProperties : list string;
  missingMethods : list string
}.
End ClassMatch.

(** [interface KnownClassInfo]; the optional array fields are options. *)
Module KnownClassInfo.
Record t := mk {
  className : string;
  methods : option (list string);
  properties : option (list string);
  staticMethods : option (list string);
  staticProperties : option (list string);
  description : option string
}.
End KnownClassInfo.

(** A settled promise: the value, or the [message] of the error. *)
Inductive outcome (A : Type) :=
| Resolved (value : A)
| Rejected (message : string).
Arguments Resolved {A} value.
Arguments Rejected {A} message.

(** The names that every object literal inherits from [Object.prototype]:
    on the dictionary [{}] a lookup of one of them finds the inherited
    member, not an entry. *)
Definition objectPrototypeKeys : list string :=
  [ "constructor"; "__defineGetter__"; "__defineSetter__"; "hasOwnProperty";
    "__lookupGetter__"; "__lookupSetter__"; "isPrototypeOf"; "propertyIsEnumerable";
    "toString"; "valueOf"; "__proto__"; "toLocaleString" ].

Definition inheritedKey (key : string) : bool := bool_decide (key ∈ objectPrototypeKeys).

(** The [TypeError] of [x.add(...)] for an undefined [x]. *)
Definition typeErrorAdd : string := "Cannot read properties of undefined (reading 'add')".

(** [const knownClassInfo]. *)
Definition knownClassInfo : list KnownClassInfo.t :=
  [ KnownClassInfo.mk "ChatManager" None
      (Some ["Instance"; "_friends"]) None (Some ["Instance"])
      (Some "Manages chat functionality and friends list") ].

(* ===================================================================== *)
(** ** Match scorer: [calculateMatchScore] *)
(* ===================================================================== *)

(** The mutable locals of [calculateMatchScore]. *)
Record ScoreState := mkScoreState {
  score : Z;
  matchedProperties : list string;
  matchedMethods : list string;
  missingProperties : list string;
  missingMethods : list string
}.

(** [clientClass.properties.has(p) || clientClass.staticProperties.has(p)] *)
Definition hasProperty (c : ClientClass.t) (p : string) : Prop :=
  p ∈ ClientClass.properties c ∨ p ∈ ClientClass.staticProperties c.

(** [clientClass.methods.has(m) || clientClass.staticMethods.has(m)] *)
Definition hasMethod (c : ClientClass.t) (m : string) : Prop :=
  m ∈ ClientClass.methods c ∨ m ∈ ClientClass.staticMethods c.

(** [arr.includes(x)] followed by a conditional [arr.push(x)]. *)
Definition pushUnlessIncluded (arr : list string) (x : string) : list string :=
  if decide (x ∈ arr) then arr else arr ++ [x].

(** Body of [for (const prop of requiredProperties)]. *)
Definition requiredPropertyStep (c : ClientClass.t) (s : ScoreState) (prop : string)
  : ScoreState :=
  if decide (hasProperty c prop)
  then mkScoreState (score s + 2) (matchedProperties s ++ [prop]) (matchedMethods s)
         (missingProperties s) (missingMethods s)
  else mkScoreState (score s) (matchedProperties s) (matchedMethods s)
         (missingProperties s ++ [prop]) (missingMethods s).

(** Body of [for (const method of requiredMethods)]. *)
Definition requiredMethodStep (c : ClientClass.t) (s : ScoreState) (method : string)
  : ScoreState :=
  if decide (hasMethod c method)
  then mkScoreState (score s + 1) (matchedProperties s) (matchedMethods s ++ [method])
         (missingProperties s) (missingMethods s)
  else mkScoreState (score s) (matchedProperties s) (matchedMethods s)
         (missingProperties s) (missingMethods s ++ [method]).

(** Body of [for (const prop of knownInfo.properties)]. *)
Definition knownPropertyStep (c : ClientClass.t) (requiredProperties : list string)
    (s : ScoreState) (prop : string) : ScoreState :=
  if decide (hasProperty c prop)
  then mkScoreState (score s + 3) (pushUnlessIncluded (matchedProperties s) prop)
         (matchedMethods s) (missingProperties s) (missingMethods s)
  else if decide (prop ∈ requiredProperties) then s
  else mkScoreState (score s) (matchedProperties s) (matchedMethods s)
         (missingProperties s ++ [prop]) (missingMethods s).

(** Body of [for (const prop of knownInfo.staticProperties)]. *)
Definition knownStaticPropertyStep (c : ClientClass.t) (requiredProperties : list string)
    (s : ScoreState) (prop : string) : ScoreState :=
  if decide (prop ∈ ClientClass.staticProperties c)
  then mkScoreState (score s + 3) (pushUnlessIncluded (matchedProperties s) prop)
         (matchedMethods s) (missingProperties s) (missingMethods s)
  else if decide (prop ∈ requiredProperties) then s
  else mkScoreState (score s) (matchedProperties s) (matchedMethods s)
         (missingProperties s ++ [prop]) (missingMethods s).

(** Body of [for (const method of knownInfo.methods)]. *)
Definition knownMethodStep (c : ClientClass.t) (requiredMethods : list string)
    (s : ScoreState) (method : string) : ScoreState :=
  if decide (hasMethod c method)
  then mkScoreState (score s + 2) (matchedProperties s)
         (pushUnlessIncluded (matchedMethods s) method)
         (missingProperties s) (missingMethods s)
  else if decide (method ∈ requiredMethods) then s
  else mkScoreState (score s) (matchedProperties s) (matchedMethods s)
         (missingProperties s) (missingMethods s ++ [method]).

(** Body of [for (const method of knownInfo.staticMethods)]. *)
Definition knownStaticMethodStep (c : ClientClass.t) (requiredMethods : list string)
    (s : ScoreState) (method : string) : ScoreState :=
  if decide (method ∈ ClientClass.staticMethods c)
  then mkScoreState (score s + 2) (matchedProperties s)
         (pushUnlessIncluded (matchedMethods s) method)
         (missingProperties s) (missingMethods s)
  else if decide (method ∈ requiredMethods) then s
  else mkScoreState (score s) (matchedProperties s) (matchedMethods s)
         (missingProperties s) (missingMethods s ++ [method]).

(** [if (knownInfo.field) { for (const x of knownInfo.field) ... }] *)
Definition forOptional (step : ScoreState → string → ScoreState)
    (field : option (list string)) (s : ScoreState) : ScoreState :=
  match field with
  | Some xs => fold_left step xs s
  | None => s
  end.

(** The [if (knownInfo) { ... }] block. *)
Definition knownInfoBlock (c : ClientClass.t) (requiredProperties requiredMethods : list string)
    (knownInfo : option KnownClassInfo.t) (s : ScoreState) : ScoreState :=
  match knownInfo with
  | None => s
  | Some k =>
      let s1 := forOptional (knownPropertyStep c requiredProperties)
                  (KnownClassInfo.properties k) s in
      let s2 := forOptional (knownStaticPropertyStep c requiredProperties)
                  (KnownClassInfo.staticProperties k) s1 in
      let s3 := forOptional (knownMethodStep c requiredMethods)
                  (KnownClassInfo.methods k) s2 in
      forOptional (knownStaticMethodStep c requiredMethods)
        (KnownClassInfo.staticMethods k) s3
  end.

(** The two "bonus points for common patterns" statements. *)
Definition instanceBonus (requiredProperties : list string) (c : ClientClass.t) : Z :=
  if decide ("Instance" ∈ requiredProperties)
  then (if ClientClass.hasInstance c then 5 else 0)%Z else 0%Z.

Definition managerBonus (requiredProperties : list string) (c : ClientClass.t) : Z :=
  if decide ("Manager" ∈ requiredProperties)
  then (if ClientClass.hasManager c then 3 else 0)%Z else 0%Z.

(** [calculateMatchScore], with the curated table as a parameter. *)
Definition calculateMatchScoreIn (known : list KnownClassInfo.t)
    (hookUsage : GameHookUsage.t) (clientClass : ClientClass.t) (hookName : string)
  : ClassMatch.t :=
  let requiredProperties := elements (GameHookUsage.properties hookUsage) in
  let requiredMethods := elements (GameHookUsage.methods hookUsage) in
  let s0 := mkScoreState 0 [] [] [] [] in
  let s1 := fold_left (requiredPropertyStep clientClass) requiredProperties s0 in
  let s2 := fold_left (requiredMethodStep clientClass) requiredMethods s1 in
  let knownInfo :=
    List.find (λ info, bool_decide (KnownClassInfo.className info = hookName)) known in
  let s3 := knownInfoBlock clientClass requiredProperties requiredMethods knownInfo s2 in
  ClassMatch.mk hookName (ClientClass.name clientClass)
    (score s3 + instanceBonus requiredProperties clientClass
              + managerBonus requiredProperties clientClass)
    (matchedProperties s3) (matchedMethods s3)
    (missingProperties s3) (missingMethods s3).

(** [calculateMatchScore] as the script runs it, on [knownClassInfo]. *)
Definition calculateMatchScore : GameHookUsage.t → ClientClass.t → string → ClassMatch.t :=
  calculateMatchScoreIn knownClassInfo.

(** [matches.sort((a, b) => b.matchScore - a.matchScore)]: a stable sort by
    descending score, written as an insertion sort. *)
Fixpoint insertByScore (m : ClassMatch.t) (sorted : list ClassMatch.t) : list ClassMatch.t :=
  match sorted with
  | [] => [m]
  | m' :: rest =>
      if decide (ClassMatch.matchScore m' - ClassMatch.matchScore m ≤ 0)%Z
      then m :: m' :: rest
      else m' :: insertByScore m rest
  end.

Definition sortByScore (matches : list ClassMatch.t) : list ClassMatch.t :=
  foldr insertByScore [] matches.

(** The candidate loop of [analyzeGameHookDependencies]: score every class,
    keep the positive scores, sort. *)
Definition rankMatches (hookUsage : GameHookUsage.t) (clientClasses : list ClientClass.t)
    (mappedName : string) : list ClassMatch.t :=
  sortByScore
    (List.filter (λ m, bool_decide (0 < ClassMatch.matchScore m)%Z)
       (map (λ c, calculateMatchScore hookUsage c mappedName) clientClasses)).

(* ===================================================================== *)
(** ** TypeScript syntax trees *)
(* ===================================================================== *)

(** The node kinds that the walkers test for, with the fields they read.
    [line] is the 0-based line of [node.getStart()].  Every other kind
    ([VariableStatement], [ExpressionStatement], [ThisKeyword], tokens,
    type nodes, ...) is [Other] with its children in [forEachChild] order.
    The [name] child of a property access is an identifier token, on which
    every walker is the identity, so it is kept as a string only. *)
Module TS.
Inductive Node :=
| Identifier (text : string)
| StringLiteral (text : string)
| PropertyAccessExpression (line : nat) (expression : Node) (name : string)
| CallExpression (line : nat) (expression : Node) (arguments : list Node)
| VariableDeclaration (line : nat) (name : Node) (initializer : option Node)
| FunctionDeclaration (children : list Node)
| FunctionExpression (children : list Node)
| ArrowFunction (children : list Node)
| Block (statements : list Node)
| SourceFile (statements : list Node)
| Other (children : list Node).

(** Statement wrappers met in the examples. *)
Definition VariableStatement (declarations : list Node) : Node :=
  Other [Other declarations].
Definition ExpressionStatement (expression : Node) : Node := Other [expression].
Definition ThisKeyword : Node := Other [].
End TS.
Import TS.

(** [interface GameHookDependency]. *)
Module GameHookDependency.
Record t := mk {
  hookName : string;
  propertyChain : list string;
  fullExpression : string;
  file : string;
  line : nat;
  isDirect : bool;
  sourceVariable : option string
}.
End GameHookDependency.

(** [interface VariableGameHookReference]. *)
Module VariableGameHookReference.
Record t := mk {
  variableName : string;
  hookName : string;
  propertyChain : list string;
  fullGameHookExpression : string;
  declarationLine : nat;
  scope : string
}.
End VariableGameHookReference.

(** [interface ScopeTracker]. *)
Module ScopeTracker.
Record t := mk {
  currentScope : string;
  scopeCounter : nat;
  variableReferences : gmap string VariableGameHookReference.t
}.
End ScopeTracker.

(** [chain[chain.length - 1] += '()']: on an empty array the assignment
    creates the property "-1" and leaves the elements untouched. *)
Fixpoint markCall (chain : list string) : list string :=
  match chain with
  | [] => []
  | [x] => [x +:+ "()"]
  | x :: rest => x :: markCall rest
  end.

(** The inner [traverse] of [extractPropertyChain], threading [chain]. *)
Fixpoint traverse (n : Node) (chain : list string) : list string :=
  match n with
  | PropertyAccessExpression _ e name => traverse e chain ++ [name]
  | Identifier text => chain ++ [text]
  | CallExpression _ e _ => markCall (traverse e chain)
  | _ => chain
  end.

Definition extractPropertyChain (node : Node) : list string := traverse node [].

Definition isGameHooksAccess (chain : list string) : bool :=
  (bool_decide (4 ≤ length chain)%nat && bool_decide (chain !! 0 = Some "document")
     && bool_decide (chain !! 1 = Some "highlite")
     && bool_decide (chain !! 2 = Some "gameHooks"))
  || (bool_decide (3 ≤ length chain)%nat && bool_decide (chain !! 0 = Some "highlite")
        && bool_decide (chain !! 1 = Some "gameHooks"))
  || (bool_decide (3 ≤ length chain)%nat && bool_decide (chain !! 0 = Some "this")
        && bool_decide (chain !! 1 = Some "gameHooks"))
  || (bool_decide (2 ≤ length chain)%nat && bool_decide (chain !! 0 = Some "gameHooks")).

(** [getHookNameAndProperties]; [startIndex = -1] is [None]. *)
Definition getHookNameAndProperties (chain : list string) : string * list string :=
  let startIndex : option nat :=
    if bool_decide (4 ≤ length chain)%nat && bool_decide (chain !! 0 = Some "document")
       && bool_decide (chain !! 1 = Some "highlite")
       && bool_decide (chain !! 2 = Some "gameHooks") then Some 3
    else if bool_decide (3 ≤ length chain)%nat && bool_decide (chain !! 0 = Some "highlite")
            && bool_decide (chain !! 1 = Some "gameHooks") then Some 2
    else if bool_decide (3 ≤ length chain)%nat && bool_decide (chain !! 0 = Some "this")
            && bool_decide (chain !! 1 = Some "gameHooks") then Some 2
    else if bool_decide (2 ≤ length chain)%nat && bool_decide (chain !! 0 = Some "gameHooks")
    then Some 1
    else None in
  match startIndex with
  | None => ("", [])
  | Some i =>
      if bool_decide (length chain ≤ i)%nat then ("", [])
      else (default "" (chain !! i), drop (S i) chain)
  end.

Fixpoint nodeToString (node : Node) : string :=
  match node with
  | PropertyAccessExpression _ e name => nodeToString e +:+ "." +:+ name
  | Identifier text => text
  | CallExpression _ e _ => nodeToString e +:+ "()"
  | _ => "[unknown]"
  end.

(** ** Hook usage extractor: [analyzeFileForGameHooks] *)

(** The state the [visit] closure mutates. *)
Record WalkState := mkWalkState {
  scopeTracker : ScopeTracker.t;
  dependencies : list GameHookDependency.t
}.

Definition enterScope (st : WalkState) : WalkState :=
  let t := scopeTracker st in
  let counter := S (ScopeTracker.scopeCounter t) in
  mkWalkState
    (ScopeTracker.mk ("scope_" +:+ pretty counter) counter
       (ScopeTracker.variableReferences t))
    (dependencies st).

Definition exitScope (st : WalkState) : WalkState :=
  let t := scopeTracker st in
  mkWalkState
    (ScopeTracker.mk "global" (ScopeTracker.scopeCounter t)
       (filter (λ kv, VariableGameHookReference.scope kv.2 ≠ ScopeTracker.currentScope t)
          (ScopeTracker.variableReferences t)))
    (dependencies st).

Definition isScopeNode (node : Node) : bool :=
  match node with
  | FunctionDeclaration _ | FunctionExpression _ | ArrowFunction _ | Block _ => true
  | _ => false
  end.

Definition pushDependency (d : GameHookDependency.t) (st : WalkState) : WalkState :=
  mkWalkState (scopeTracker st) (dependencies st ++ [d]).

Definition setVariableReference (r : VariableGameHookReference.t) (st : WalkState)
  : WalkState :=
  let t := scopeTracker st in
  mkWalkState
    (ScopeTracker.mk (ScopeTracker.currentScope t) (ScopeTracker.scopeCounter t)
       (<[VariableGameHookReference.variableName r := r]>
          (ScopeTracker.variableReferences t)))
    (dependencies st).

Definition getVariableReference (variableName : string) (st : WalkState)
  : option VariableGameHookReference.t :=
  ScopeTracker.variableReferences (scopeTracker st) !! variableName.

(** "Check for variable declarations that assign game hook references". *)
Definition declarationStep (filePath : string) (node : Node) (st : WalkState) : WalkState :=
  match node with
  | VariableDeclaration line (Identifier variableName) (Some initializer) =>
      if bool_decide (variableName = "") then st else
      let chain := extractPropertyChain initializer in
      if isGameHooksAccess chain then
        let '(hookName, properties) := getHookNameAndProperties chain in
        if bool_decide (hookName = "") then st else
        let lineNumber := line + 1 in
        let fullExpression := nodeToString initializer in
        pushDependency
          (GameHookDependency.mk hookName properties fullExpression filePath
             lineNumber true None)
          (setVariableReference
             (VariableGameHookReference.mk variableName hookName properties
                fullExpression lineNumber
                (ScopeTracker.currentScope (scopeTracker st)))
             st)
      else st
  | _ => st
  end.

(** An indirect dependency through the alias [variableRef]. *)
Definition indirectDependency (filePath : string) (node : Node) (line : nat)
    (variableName : string) (variableRef : VariableGameHookReference.t)
    (segment : string) : GameHookDependency.t :=
  GameHookDependency.mk (VariableGameHookReference.hookName variableRef)
    (VariableGameHookReference.propertyChain variableRef ++ [segment])
    (nodeToString node) filePath (line + 1) false (Some variableName).

Definition pushIndirect (filePath : string) (node : Node) (line : nat)
    (variableName segment : string) (st : WalkState) : WalkState :=
  match getVariableReference variableName st with
  | Some variableRef =>
      pushDependency (indirectDependency filePath node line variableName variableRef segment) st
  | None => st
  end.

(** "Check for direct game hooks access" and its two [else if] branches.
    [isInitializer] is [parent.initializer === node] for a
    [VariableDeclaration] parent. *)
Definition accessStep (filePath : string) (isInitializer : bool) (node : Node)
    (st : WalkState) : WalkState :=
  match node with
  | PropertyAccessExpression line objectExpression propertyName =>
      let chain := extractPropertyChain node in
      if isGameHooksAccess chain then
        let '(hookName, properties) := getHookNameAndProperties chain in
        if bool_decide (hookName = "") then st
        else if isInitializer then st
        else pushDependency
               (GameHookDependency.mk hookName properties (nodeToString node) filePath
                  (line + 1) true None) st
      else
        match objectExpression with
        | Identifier variableName => pushIndirect filePath node line variableName propertyName st
        | _ => st
        end
  | CallExpression line callee _ =>
      let chain := extractPropertyChain node in
      if isGameHooksAccess chain then
        let '(hookName, properties) := getHookNameAndProperties chain in
        if bool_decide (hookName = "") then st
        else if isInitializer then st
        else pushDependency
               (GameHookDependency.mk hookName properties (nodeToString node) filePath
                  (line + 1) true None) st
      else
        match callee with
        | PropertyAccessExpression _ (Identifier variableName) methodName =>
            pushIndirect filePath node line variableName (methodName +:+ "()") st
        | Identifier variableName => pushIndirect filePath node line variableName "()" st
        | _ => st
        end
  | _ => st
  end.

(** The [visit] closure of [analyzeFileForGameHooks]. *)
Fixpoint visit (filePath : string) (isInitializer : bool) (node : Node) (st : WalkState)
  : WalkState :=
  let st1 := if isScopeNode node then enterScope st else st in
  let st2 := declarationStep filePath node st1 in
  let st3 := accessStep filePath isInitializer node st2 in
  let st4 :=
    match node with
    | Identifier _ | StringLiteral _ => st3
    | PropertyAccessExpression _ e _ => visit filePath false e st3
    | CallExpression _ e args =>
        fold_left (λ s a, visit filePath false a s) args (visit filePath false e st3)
    | VariableDeclaration _ name None => visit filePath false name st3
    | VariableDeclaration _ name (Some init) =>
        visit filePath true init (visit filePath false name st3)
    | FunctionDeclaration cs | FunctionExpression cs | ArrowFunction cs
    | Block cs | SourceFile cs | Other cs =>
        fold_left (λ s c, visit filePath false c s) cs st3
    end in
  if isScopeNode node then exitScope st4 else st4.

Definition initialWalkState : WalkState :=
  mkWalkState (ScopeTracker.mk "global" 0 ∅) [].

(** [analyzeFileForGameHooks]; [sourceFile = None] stands for a read or
    parse that throws, which the [catch] turns into an empty result. *)
Definition analyzeFileForGameHooks (filePath : string) (sourceFile : option Node)
  : list GameHookDependency.t :=
  match sourceFile with
  | Some root => dependencies (visit filePath false root initialWalkState)
  | None => []
  end.

(* ===================================================================== *)
(** ** Hook registration extractor *)
(* ===================================================================== *)

(** A [visit] that handles the node and then calls
    [ts.forEachChild(node, visit)]. *)
Fixpoint forEachNode {S : Type} (handle : Node → S → S) (node : Node) (st : S) : S :=
  let st1 := handle node st in
  match node with
  | Identifier _ | StringLiteral _ => st1
  | PropertyAccessExpression _ e _ => forEachNode handle e st1
  | CallExpression _ e args =>
      fold_left (λ s a, forEachNode handle a s) args (forEachNode handle e st1)
  | VariableDeclaration _ name None => forEachNode handle name st1
  | VariableDeclaration _ name (Some init) =>
      forEachNode handle init (forEachNode handle name st1)
  | FunctionDeclaration cs | FunctionExpression cs | ArrowFunction cs
  | Block cs | SourceFile cs | Other cs =>
      fold_left (λ s c, forEachNode handle c s) cs st1
  end.

(** The record created by [if (!hookUsage[className])]. *)
Definition newRegistrationUsage : GameHookUsage.t :=
  GameHookUsage.mk ∅ ∅ ∅ ∅ false true.

(** The walk of [analyzeFileForHookRegistrations]: the dictionary built so
    far, and whether a statement has thrown (the [catch] then ends the
    walk and the function returns the dictionary as it is). *)
Record RegistrationWalk := mkRegistrationWalk {
  hookUsage : gmap string GameHookUsage.t;
  thrown : bool
}.

(** [methods.add(methodName)] and [files.add(filePath)] on the entry of
    [className], created first when absent. *)
Definition addRegistration (filePath className methodName : string)
    (hookUsage : gmap string GameHookUsage.t) : gmap string GameHookUsage.t :=
  let u := default newRegistrationUsage (hookUsage !! className) in
  <[className :=
      GameHookUsage.mk (GameHookUsage.properties u)
        ({[methodName]} ∪ GameHookUsage.methods u)
        (GameHookUsage.fullExpressions u)
        ({[filePath]} ∪ GameHookUsage.files u)
        (GameHookUsage.fromDirectAccess u)
        (GameHookUsage.fromHookRegistration u)]> hookUsage.

(** The body shared by the two registration branches.  For an inherited
    name [hookUsage[className]] is the inherited member, no entry is
    created, and [hookUsage[className].methods.add] throws. *)
Definition recordRegistration (filePath className methodName : string)
    (w : RegistrationWalk) : RegistrationWalk :=
  if thrown w then w
  else if inheritedKey className then mkRegistrationWalk (hookUsage w) true
  else mkRegistrationWalk (addRegistration filePath className methodName (hookUsage w)) false.

(** One [if (ts.isCallExpression(node) && ... name.text === callee ...)]. *)
Definition registrationBranch (callee filePath : string) (node : Node)
    (w : RegistrationWalk) : RegistrationWalk :=
  match node with
  | CallExpression _ (PropertyAccessExpression _ _ name)
      (StringLiteral className :: StringLiteral methodName :: _) =>
      if bool_decide (name = callee)
      then recordRegistration filePath className methodName w
      else w
  | _ => w
  end.

Definition registrationStep (filePath : string) (node : Node) (w : RegistrationWalk)
  : RegistrationWalk :=
  registrationBranch "registerClassOverrideHook" filePath node
    (registrationBranch "registerClassHook" filePath node w).

(** [analyzeFileForHookRegistrations]; [None] is a read or parse that throws. *)
Definition analyzeFileForHookRegistrations (filePath : string) (sourceFile : option Node)
  : gmap string GameHookUsage.t :=
  match sourceFile with
  | Some root =>
      hookUsage (forEachNode (registrationStep filePath) root (mkRegistrationWalk ∅ false))
  | None => ∅
  end.

(** [interface ClassMapping]. *)
Module ClassMapping.
Record t := mk {
  clientClassName : string;
  hookName : string;
  methods : gset string;
  file : string
}.
End ClassMapping.

(** [mapping.methods.add(methodName)] on the first mapping of the hook. *)
Fixpoint addMappingMethod (hookName methodName : string) (mappings : list ClassMapping.t)
  : option (list ClassMapping.t) :=
  match mappings with
  | [] => None
  | m :: rest =>
      if bool_decide (ClassMapping.hookName m = hookName)
      then Some (ClassMapping.mk (ClassMapping.clientClassName m) (ClassMapping.hookName m)
                   ({[methodName]} ∪ ClassMapping.methods m) (ClassMapping.file m) :: rest)
      else (m ::.) <$> addMappingMethod hookName methodName rest
  end.

Definition mappingHookBranch (callee filePath : string) (node : Node)
    (mappings : list ClassMapping.t) : list ClassMapping.t :=
  match node with
  | CallExpression _ (PropertyAccessExpression _ _ name)
      (StringLiteral hookName :: StringLiteral methodName :: _) =>
      if bool_decide (name = callee) then
        match addMappingMethod hookName methodName mappings with
        | Some mappings' => mappings'
        | None => mappings ++ [ClassMapping.mk "UNKNOWN" hookName {[methodName]} filePath]
        end
      else mappings
  | _ => mappings
  end.

Definition mappingStep (filePath : string) (node : Node) (mappings : list ClassMapping.t)
  : list ClassMapping.t :=
  let m1 :=
    match node with
    | CallExpression _ (PropertyAccessExpression _ _ name)
        (StringLiteral clientClassName :: StringLiteral hookName :: _) =>
        if bool_decide (name = "registerClass")
        then mappings ++ [ClassMapping.mk clientClassName hookName ∅ filePath]
        else mappings
    | _ => mappings
    end in
  mappingHookBranch "registerClassOverrideHook" filePath node
    (mappingHookBranch "registerClassHook" filePath node m1).

(** [extractClassMappingsFromCore]. *)
Definition extractClassMappingsFromCore (filePath : string) (sourceFile : option Node)
  : list ClassMapping.t :=
  match sourceFile with
  | Some root => forEachNode (mappingStep filePath) root []
  | None => []
  end.

(* ===================================================================== *)
(** ** Aggregation into per-hook usage records *)
(* ===================================================================== *)

(** [s.includes(sub)] *)
Definition includes (s sub : string) : bool :=
  match String.index 0 sub s with Some _ => true | None => false end.

(** [s.replace(pattern, '')] for a string pattern: the first occurrence. *)
Definition replaceWithEmpty (s pattern : string) : string :=
  match String.index 0 pattern s with
  | Some i =>
      String.substring 0 i s
      +:+ String.substring (i + String.length pattern)
            (String.length s - (i + String.length pattern)) s
  | None => s
  end.

(** [if (prop.includes('()')) methods.add(prop.replace('()', ''))
     else properties.add(prop)] *)
Definition addChainItem (prop : string) (u : GameHookUsage.t) : GameHookUsage.t :=
  if includes prop "()"
  then GameHookUsage.mk (GameHookUsage.properties u)
         ({[replaceWithEmpty prop "()"]} ∪ GameHookUsage.methods u)
         (GameHookUsage.fullExpressions u) (GameHookUsage.files u)
         (GameHookUsage.fromDirectAccess u) (GameHookUsage.fromHookRegistration u)
  else GameHookUsage.mk ({[prop]} ∪ GameHookUsage.properties u)
         (GameHookUsage.methods u)
         (GameHookUsage.fullExpressions u) (GameHookUsage.files u)
         (GameHookUsage.fromDirectAccess u) (GameHookUsage.fromHookRegistration u).

(** [for (let i = 0; i < dep.propertyChain.length; i++)], from index [i]
    on; the three branches of the source run the same statement. *)
Fixpoint chainLoop (propertyChain : list string) (i : nat) (rest : list string)
    (u : GameHookUsage.t) : GameHookUsage.t :=
  match rest with
  | [] => u
  | prop :: rest' =>
      let u' :=
        if bool_decide (i = 0) then addChainItem prop u
        else if bool_decide (i = 1) && bool_decide (propertyChain !! 0 = Some "Instance")
        then addChainItem prop u
        else addChainItem prop u in
      chainLoop propertyChain (S i) rest' u'
  end.

Section Aggregation.
(** [path.relative(projectRoot, ·)] *)
Variable relative : string → string.

(** Body of [for (const dep of allDependencies)] when [dep.hookName] is
    not an inherited name. *)
Definition mergeDependency (usage : gmap string GameHookUsage.t)
    (dep : GameHookDependency.t) : gmap string GameHookUsage.t :=
  let hookUsage :=
    default (GameHookUsage.mk ∅ ∅ ∅ ∅ (GameHookDependency.isDirect dep) false)
      (usage !! GameHookDependency.hookName dep) in
  let hookUsage1 :=
    GameHookUsage.mk (GameHookUsage.properties hookUsage)
      (GameHookUsage.methods hookUsage)
      ({[GameHookDependency.fullExpression dep]} ∪ GameHookUsage.fullExpressions hookUsage)
      ({[relative (GameHookDependency.file dep)]} ∪ GameHookUsage.files hookUsage)
      (if GameHookDependency.isDirect dep then true
       else GameHookUsage.fromDirectAccess hookUsage)
      (GameHookUsage.fromHookRegistration hookUsage) in
  <[GameHookDependency.hookName dep :=
      chainLoop (GameHookDependency.propertyChain dep) 0
        (GameHookDependency.propertyChain dep) hookUsage1]> usage.

(** Body of [for (const dep of allDependencies)].  For an inherited name
    [usage[dep.hookName]] is the inherited member, and
    [hookUsage.files.add] throws. *)
Definition dependencyStep (usage : gmap string GameHookUsage.t)
    (dep : GameHookDependency.t) : outcome (gmap string GameHookUsage.t) :=
  if inheritedKey (GameHookDependency.hookName dep) then Rejected typeErrorAdd
  else Resolved (mergeDependency usage dep).

(** [for (const dep of allDependencies) { ... }] *)
Fixpoint forDependencies (allDependencies : list GameHookDependency.t)
    (usage : gmap string GameHookUsage.t) : outcome (gmap string GameHookUsage.t) :=
  match allDependencies with
  | [] => Resolved usage
  | dep :: rest =>
      match dependencyStep usage dep with
      | Resolved usage' => forDependencies rest usage'
      | Rejected message => Rejected message
      end
  end.

(** Body of [for (const [className, classUsage] of Object.entries(hookRegs))]
    in the file loop. *)
Definition fileRegistrationStep (className : string) (classUsage : GameHookUsage.t)
    (allHookRegistrations : gmap string GameHookUsage.t) : gmap string GameHookUsage.t :=
  let u := default newRegistrationUsage (allHookRegistrations !! className) in
  <[className :=
      GameHookUsage.mk (GameHookUsage.properties u)
        (GameHookUsage.methods classUsage ∪ GameHookUsage.methods u)
        (GameHookUsage.fullExpressions u)
        (set_map relative (GameHookUsage.files classUsage) ∪ GameHookUsage.files u)
        (GameHookUsage.fromDirectAccess u)
        (GameHookUsage.fromHookRegistration u)]> allHookRegistrations.

(** Body of the final
    [for (const [className, classUsage] of Object.entries(allHookRegistrations))]. *)
Definition mergeRegistrationStep (className : string) (classUsage : GameHookUsage.t)
    (usage : gmap string GameHookUsage.t) : gmap string GameHookUsage.t :=
  match usage !! className with
  | None => <[className := classUsage]> usage
  | Some u =>
      <[className :=
          GameHookUsage.mk (GameHookUsage.properties u)
            (GameHookUsage.methods classUsage ∪ GameHookUsage.methods u)
            (GameHookUsage.fullExpressions u)
            (GameHookUsage.files classUsage ∪ GameHookUsage.files u)
            (GameHookUsage.fromDirectAccess u) true]> usage
  end.

(** One iteration of [for (const file of files)]: the pair
    [(allDependencies, allHookRegistrations)] after the file. *)
Definition fileStep
    (acc : list GameHookDependency.t * gmap string GameHookUsage.t)
    (file : string * option Node)
  : list GameHookDependency.t * gmap string GameHookUsage.t :=
  (acc.1 ++ analyzeFileForGameHooks file.1 file.2,
   map_fold fileRegistrationStep acc.2 (analyzeFileForHookRegistrations file.1 file.2)).

(** The aggregation part of [analyzeGameHookDependencies]: the value of
    [usage] when the report starts, or the error thrown on the way. *)
Definition collectUsage (files : list (string * option Node))
  : outcome (gmap string GameHookUsage.t) :=
  let '(allDependencies, allHookRegistrations) := fold_left fileStep files ([], ∅) in
  match forDependencies allDependencies ∅ with
  | Resolved usage => Resolved (map_fold mergeRegistrationStep usage allHookRegistrations)
  | Rejected message => Rejected message
  end.
End Aggregation.

(* ===================================================================== *)
(** ** Client class recoverer: [parseClientForClasses] *)
(* ===================================================================== *)

(** ESTree nodes as acorn builds them: the kinds and fields that the
    [enter] and [leave] handlers read; every other kind is [Other] with
    its child nodes in the order estree-walker visits them. *)
Module ES.
Inductive MethodKind := KindConstructor | KindMethod | KindGet | KindSet.

Inductive Node :=
| Identifier (name : string)
| ThisExpression
| FunctionExpression (children : list Node)
| ClassDeclaration (id : option Node) (superClass : option Node) (body : Node)
| VariableDeclarator (id : Node) (init : option Node)
| FunctionDeclaration (id : option Node) (params : list Node) (body : Node)
| MethodDefinition (static : bool) (key : Node) (kind : MethodKind) (value : Node)
| AssignmentExpression (left right : Node)
| MemberExpression (object property : Node)
| Other (children : list Node).

(** [class C { ... }]'s body node. *)
Definition ClassBody (members : list Node) : Node := Other members.
End ES.

(** The mutable [classMap] (insertion-ordered) and [currentClass] cursor. *)
Record RecoverState := mkRecoverState {
  classMap : list (string * ClientClass.t);
  currentClass : option string
}.

Definition isAlphabetic (a : Ascii.ascii) : bool :=
  let n := Ascii.nat_of_ascii a in
  (Nat.leb 65 n && Nat.leb n 90) || (Nat.leb 97 n && Nat.leb n 122).

Fixpoint allAlphabetic (s : string) : bool :=
  match s with
  | EmptyString => true
  | String a rest => isAlphabetic a && allAlphabetic rest
  end.

(** [className.length <= 3 && /^[A-Za-z]{1,3}$/.test(className)] *)
Definition isShortName (className : string) : bool :=
  Nat.leb (String.length className) 3
  && (Nat.leb 1 (String.length className) && Nat.leb (String.length className) 3
      && allAlphabetic className).

Definition classMapHas (className : string) (m : list (string * ClientClass.t)) : bool :=
  bool_decide (className ∈ m.*1).

Fixpoint classMapGet (className : string) (m : list (string * ClientClass.t))
  : option ClientClass.t :=
  match m with
  | [] => None
  | (k, c) :: rest => if bool_decide (k = className) then Some c else classMapGet className rest
  end.

Definition emptyClass (className : string) : ClientClass.t :=
  ClientClass.mk className ∅ ∅ ∅ ∅ false false.

(** [if (!classMap.has(className)) classMap.set(className, {...})] *)
Definition ensureClass (className : string) (m : list (string * ClientClass.t))
  : list (string * ClientClass.t) :=
  if classMapHas className m then m else m ++ [(className, emptyClass className)].

(** In-place mutation of [classMap.get(className)!]. *)
Definition updateClass (className : string) (f : ClientClass.t → ClientClass.t)
    (m : list (string * ClientClass.t)) : list (string * ClientClass.t) :=
  map (λ kc, if bool_decide (kc.1 = className) then (kc.1, f kc.2) else kc) m.

Definition addProperty (p : string) (c : ClientClass.t) : ClientClass.t :=
  ClientClass.mk (ClientClass.name c) ({[p]} ∪ ClientClass.properties c)
    (ClientClass.methods c) (ClientClass.staticProperties c) (ClientClass.staticMethods c)
    (ClientClass.hasInstance c) (ClientClass.hasManager c).

Definition addMethod (m : string) (c : ClientClass.t) : ClientClass.t :=
  ClientClass.mk (ClientClass.name c) (ClientClass.properties c)
    ({[m]} ∪ ClientClass.methods c) (ClientClass.staticProperties c)
    (ClientClass.staticMethods c) (ClientClass.hasInstance c) (ClientClass.hasManager c).

Definition addStaticProperty (p : string) (c : ClientClass.t) : ClientClass.t :=
  ClientClass.mk (ClientClass.name c) (ClientClass.properties c) (ClientClass.methods c)
    ({[p]} ∪ ClientClass.staticProperties c) (ClientClass.staticMethods c)
    (ClientClass.hasInstance c) (ClientClass.hasManager c).

Definition addStaticMethod (m : string) (c : ClientClass.t) : ClientClass.t :=
  ClientClass.mk (ClientClass.name c) (ClientClass.properties c) (ClientClass.methods c)
    (ClientClass.staticProperties c) ({[m]} ∪ ClientClass.staticMethods c)
    (ClientClass.hasInstance c) (ClientClass.hasManager c).

Definition setHasInstance (c : ClientClass.t) : ClientClass.t :=
  ClientClass.mk (ClientClass.name c) (ClientClass.properties c) (ClientClass.methods c)
    (ClientClass.staticProperties c) (ClientClass.staticMethods c)
    true (ClientClass.hasManager c).

Definition setHasManager (c : ClientClass.t) : ClientClass.t :=
  ClientClass.mk (ClientClass.name c) (ClientClass.properties c) (ClientClass.methods c)
    (ClientClass.staticProperties c) (ClientClass.staticMethods c)
    (ClientClass.hasInstance c) true.

(** The body shared by the three declaration rules. *)
Definition openCandidate (className : string) (st : RecoverState) : RecoverState :=
  if isShortName className
  then mkRecoverState (ensureClass className (classMap st)) (Some className)
  else st.

Definition enterClassDeclaration (node : ES.Node) (st : RecoverState) : RecoverState :=
  match node with
  | ES.ClassDeclaration (Some (ES.Identifier className)) _ _ => openCandidate className st
  | _ => st
  end.

Definition enterVariableDeclarator (node : ES.Node) (st : RecoverState) : RecoverState :=
  match node with
  | ES.VariableDeclarator (ES.Identifier className) (Some (ES.FunctionExpression _)) =>
      openCandidate className st
  | _ => st
  end.

Definition enterFunctionDeclaration (node : ES.Node) (st : RecoverState) : RecoverState :=
  match node with
  | ES.FunctionDeclaration (Some (ES.Identifier className)) _ _ => openCandidate className st
  | _ => st
  end.

(** [currentClass && classMap.has(currentClass)]: the open candidate.
    (A candidate name is never the empty string.) *)
Definition openClass (st : RecoverState) : option string :=
  match currentClass st with
  | Some cc => if classMapHas cc (classMap st) then Some cc else None
  | None => None
  end.

(** The general method-definition rule (any [kind]). *)
Definition enterMethodDefinition (node : ES.Node) (st : RecoverState) : RecoverState :=
  match node, openClass st with
  | ES.MethodDefinition static (ES.Identifier methodName) _ _, Some cc =>
      let f c :=
        if static then
          let c1 := addStaticMethod methodName c in
          if bool_decide (methodName = "Instance")
          then addStaticProperty "Instance" (setHasInstance c1)
          else c1
        else addMethod methodName c in
      mkRecoverState (updateClass cc f (classMap st)) (currentClass st)
  | _, _ => st
  end.

(** The accessor rule ([kind] is [get] or [set]). *)
Definition enterAccessor (node : ES.Node) (st : RecoverState) : RecoverState :=
  match node, openClass st with
  | ES.MethodDefinition static (ES.Identifier propName) (ES.KindGet | ES.KindSet) _, Some cc =>
      let f c :=
        if static then
          let c1 := addStaticProperty propName c in
          let c2 := if bool_decide (propName = "Instance") then setHasInstance c1 else c1 in
          if bool_decide (propName = "Manager") then setHasManager c2 else c2
        else addProperty propName c in
      mkRecoverState (updateClass cc f (classMap st)) (currentClass st)
  | _, _ => st
  end.

(** [ClassName.prototype.method = ...] *)
Definition enterPrototypeAssignment (node : ES.Node) (st : RecoverState) : RecoverState :=
  match node with
  | ES.AssignmentExpression
      (ES.MemberExpression
         (ES.MemberExpression (ES.Identifier className) (ES.Identifier prototype))
         (ES.Identifier methodName)) _ =>
      if bool_decide (prototype = "prototype") && isShortName className
      then mkRecoverState
             (updateClass className (addMethod methodName)
                (ensureClass className (classMap st)))
             (currentClass st)
      else st
  | _ => st
  end.

(** [ClassName.property = value] *)
Definition enterStaticAssignment (node : ES.Node) (st : RecoverState) : RecoverState :=
  match node with
  | ES.AssignmentExpression
      (ES.MemberExpression (ES.Identifier className) (ES.Identifier propertyName)) _ =>
      if isShortName className then
        let f c :=
          let c1 := addStaticProperty propertyName c in
          let c2 := if bool_decide (propertyName = "Instance") then setHasInstance c1 else c1 in
          if bool_decide (propertyName = "Manager") then setHasManager c2 else c2 in
        mkRecoverState (updateClass className f (ensureClass className (classMap st)))
          (currentClass st)
      else st
  | _ => st
  end.

(** [this.property = value] *)
Definition enterThisAssignment (node : ES.Node) (st : RecoverState) : RecoverState :=
  match node with
  | ES.AssignmentExpression (ES.MemberExpression ES.ThisExpression (ES.Identifier propertyName)) _ =>
      match openClass st with
      | Some cc =>
          mkRecoverState (updateClass cc (addProperty propertyName) (classMap st))
            (currentClass st)
      | None =>
          mkRecoverState (map (λ kc, (kc.1, addProperty propertyName kc.2)) (classMap st))
            (currentClass st)
      end
  | _ => st
  end.

(** The [enter] handler: its eight [if] statements in order. *)
Definition enter (node : ES.Node) (st : RecoverState) : RecoverState :=
  enterThisAssignment node
    (enterStaticAssignment node
       (enterPrototypeAssignment node
          (enterAccessor node
             (enterMethodDefinition node
                (enterFunctionDeclaration node
                   (enterVariableDeclarator node
                      (enterClassDeclaration node st))))))).

(** The [leave] handler. *)
Definition leave (node : ES.Node) (st : RecoverState) : RecoverState :=
  match node with
  | ES.ClassDeclaration _ _ _ | ES.FunctionDeclaration _ _ _
  | ES.VariableDeclarator _ (Some (ES.FunctionExpression _)) =>
      mkRecoverState (classMap st) None
  | _ => st
  end.

(** estree-walker's [walk(ast, { enter, leave })]. *)
Fixpoint walk (node : ES.Node) (st : RecoverState) : RecoverState :=
  let st1 := enter node st in
  let st2 :=
    match node with
    | ES.Identifier _ | ES.ThisExpression => st1
    | ES.FunctionExpression cs | ES.Other cs => fold_left (λ s c, walk c s) cs st1
    | ES.ClassDeclaration ident superClass body =>
        let s1 := match ident with Some n => walk n st1 | None => st1 end in
        let s2 := match superClass with Some n => walk n s1 | None => s1 end in
        walk body s2
    | ES.VariableDeclarator ident init =>
        match init with Some n => walk n (walk ident st1) | None => walk ident st1 end
    | ES.FunctionDeclaration ident params body =>
        let s1 := match ident with Some n => walk n st1 | None => st1 end in
        walk body (fold_left (λ s c, walk c s) params s1)
    | ES.MethodDefinition _ key _ value => walk value (walk key st1)
    | ES.AssignmentExpression lhs rhs => walk rhs (walk lhs st1)
    | ES.MemberExpression object property => walk property (walk object st1)
    end in
  leave node st2.

(** The filter of the final [for (const clientClass of classMap.values())]. *)
Definition hasMembers (c : ClientClass.t) : bool :=
  bool_decide (0 < size (ClientClass.properties c))%nat
  || bool_decide (0 < size (ClientClass.methods c))%nat
  || bool_decide (0 < size (ClientClass.staticProperties c))%nat
  || bool_decide (0 < size (ClientClass.staticMethods c))%nat.

(** The classes recovered from a parsed bundle. *)
Definition recoverClasses (ast : ES.Node) : list ClientClass.t :=
  List.filter hasMembers (walk ast (mkRecoverState [] None)).(classMap).*2.

(** The text of the client bundle.  The script cuts it by position
    ([length], [substring]), so it is kept as JavaScript has it: a sequence
    of UTF-16 code units. *)
Definition CodeUnit : Type := N.
Definition JSString : Type := list CodeUnit.

(** The code units of an ASCII literal: one unit per character. *)
Fixpoint codeUnits (literal : string) : JSString :=
  match literal with
  | EmptyString => []
  | String a rest => Ascii.N_of_ascii a :: codeUnits rest
  end.

Section ClientRecovery.
(** [MyParser.parse(clientCode, ...)]; [None] when acorn throws. *)
Variable acornParse : JSString → option ES.Node.

(** [parseClientForClasses]: a parse error is caught and leaves
    [classes] empty. *)
Definition parseClientForClasses (clientCode : JSString) : list ClientClass.t :=
  match acornParse clientCode with
  | Some ast => recoverClasses ast
  | None => []
  end.
End ClientRecovery.

(* ===================================================================== *)
(** ** Fetching the client bundle: [obtainGameClient] *)
(* ===================================================================== *)

(** The asset manifest, as far as the script reads it.  [data] is [None]
    when the manifest has no member [data]: reading [latestClientVersion]
    of it throws.  [latestClientVersion] is [None] when [data] has no such
    member: the read gives [undefined]; otherwise it is the version.  The
    model covers the manifests whose version, when there is one, is an
    integer. *)
Record AssetData := mkAssetData { latestClientVersion : option Z }.
Record AssetJSON := mkAssetJSON { data : option AssetData }.

(** What the script uses of a fetch [Response]. *)
Module Response.
Record t := mk {
  json : outcome AssetJSON;
  text : outcome JSString
}.
End Response.

(** The network as the script sees it: [fetch(url)] and [Date.now()]. *)
Record Network := mkNetwork {
  fetch : string → outcome Response.t;
  dateNow : Z
}.

(** [IndexDBWrapper] (renderer/client/helpers) is not part of the sources
    at hand: its operations, as [obtainGameClient] calls them, are taken
    as parameters. *)
Record IndexDB := mkIndexDB {
  init : outcome unit;
  getClientLastVersion : outcome (option Z);
  getHighSpellClient : outcome JSString;
  setHighSpellClient : JSString → outcome unit;
  setClientLastVersion : Z → outcome unit
}.

(** An async computation that records the URLs it requests. *)
Definition Async (A : Type) : Type := list string → outcome A * list string.

Definition ret {A} (a : A) : Async A := λ log, (Resolved a, log).
Definition throw {A} (message : string) : Async A := λ log, (Rejected message, log).
Definition await {A} (o : outcome A) : Async A := λ log, (o, log).
Definition bind {A B} (c : Async A) (k : A → Async B) : Async B :=
  λ log, match c log with
         | (Resolved a, log') => k a log'
         | (Rejected message, log') => (Rejected message, log')
         end.
Definition request (net : Network) (url : string) : Async Response.t :=
  λ log, (fetch net url, log ++ [url]).

Notation "'let!' x ':=' c 'in' k" := (bind c (λ x, k))
  (at level 10, x pattern, c at level 100, k at level 200).

Definition highspellAssetsURL : string := "https://highspell.com:3002/assetsClient".

(** The accessors spliced in before the last nine code units. *)
Definition clientAccessors : string :=
  "; document.client = {};"
  +:+ "document.client.get = function(a) {"
  +:+ "return eval(a);"
  +:+ "};"
  +:+ "document.client.set = function(a, b) {"
  +:+ "eval(a + ' = ' + b);"
  +:+ "};".

(** [highSpellClient.substring(0, highSpellClient.length - 9) + ... +
    highSpellClient.substring(highSpellClient.length - 9)]; a negative
    index counts as 0. *)
Definition patchClient (highSpellClient : JSString) : JSString :=
  let cut := (length highSpellClient - 9)%nat in
  take cut highSpellClient ++ codeUnits clientAccessors ++ drop cut highSpellClient.

(** The [if] branch of [obtainGameClient]: the stored client is outdated.
    The version and [Date.now()] enter the URL as their decimal text, which
    is what a template literal and [+] give for an integer (of less than
    22 digits). *)
Definition downloadClient (net : Network) (db : IndexDB) (ignoreDB : bool)
    (remoteLastVersion : Z) : Async JSString :=
  let highSpellClientURL :=
    "https://highspell.com/js/client/client." +:+ pretty remoteLastVersion +:+ ".js" in
  let! response := request net (highSpellClientURL +:+ "?time=" +:+ pretty (dateNow net)) in
  let! body := await (Response.text response) in
  let highSpellClient := patchClient body in
  let! _ :=
    (if ignoreDB then ret tt
     else let! _ := await (setHighSpellClient db highSpellClient) in
          await (setClientLastVersion db remoteLastVersion)) in
  ret highSpellClient.

(** The [else] branch: the stored client, or [""] without a database. *)
Definition storedClient (db : IndexDB) (ignoreDB : bool) : Async JSString :=
  if ignoreDB then ret [] else await (getHighSpellClient db).

(** [clientLastVersion] is a number (never [undefined]), and
    [clientLastVersion < undefined] is false. *)
Definition obtainGameClient (net : Network) (db : IndexDB) (ignoreDB : bool)
  : Async JSString :=
  let! clientLastVersion :=
    (if ignoreDB then ret 0%Z
     else let! _ := await (init db) in
          let! v := await (getClientLastVersion db) in
          ret (default 0%Z v)) in
  let! response := request net highspellAssetsURL in
  let! highSpellAssetJSON := await (Response.json response) in
  let! remoteLastVersion :=
    (match data highSpellAssetJSON with
     | Some d => ret (latestClientVersion d)
     | None => throw "Cannot read properties of undefined (reading 'latestClientVersion')"
     end) in
  match remoteLastVersion with
  | Some version =>
      if bool_decide (clientLastVersion < version)%Z
      then downloadClient net db ignoreDB version
      else storedClient db ignoreDB
  | None => storedClient db ignoreDB
  end.

(* ===================================================================== *)
(** ** The driver: [analyzeGameHookDependencies] *)
(* ===================================================================== *)

Definition doubleQuote : string := String (Ascii.ascii_of_nat 34) EmptyString.

(** [`this.hookManager.registerClass("${cls}", "${hook}");`] *)
Definition registerClassLine (clientClassName hookName : string) : string :=
  "this.hookManager.registerClass(" +:+ doubleQuote +:+ clientClassName +:+ doubleQuote
  +:+ ", " +:+ doubleQuote +:+ hookName +:+ doubleQuote +:+ ");".

(** The [// UPDATE: ...; // was "..."] line. *)
Definition updateLine (clientClassName hookName previous : string) : string :=
  "// UPDATE: " +:+ registerClassLine clientClassName hookName
  +:+ " // was " +:+ doubleQuote +:+ previous +:+ doubleQuote.

(** Body of [for (const [mappedName, hookUsage] of Object.entries(usage))]
    in the matching phase: the [results] array after the iteration. *)
Definition suggestStep (classMappings : list ClassMapping.t)
    (clientClasses : list ClientClass.t) (results : list string)
    (entry : string * GameHookUsage.t) : list string :=
  let '(mappedName, hookUsage) := entry in
  let existingMapping :=
    List.find (λ m, bool_decide (ClassMapping.hookName m = mappedName)) classMappings in
  let validClass :=
    match existingMapping with
    | Some em =>
        List.find (λ c, bool_decide (ClientClass.name c = ClassMapping.clientClassName em))
          clientClasses
    | None => None
    end in
  match existingMapping, validClass with
  | Some em, Some _ => results ++ [registerClassLine (ClassMapping.clientClassName em) mappedName]
  | _, _ =>
      match rankMatches hookUsage clientClasses mappedName with
      | [] => results
      | bestMatch :: _ =>
          if bool_decide (2 ≤ ClassMatch.matchScore bestMatch)%Z then
            match existingMapping with
            | Some em =>
                if bool_decide (ClassMapping.clientClassName em
                                ≠ ClassMatch.clientClassName bestMatch)
                then results ++ [updateLine (ClassMatch.clientClassName bestMatch) mappedName
                                   (ClassMapping.clientClassName em)]
                else results
            | None =>
                results ++ [registerClassLine (ClassMatch.clientClassName bestMatch) mappedName]
            end
          else results
      end
  end.

(** What a run leaves behind: the promise [analyzeGameHookDependencies]
    returns, the global [results] array, the lines that the function sends
    to [console.error] and the URLs requested.  The report printed with
    [console.log] is not modelled. *)
Record Run := mkRun {
  returned : outcome (gmap string GameHookUsage.t);
  results : list string;
  consoleError : list string;
  requests : list string
}.

Section Driver.
Variable relative : string → string.
Variable acornParse : JSString → option ES.Node.
Variable net : Network.
Variable db : IndexDB.

(** The statements inside [try { ... }]: the suggestions pushed to
    [results].  Hooks are visited in the order of [map_to_list]. *)
Definition matchingPhase (classMappings : list ClassMapping.t)
    (usage : gmap string GameHookUsage.t) : Async (list string) :=
  let! clientCode := obtainGameClient net db true in
  let clientClasses := parseClientForClasses acornParse clientCode in
  ret (fold_left (suggestStep classMappings clientClasses) (map_to_list usage) []).

(** [analyzeGameHookDependencies]: [files] are the scanned source files
    with their parse results, [coreFile] is core.ts. *)
Definition analyzeGameHookDependencies (files : list (string * option Node))
    (coreFile : string * option Node) : Run :=
  let classMappings := extractClassMappingsFromCore coreFile.1 coreFile.2 in
  match collectUsage relative files with
  | Rejected message => mkRun (Rejected message) [] [] []
  | Resolved usage =>
      match matchingPhase classMappings usage [] with
      | (Resolved suggestions, log) => mkRun (Resolved usage) suggestions [] log
      | (Rejected message, log) =>
          (* catch (error) { console.error(..., error.message) } *)
          mkRun (Resolved usage) [] ["Error analyzing client code: " +:+ message] log
      end
  end.
End Driver.

(** How the script ends:
    [analyzeGameHookDependencies().then(...).catch(console.error)]. *)
Inductive ScriptEnd :=
| PrintedResults (lines : list string)
| ReportedFailure (message : string).

Definition scriptEnd (run : Run) : ScriptEnd :=
  match returned run with
  | Resolved _ => PrintedResults (results run)
  | Rejected message => ReportedFailure message
  end.

(* ===================================================================== *)
(** ** Vocabulary of the statements *)
(* ===================================================================== *)

(** Number of elements of [l] that satisfy [P]. *)
Definition countWhere (P : string → Prop) `{!∀ x, Decision (P x)} (l : list string) : Z :=
  Z.of_nat (length (filter P l)).

(** The entry of the curated table for a hook name, as
    [knownClassInfo.find(info => info.className === hookName)] picks it. *)
Definition knownInfoFor (known : list KnownClassInfo.t) (hookName : string)
  : option KnownClassInfo.t :=
  List.find (λ info, bool_decide (KnownClassInfo.className info = hookName)) known.

(** The curated (instance-or-static) property list of a hook name. *)
Definition curatedProperties (known : list KnownClassInfo.t) (hookName : string)
  : list string :=
  match knownInfoFor known hookName with
  | Some k => default [] (KnownClassInfo.properties k)
  | None => []
  end.

(** Points from the usage-derived loops: 2 per matched property, 1 per
    matched method. *)
Definition usagePoints (u : GameHookUsage.t) (c : ClientClass.t) : Z :=
  2 * countWhere (hasProperty c) (elements (GameHookUsage.properties u))
  + 1 * countWhere (hasMethod c) (elements (GameHookUsage.methods u)).

(** Points from the three curated loops other than [knownInfo.properties]. *)
Definition otherCuratedPoints (known : list KnownClassInfo.t) (c : ClientClass.t)
    (hookName : string) : Z :=
  match knownInfoFor known hookName with
  | Some k =>
      3 * countWhere (.∈ ClientClass.staticProperties c)
            (default [] (KnownClassInfo.staticProperties k))
      + 2 * countWhere (hasMethod c) (default [] (KnownClassInfo.methods k))
      + 2 * countWhere (.∈ ClientClass.staticMethods c)
              (default [] (KnownClassInfo.staticMethods k))
  | None => 0
  end.

(** Number of times [p] is listed in [l]. *)
Definition occurrences (p : string) (l : list string) : Z := countWhere (.= p) l.

(** The points of the curated-property rule as the design document words
    it: 3 for each curated property present on the candidate, "only if not
    already counted from usage-derived properties". *)
Definition curatedPropertyPointsAsDocumented (known : list KnownClassInfo.t)
    (u : GameHookUsage.t) (c : ClientClass.t) (hookName : string) : Z :=
  3 * countWhere (λ p, hasProperty c p ∧ p ∉ GameHookUsage.properties u)
        (curatedProperties known hookName).

(** The scenario of the design document: what the usage of "ChatManager"
    requires, and the candidate "CM". *)
Definition chatManagerUsage : GameHookUsage.t :=
  GameHookUsage.mk {["Instance"]} {["sendMessage"]} ∅ ∅ true false.

Definition candidateCM : ClientClass.t :=
  ClientClass.mk "CM" ∅ {["sendMessage"]} {["Instance"]} ∅ true false.

(** A usage that requires the curated property "_friends", and a
    candidate that has it. *)
Definition friendsUsage : GameHookUsage.t :=
  GameHookUsage.mk {["_friends"]} ∅ ∅ ∅ true false.

Definition friendsCandidate : ClientClass.t :=
  ClientClass.mk "Fr" {["_friends"]} ∅ ∅ ∅ false false.

(** [a] may stand before [b] in a ranking. *)
Definition rankedBefore (a b : ClassMatch.t) : Prop :=
  (ClassMatch.matchScore b ≤ ClassMatch.matchScore a)%Z.

(** The direct and the indirect references of an extraction. *)
Definition directReferences (deps : list GameHookDependency.t) : list GameHookDependency.t :=
  List.filter GameHookDependency.isDirect deps.

Definition indirectReferences (deps : list GameHookDependency.t) : list GameHookDependency.t :=
  List.filter (λ d, negb (GameHookDependency.isDirect d)) deps.

(** A function or block node occurs in the subtree of the node. *)
Fixpoint containsScopeNode (node : Node) : bool :=
  isScopeNode node ||
  match node with
  | Identifier _ | StringLiteral _ => false
  | PropertyAccessExpression _ e _ => containsScopeNode e
  | CallExpression _ e args => containsScopeNode e || existsb containsScopeNode args
  | VariableDeclaration _ name None => containsScopeNode name
  | VariableDeclaration _ name (Some init) => containsScopeNode name || containsScopeNode init
  | FunctionDeclaration cs | FunctionExpression cs | ArrowFunction cs
  | Block cs | SourceFile cs | Other cs => existsb containsScopeNode cs
  end.

(** A variable declaration occurs in the subtree of the node. *)
Fixpoint containsDeclaration (node : Node) : bool :=
  match node with
  | Identifier _ | StringLiteral _ => false
  | PropertyAccessExpression _ e _ => containsDeclaration e
  | CallExpression _ e args => containsDeclaration e || existsb containsDeclaration args
  | VariableDeclaration _ _ _ => true
  | FunctionDeclaration cs | FunctionExpression cs | ArrowFunction cs
  | Block cs | SourceFile cs | Other cs => existsb containsDeclaration cs
  end.

(** A function or block node that encloses another function or block. *)
Definition hasNestedScope (node : Node) : bool :=
  match node with
  | FunctionDeclaration cs | FunctionExpression cs | ArrowFunction cs | Block cs =>
      existsb containsScopeNode cs
  | _ => false
  end.

(** A block none of whose statements contains a function or a block. *)
Definition flatBlock (node : Node) : bool :=
  match node with
  | Block statements => forallb (λ c, negb (containsScopeNode c)) statements
  | _ => false
  end.

(** A flat block, or a function whose last child is a flat block (its
    body) and whose other children (name, parameters) contain no function,
    block or variable declaration. *)
Definition flatScope (node : Node) : bool :=
  match node with
  | Block _ => flatBlock node
  | FunctionDeclaration cs | FunctionExpression cs | ArrowFunction cs =>
      match reverse cs with
      | body :: others =>
          flatBlock body
          && forallb (λ c, negb (containsScopeNode c) && negb (containsDeclaration c)) others
      | [] => false
      end
  | _ => false
  end.

(** [gameHooks.Foo.bar], [const x = gameHooks.Foo.bar;] and [x.baz;],
    all on the first line. *)
Definition gameHooksFooBar : Node :=
  PropertyAccessExpression 0
    (PropertyAccessExpression 0 (Identifier "gameHooks") "Foo") "bar".

Definition constX : Node :=
  VariableStatement [VariableDeclaration 0 (Identifier "x") (Some gameHooksFooBar)].

Definition xBaz : Node :=
  ExpressionStatement (PropertyAccessExpression 0 (Identifier "x") "baz").

(** [const x = gameHooks.Foo.bar; x.baz;] *)
Definition aliasExample : Node := SourceFile [constX; xBaz].

(** [function f(){ const x = gameHooks.Foo.bar; } x.baz;] *)
Definition scopedAliasExample : Node :=
  SourceFile [FunctionDeclaration [Identifier "f"; Block [constX]]; xBaz].

(** [function f(){ const x = gameHooks.Foo.bar; {} } x.baz;] *)
Definition leakingAliasExample : Node :=
  SourceFile [FunctionDeclaration [Identifier "f"; Block [constX; Block []]]; xBaz].

(** [const x = gameHooks.Foo.bar; function f(){} x.baz;] *)
Definition aliasBeforeFunctionExample : Node :=
  SourceFile [constX; FunctionDeclaration [Identifier "f"; Block []]; xBaz].

(** [const x = gameHooks.Foo.bar; {} x.baz;] *)
Definition aliasBeforeBlockExample : Node :=
  SourceFile [constX; Block []; xBaz].

(** The references of the examples. *)
Definition directFooBar (filePath : string) : GameHookDependency.t :=
  GameHookDependency.mk "Foo" ["bar"] "gameHooks.Foo.bar" filePath 1 true None.

Definition directFoo (filePath : string) : GameHookDependency.t :=
  GameHookDependency.mk "Foo" [] "gameHooks.Foo" filePath 1 true None.

Definition indirectFooBarBaz (filePath : string) : GameHookDependency.t :=
  GameHookDependency.mk "Foo" ["bar"; "baz"] "x.baz" filePath 1 false (Some "x").

(** The same statements at any lines (counted from 0, as the compiler
    counts them): [declarationLine] is the line of the declaration of [x],
    [barLine] and [fooLine] are the lines of the accesses
    [gameHooks.Foo.bar] and [gameHooks.Foo] of its initializer, [useLine]
    is the line of [x.baz]. *)
Definition fooBarAt (barLine fooLine : nat) : Node :=
  PropertyAccessExpression barLine
    (PropertyAccessExpression fooLine (Identifier "gameHooks") "Foo") "bar".

Definition constXAt (declarationLine barLine fooLine : nat) : Node :=
  VariableStatement
    [VariableDeclaration declarationLine (Identifier "x") (Some (fooBarAt barLine fooLine))].

Definition xBazAt (useLine : nat) : Node :=
  ExpressionStatement (PropertyAccessExpression useLine (Identifier "x") "baz").

(** The three references that the two statements give rise to. *)
Definition aliasReferences (filePath : string) (declarationLine fooLine useLine : nat)
  : list GameHookDependency.t :=
  [ GameHookDependency.mk "Foo" ["bar"] "gameHooks.Foo.bar" filePath
      (declarationLine + 1) true None;
    GameHookDependency.mk "Foo" [] "gameHooks.Foo" filePath (fooLine + 1) true None;
    GameHookDependency.mk "Foo" ["bar"; "baz"] "x.baz" filePath (useLine + 1) false
      (Some "x") ].

(** [ts.forEachChild(node, visit)]: the children of a node, in the order
    in which they are visited. *)
Definition childNodes (node : Node) : list Node :=
  match node with
  | Identifier _ | StringLiteral _ => []
  | PropertyAccessExpression _ e _ => [e]
  | CallExpression _ e args => e :: args
  | VariableDeclaration _ name None => [name]
  | VariableDeclaration _ name (Some init) => [name; init]
  | FunctionDeclaration cs | FunctionExpression cs | ArrowFunction cs
  | Block cs | SourceFile cs | Other cs => cs
  end.

(** The children of a node that holds a list of statements. *)
Definition statementsOf (node : Node) : list Node :=
  match node with
  | FunctionDeclaration cs | FunctionExpression cs | ArrowFunction cs
  | Block cs | SourceFile cs | Other cs => cs
  | _ => []
  end.

(** The statements [first] and [second] stand next to each other, in this
    order, somewhere in the tree. *)
Inductive standsIn (first second : Node) : Node → Prop :=
| standsHere node before after :
    statementsOf node = before ++ [first; second] ++ after →
    standsIn first second node
| standsBelow node child :
    child ∈ childNodes node →
    standsIn first second child →
    standsIn first second node.

(** The walk state [st'] holds the references of [st] and, after them,
    possibly more. *)
Definition appends (st st' : WalkState) : Prop :=
  ∃ added, dependencies st' = dependencies st ++ added.

(** [function f(){ x.baz; const x = gameHooks.Foo.bar; x.baz; } x.baz;] *)
Definition nestedAliasExample : Node :=
  SourceFile [FunctionDeclaration [Identifier "f"; Block [xBaz; constX; xBaz]]; xBaz].

(** [ts.forEachChild(node, visit)] inside [visit]. *)
Definition visitChildren (filePath : string) (node : Node) (st : WalkState) : WalkState :=
  match node with
  | Identifier _ | StringLiteral _ => st
  | PropertyAccessExpression _ e _ => visit filePath false e st
  | CallExpression _ e args =>
      fold_left (λ s a, visit filePath false a s) args (visit filePath false e st)
  | VariableDeclaration _ name None => visit filePath false name st
  | VariableDeclaration _ name (Some init) =>
      visit filePath true init (visit filePath false name st)
  | FunctionDeclaration cs | FunctionExpression cs | ArrowFunction cs
  | Block cs | SourceFile cs | Other cs =>
      fold_left (λ s c, visit filePath false c s) cs st
  end.

(** A walk state at top level with two aliases: [x], recorded at top
    level, and [y], recorded in a scope that was not cleaned up. *)
Definition globalAlias : VariableGameHookReference.t :=
  VariableGameHookReference.mk "x" "Foo" ["bar"] "gameHooks.Foo.bar" 1 "global".

Definition outerAlias : VariableGameHookReference.t :=
  VariableGameHookReference.mk "y" "Foo" ["bar"] "gameHooks.Foo.bar" 1 "scope_7".

Definition outerState : WalkState :=
  mkWalkState
    (ScopeTracker.mk "global" 7 (<["y" := outerAlias]> (<["x" := globalAlias]> ∅))) [].

(** [function f(){ const x = gameHooks.Foo.bar; }] *)
Definition functionWithAlias : Node :=
  FunctionDeclaration [Identifier "f"; Block [constX]].

(** The alias table and the current scope of a walk state. *)
Abbreviation aliasesOf st := (ScopeTracker.variableReferences (scopeTracker st)).
Abbreviation scopeOf st := (ScopeTracker.currentScope (scopeTracker st)).

(** What a step of the walk may do to the tracker when it opens or closes
    no scope: keep the current scope, and add aliases tagged with it. *)
Definition grows (st st' : WalkState) : Prop :=
  scopeOf st' = scopeOf st
  ∧ ∀ v r, aliasesOf st' !! v = Some r →
           aliasesOf st !! v = Some r ∨ VariableGameHookReference.scope r = scopeOf st.

(** The properties and the methods that a property chain contributes. *)
Definition chainProperties (chain : list string) : gset string :=
  list_to_set (List.filter (λ p, negb (includes p "()")) chain).

Definition chainMethods (chain : list string) : gset string :=
  list_to_set ((λ p, replaceWithEmpty p "()") <$> List.filter (λ p, includes p "()") chain).

(** A usage record after one more dependency. *)
Definition absorbDependency (relative : string → string) (dep : GameHookDependency.t)
    (u : GameHookUsage.t) : GameHookUsage.t :=
  GameHookUsage.mk
    (chainProperties (GameHookDependency.propertyChain dep) ∪ GameHookUsage.properties u)
    (chainMethods (GameHookDependency.propertyChain dep) ∪ GameHookUsage.methods u)
    ({[GameHookDependency.fullExpression dep]} ∪ GameHookUsage.fullExpressions u)
    ({[relative (GameHookDependency.file dep)]} ∪ GameHookUsage.files u)
    (GameHookDependency.isDirect dep || GameHookUsage.fromDirectAccess u)
    (GameHookUsage.fromHookRegistration u).

(** A registration record after the registrations of one more file. *)
Definition absorbRegistrations (relative : string → string) (classUsage u : GameHookUsage.t)
  : GameHookUsage.t :=
  GameHookUsage.mk (GameHookUsage.properties u)
    (GameHookUsage.methods classUsage ∪ GameHookUsage.methods u)
    (GameHookUsage.fullExpressions u)
    (set_map relative (GameHookUsage.files classUsage) ∪ GameHookUsage.files u)
    (GameHookUsage.fromDirectAccess u)
    (GameHookUsage.fromHookRegistration u).

(** The dependencies and the registrations of a list of files, as the
    file loop accumulates them. *)
Definition dependenciesOf (files : list (string * option Node)) : list GameHookDependency.t :=
  concat (map (λ file, analyzeFileForGameHooks file.1 file.2) files).

Definition registrationsOf (relative : string → string) (files : list (string * option Node))
  : gmap string GameHookUsage.t :=
  fold_left
    (λ all file, map_fold (fileRegistrationStep relative) all
                   (analyzeFileForHookRegistrations file.1 file.2))
    files ∅.

(** [core.registerClassHook("Foo", "m1"); core.registerClassHook("Foo", "m2");] *)
Definition registrationExample : Node :=
  SourceFile
    [ ExpressionStatement
        (CallExpression 0 (PropertyAccessExpression 0 (Identifier "core") "registerClassHook")
           [StringLiteral "Foo"; StringLiteral "m1"]);
      ExpressionStatement
        (CallExpression 1 (PropertyAccessExpression 1 (Identifier "core") "registerClassHook")
           [StringLiteral "Foo"; StringLiteral "m2"]) ].

Definition twoFiles : list (string * option Node) :=
  [("a.ts", Some aliasExample); ("b.ts", Some registrationExample)].

(** The usage aggregate of [twoFiles]. *)
Definition twoFilesUsage : gmap string GameHookUsage.t :=
  match collectUsage id twoFiles with
  | Resolved usage => usage
  | Rejected _ => ∅
  end.

(** [gameHooks.constructor.name;] *)
Definition inheritedNameExample : Node :=
  SourceFile
    [ExpressionStatement
       (PropertyAccessExpression 0
          (PropertyAccessExpression 0 (Identifier "gameHooks") "constructor") "name")].

(** Number of members recorded for a class. *)
Definition memberCount (c : ClientClass.t) : nat :=
  size (ClientClass.properties c) + size (ClientClass.methods c)
  + size (ClientClass.staticProperties c) + size (ClientClass.staticMethods c).

(** [class A { get foo() {} } class B {}] *)
Definition getterExample : ES.Node :=
  ES.Other
    [ ES.ClassDeclaration (Some (ES.Identifier "A")) None
        (ES.ClassBody
           [ES.MethodDefinition false (ES.Identifier "foo") ES.KindGet
              (ES.FunctionExpression [])]);
      ES.ClassDeclaration (Some (ES.Identifier "B")) None (ES.ClassBody []) ].

(** The class recovered from [getterExample]. *)
Definition classA : ClientClass.t :=
  ClientClass.mk "A" {["foo"]} {["foo"]} ∅ ∅ false false.

(** A usage that reads a property [foo] and calls a method [foo]. *)
Definition fooUsage : GameHookUsage.t :=
  GameHookUsage.mk {["foo"]} {["foo"]} ∅ ∅ true false.

(** The recoverer state inside the body of [class A]. *)
Definition insideClassA : RecoverState :=
  mkRecoverState [("A", emptyClass "A")] (Some "A").

(** A network on which every request is rejected, and a database that is
    never reached when [ignoreDB] is set. *)
Definition deadNetwork : Network := mkNetwork (λ _, Rejected "fetch failed") 0.

Definition closedDB : IndexDB :=
  mkIndexDB (Rejected "closed") (Rejected "closed") (Rejected "closed")
    (λ _, Rejected "closed") (λ _, Rejected "closed").

(** A network that serves the manifest (version 12) and rejects every
    other request. *)
Definition bundlelessNetwork : Network :=
  mkNetwork
    (λ url, if bool_decide (url = highspellAssetsURL)
            then Resolved (Response.mk
                             (Resolved (mkAssetJSON (Some (mkAssetData (Some 12%Z)))))
                             (Rejected "not text"))
            else Rejected "fetch failed")
    77.

(** A network that serves version 12 of a bundle of thirteen code units. *)
Definition liveNetwork : Network :=
  mkNetwork
    (λ url, if bool_decide (url = highspellAssetsURL)
            then Resolved (Response.mk
                             (Resolved (mkAssetJSON (Some (mkAssetData (Some 12%Z)))))
                             (Rejected "not text"))
            else Resolved (Response.mk (Rejected "not json")
                             (Resolved (codeUnits "0123456789abc"))))
    77.

(** The four entry patterns, most qualified first. *)
Definition entryPrefixes : list (list string) :=
  [ ["document"; "highlite"; "gameHooks"];
    ["highlite"; "gameHooks"];
    ["this"; "gameHooks"];
    ["gameHooks"] ].

(** An expression built from an identifier by property accesses and
    calls only, such as [a.b().c]. *)
Fixpoint isChainExpression (node : Node) : bool :=
  match node with
  | Identifier _ => true
  | PropertyAccessExpression _ e _ => isChainExpression e
  | CallExpression _ e _ => isChainExpression e
  | _ => false
  end.

(** [chain.join('.')] *)
Fixpoint joinDots (chain : list string) : string :=
  match chain with
  | [] => ""
  | [x] => x
  | x :: rest => x +:+ "." +:+ joinDots rest
  end.

(** An alias record as [declarationStep] stores it under the key [k]. *)
Definition wellFormedAlias (k : string) (r : VariableGameHookReference.t) : Prop :=
  VariableGameHookReference.variableName r = k
  ∧ k ≠ ""
  ∧ VariableGameHookReference.hookName r ≠ "".

(** A reference as the extractor reports it for the file [filePath]. *)
Definition wellFormedDependency (filePath : string) (d : GameHookDependency.t) : Prop :=
  GameHookDependency.hookName d ≠ ""
  ∧ GameHookDependency.file d = filePath
  ∧ (1 ≤ GameHookDependency.line d)%nat
  ∧ if GameHookDependency.isDirect d
    then GameHookDependency.sourceVariable d = None
    else ∃ v, GameHookDependency.sourceVariable d = Some v
              ∧ v ≠ ""
              ∧ GameHookDependency.propertyChain d ≠ [].

(** Number of function and block nodes in a subtree. *)
Fixpoint countScopeNodes (node : Node) : nat :=
  (if isScopeNode node then 1 else 0) +
  match node with
  | Identifier _ | StringLiteral _ => 0
  | PropertyAccessExpression _ e _ => countScopeNodes e
  | CallExpression _ e args => countScopeNodes e + foldr (λ c n, countScopeNodes c + n) 0 args
  | VariableDeclaration _ name None => countScopeNodes name
  | VariableDeclaration _ name (Some init) => countScopeNodes name + countScopeNodes init
  | FunctionDeclaration cs | FunctionExpression cs | ArrowFunction cs
  | Block cs | SourceFile cs | Other cs => foldr (λ c n, countScopeNodes c + n) 0 cs
  end.

(** The scope ids in use: "global", or the id of a scope entered so far. *)
Definition knownScope (counter : nat) (scope : string) : Prop :=
  scope = "global" ∨ ∃ k, (1 ≤ k ≤ counter)%nat ∧ scope = "scope_" +:+ pretty k.

(** Every alias and the current scope carry an id in use. *)
Definition scopesKnown (st : WalkState) : Prop :=
  knownScope (ScopeTracker.scopeCounter (scopeTracker st)) (scopeOf st)
  ∧ map_Forall
      (λ _ r, knownScope (ScopeTracker.scopeCounter (scopeTracker st))
                (VariableGameHookReference.scope r))
      (aliasesOf st).

(** The state kept by the walk of one file. *)
Definition extractorInvariant (filePath : string) (st : WalkState) : Prop :=
  map_Forall wellFormedAlias (aliasesOf st)
  ∧ Forall (wellFormedDependency filePath) (dependencies st).

(** An entry of the dictionary that [analyzeFileForHookRegistrations]
    returns for the file [filePath]. *)
Definition registrationEntry (filePath hookName : string) (u : GameHookUsage.t) : Prop :=
  inheritedKey hookName = false
  ∧ GameHookUsage.properties u = ∅
  ∧ GameHookUsage.fullExpressions u = ∅
  ∧ GameHookUsage.files u = {[filePath]}
  ∧ GameHookUsage.methods u ≠ ∅
  ∧ GameHookUsage.fromDirectAccess u = false
  ∧ GameHookUsage.fromHookRegistration u = true.

(** [mappings.find(m => m.hookName === hookName)] *)
Definition mappingFor (hookName : string) (mappings : list ClassMapping.t)
  : option ClassMapping.t :=
  List.find (λ m, bool_decide (ClassMapping.hookName m = hookName)) mappings.

(** [m'] is the mapping [m] with, possibly, more methods. *)
Definition sameMappingMoreMethods (m m' : ClassMapping.t) : Prop :=
  ClassMapping.clientClassName m' = ClassMapping.clientClassName m
  ∧ ClassMapping.hookName m' = ClassMapping.hookName m
  ∧ ClassMapping.file m' = ClassMapping.file m
  ∧ ClassMapping.methods m ⊆ ClassMapping.methods m'.

(** [mapping.methods.add(methodName)]: the mapping [m] with one more
    method. *)
Definition withMethod (methodName : string) (m : ClassMapping.t) : ClassMapping.t :=
  ClassMapping.mk (ClassMapping.clientClassName m) (ClassMapping.hookName m)
    ({[methodName]} ∪ ClassMapping.methods m) (ClassMapping.file m).

(** [core.registerClass("X", "Foo")] and [core.registerClassHook("Foo", "m1")]. *)
Definition registerClassCall (clientClassName hookName : string) : Node :=
  CallExpression 0 (PropertyAccessExpression 0 (Identifier "core") "registerClass")
    [StringLiteral clientClassName; StringLiteral hookName].

Definition registerClassHookCall (hookName methodName : string) : Node :=
  CallExpression 0 (PropertyAccessExpression 0 (Identifier "core") "registerClassHook")
    [StringLiteral hookName; StringLiteral methodName].

(** [core.registerClassHook("toString", "a"); core.registerClassHook("B", "b");]
    and the same two call-sites in the other order. *)
Definition inheritedFirstExample : Node :=
  SourceFile [ExpressionStatement (registerClassHookCall "toString" "a");
              ExpressionStatement (registerClassHookCall "B" "b")].

Definition inheritedLastExample : Node :=
  SourceFile [ExpressionStatement (registerClassHookCall "B" "b");
              ExpressionStatement (registerClassHookCall "toString" "a")].

(** A class record as the recoverer keeps it under the key [k]. *)
Definition wellFormedClass (k : string) (c : ClientClass.t) : Prop :=
  ClientClass.name c = k
  ∧ isShortName k = true
  ∧ (ClientClass.hasInstance c = true → "Instance" ∈ ClientClass.staticProperties c)
  ∧ (ClientClass.hasManager c = true → "Manager" ∈ ClientClass.staticProperties c).

(** The class map has one entry per name, each well formed. *)
Definition classMapInvariant (st : RecoverState) : Prop :=
  NoDup (classMap st).*1
  ∧ Forall (λ kc, wellFormedClass kc.1 kc.2) (classMap st).

(** [c'] records everything that [c] records. *)
Definition classIncluded (c c' : ClientClass.t) : Prop :=
  ClientClass.name c = ClientClass.name c'
  ∧ ClientClass.properties c ⊆ ClientClass.properties c'
  ∧ ClientClass.methods c ⊆ ClientClass.methods c'
  ∧ ClientClass.staticProperties c ⊆ ClientClass.staticProperties c'
  ∧ ClientClass.staticMethods c ⊆ ClientClass.staticMethods c'
  ∧ (ClientClass.hasInstance c = true → ClientClass.hasInstance c' = true)
  ∧ (ClientClass.hasManager c = true → ClientClass.hasManager c' = true).

(** Every class of [m] is still in [m'], with at least the same members. *)
Definition keepsClasses (m m' : list (string * ClientClass.t)) : Prop :=
  ∀ k c, classMapGet k m = Some c →
         ∃ c', classMapGet k m' = Some c' ∧ classIncluded c c'.

(** The other three curated lists of a hook name. *)
Definition curatedStaticProperties (known : list KnownClassInfo.t) (hookName : string)
  : list string :=
  match knownInfoFor known hookName with
  | Some k => default [] (KnownClassInfo.staticProperties k)
  | None => []
  end.

Definition curatedMethods (known : list KnownClassInfo.t) (hookName : string)
  : list string :=
  match knownInfoFor known hookName with
  | Some k => default [] (KnownClassInfo.methods k)
  | None => []
  end.

Definition curatedStaticMethods (known : list KnownClassInfo.t) (hookName : string)
  : list string :=
  match knownInfoFor known hookName with
  | Some k => default [] (KnownClassInfo.staticMethods k)
  | None => []
  end.

(** The (matched, missing) pairs of a score state. *)
Definition propertyLists (s : ScoreState) : list string * list string :=
  (matchedProperties s, missingProperties s).

Definition methodLists (s : ScoreState) : list string * list string :=
  (matchedMethods s, missingMethods s).

(** What a usage-derived loop body does to its pair of lists. *)
Definition requiredListsStep (P : string → Prop) `{!∀ x, Decision (P x)}
    (l : list string * list string) (x : string) : list string * list string :=
  if decide (P x) then (l.1 ++ [x], l.2) else (l.1, l.2 ++ [x]).

(** What a curated loop body does to its pair of lists. *)
Definition curatedListsStep (P : string → Prop) `{!∀ x, Decision (P x)}
    (required : list string) (l : list string * list string) (x : string)
  : list string * list string :=
  if decide (P x) then (pushUnlessIncluded l.1 x, l.2)
  else if decide (x ∈ required) then l
  else (l.1, l.2 ++ [x]).

(** [className] names a candidate that scores at least 2 against the usage
    of the hook, and no candidate scores more. *)
Definition bestCandidate (hookUsage : GameHookUsage.t) (clientClasses : list ClientClass.t)
    (hookName className : string) : Prop :=
  ∃ c, c ∈ clientClasses
       ∧ ClientClass.name c = className
       ∧ (2 ≤ ClassMatch.matchScore (calculateMatchScore hookUsage c hookName))%Z
       ∧ ∀ c', c' ∈ clientClasses →
               (ClassMatch.matchScore (calculateMatchScore hookUsage c' hookName)
                ≤ ClassMatch.matchScore (calculateMatchScore hookUsage c hookName))%Z.

(** A line that the matching phase may push for the hook [hookName]. *)
Definition suggestionFor (classMappings : list ClassMapping.t)
    (clientClasses : list ClientClass.t) (hookName : string) (hookUsage : GameHookUsage.t)
    (line : string) : Prop :=
  ∃ className,
    className ∈ (ClientClass.name <$> clientClasses)
    ∧ match mappingFor hookName classMappings with
      | None =>
          bestCandidate hookUsage clientClasses hookName className
          ∧ line = registerClassLine className hookName
      | Some em =>
          (ClassMapping.clientClassName em = className
           ∧ line = registerClassLine className hookName)
          ∨ ((ClassMapping.clientClassName em ∉ (ClientClass.name <$> clientClasses))
             ∧ bestCandidate hookUsage clientClasses hookName className
             ∧ line = updateLine className hookName (ClassMapping.clientClassName em))
      end.

(** [class Ab { m1() {} m2() {} }] *)
Definition twoMethodBundle : ES.Node :=
  ES.Other
    [ ES.ClassDeclaration (Some (ES.Identifier "Ab")) None
        (ES.ClassBody
           [ ES.MethodDefinition false (ES.Identifier "m1") ES.KindMethod
               (ES.FunctionExpression []);
             ES.MethodDefinition false (ES.Identifier "m2") ES.KindMethod
               (ES.FunctionExpression []) ]) ].

(** The references to a hook in a list of files, in file order, and the
    registration records that the files hold for it. *)
Definition referencesTo (files : list (string * option Node)) (hookName : string)
  : list GameHookDependency.t :=
  List.filter (λ dep, bool_decide (GameHookDependency.hookName dep = hookName))
    (dependenciesOf files).

Definition registrationsFor (files : list (string * option Node)) (hookName : string)
  : list GameHookUsage.t :=
  omap (λ file, analyzeFileForHookRegistrations file.1 file.2 !! hookName) files.

(** The shape of a bundle URL: the text of a version and, as the
    cache-busting suffix, the text of a time. *)
Definition bundleURL (versionText timeText : string) : string :=
  ("https://highspell.com/js/client/client." +:+ versionText +:+ ".js")
  +:+ "?time=" +:+ timeText.

(** The version that the database reports, as [obtainGameClient] reads it. *)
Definition storedVersion (db : IndexDB) (ignoreDB : bool) : option Z :=
  if ignoreDB then Some 0%Z
  else match init db, getClientLastVersion db with
       | Resolved _, Resolved v => Some (default 0%Z v)
       | _, _ => None
       end.

(** Nothing but the manifest was requested and the result is the stored
    client, the empty text when the database is ignored. *)
Definition keptStoredClient (db : IndexDB) (ignoreDB : bool)
    (log log' : list string) (client : JSString) : Prop :=
  log' = log ++ [highspellAssetsURL]
  ∧ if ignoreDB then client = [] else getHighSpellClient db = Resolved client.

(** An identifier or a property name [name] occurs in the subtree. *)
Fixpoint mentions (name : string) (node : Node) : bool :=
  match node with
  | Identifier text => bool_decide (text = name)
  | StringLiteral _ => false
  | PropertyAccessExpression _ e property => bool_decide (property = name) || mentions name e
  | CallExpression _ e args => mentions name e || existsb (mentions name) args
  | VariableDeclaration _ n None => mentions name n
  | VariableDeclaration _ n (Some init) => mentions name n || mentions name init
  | FunctionDeclaration cs | FunctionExpression cs | ArrowFunction cs
  | Block cs | SourceFile cs | Other cs => existsb (mentions name) cs
  end.

(** No alias is tracked and no reference is recorded. *)
Definition quiet (st : WalkState) : Prop :=
  aliasesOf st = ∅ ∧ dependencies st = [].

(** [foo.bar(baz)] *)
Definition fooBarCall : Node :=
  SourceFile
    [ExpressionStatement
       (CallExpression 0 (PropertyAccessExpression 0 (Identifier "foo") "bar")
          [Identifier "baz"])].

(** The nodes of a subtree in the order in which [ts.forEachChild] walks
    reach them. *)
Fixpoint preorder (node : Node) : list Node :=
  node ::
  match node with
  | Identifier _ | StringLiteral _ => []
  | PropertyAccessExpression _ e _ => preorder e
  | CallExpression _ e args => preorder e ++ flat_map preorder args
  | VariableDeclaration _ name None => preorder name
  | VariableDeclaration _ name (Some init) => preorder name ++ preorder init
  | FunctionDeclaration cs | FunctionExpression cs | ArrowFunction cs
  | Block cs | SourceFile cs | Other cs => flat_map preorder cs
  end.

(** The hook and the method that a call-site registers: a call
    [x.registerClassHook("Hook", "method", ...)] or
    [x.registerClassOverrideHook("Hook", "method", ...)]. *)
Definition registrationCall (node : Node) : option (string * string) :=
  match node with
  | CallExpression _ (PropertyAccessExpression _ _ name)
      (StringLiteral className :: StringLiteral methodName :: _) =>
      if bool_decide (name = "registerClassHook")
         || bool_decide (name = "registerClassOverrideHook")
      then Some (className, methodName)
      else None
  | _ => None
  end.

(** The call-sites that take effect: those before the first one that names
    an inherited member, on which the walk of the file stops. *)
Fixpoint effectiveCalls (calls : list (string * string)) : list (string * string) :=
  match calls with
  | [] => []
  | (className, methodName) :: rest =>
      if inheritedKey className then []
      else (className, methodName) :: effectiveCalls rest
  end.

(** The method [m] is recorded for the hook [h]. *)
Definition recorded (hookUsage : gmap string GameHookUsage.t) (h m : string) : Prop :=
  ∃ u, hookUsage !! h = Some u ∧ m ∈ GameHookUsage.methods u.

(** A direct reference of [deps] declares the hook and the chain [chain]. *)
Definition declaredIn (deps : list GameHookDependency.t) (hookName : string)
    (chain : list string) : Prop :=
  ∃ d, d ∈ deps
       ∧ GameHookDependency.isDirect d = true
       ∧ GameHookDependency.hookName d = hookName
       ∧ GameHookDependency.propertyChain d = chain.

(** Every alias and every indirect reference is backed by a direct
    reference. *)
Definition backedInvariant (st : WalkState) : Prop :=
  (∀ k r, aliasesOf st !! k = Some r →
          declaredIn (dependencies st) (VariableGameHookReference.hookName r)
            (VariableGameHookReference.propertyChain r))
  ∧ (∀ d, d ∈ dependencies st → GameHookDependency.isDirect d = false →
          ∃ chain segment,
            GameHookDependency.propertyChain d = chain ++ [segment]
            ∧ declaredIn (dependencies st) (GameHookDependency.hookName d) chain).

(* ===================================================================== *)
(** ** Listing the source files: [findTypeScriptFiles] *)
(* ===================================================================== *)

(** A [fs.Dirent] together with what [fs.readdirSync] returns for it when
    it is a directory: its entries, or the error thrown.  [OtherEntry] is an
    entry that is neither a file nor a directory (a symbolic link, a
    socket). *)
Inductive Dirent :=
| FileEntry (name : string)
| DirectoryEntry (name : string) (content : outcome (list Dirent))
| OtherEntry (name : string).

(** [s.startsWith(prefix)] and [s.endsWith(suffix)]. *)
Definition startsWith (s prefix : string) : bool := String.prefix prefix s.

Definition endsWith (s suffix : string) : bool :=
  Nat.leb (String.length suffix) (String.length s)
  && String.eqb
       (String.substring (String.length s - String.length suffix) (String.length suffix) s)
       suffix.

(** [!entry.name.startsWith('.') &&
     !['node_modules', 'out', 'dist', 'build'].includes(entry.name)] *)
Definition isSearchedDirectory (name : string) : bool :=
  negb (startsWith name ".")
  && negb (bool_decide (name ∈ ["node_modules"; "out"; "dist"; "build"])).

(** [entry.name.endsWith('.ts') && !entry.name.endsWith('.d.ts')] *)
Definition isSourceFile (name : string) : bool :=
  endsWith name ".ts" && negb (endsWith name ".d.ts").

(** [for (const entry of entries) { ... }] with a body that may throw. *)
Definition forEntries (body : Dirent → list string → outcome (list string))
  : list Dirent → list string → outcome (list string) :=
  fix loop entries files :=
    match entries with
    | [] => Resolved files
    | entry :: rest =>
        match body entry files with
        | Resolved files' => loop rest files'
        | Rejected message => Rejected message
        end
    end.

Section FindFiles.
(** [path.join] *)
Variable join : string → string → string.

(** The body of the loop of [traverseDir], threading the array [files]. *)
Fixpoint traverseEntry (currentDir : string) (entry : Dirent) (files : list string)
  : outcome (list string) :=
  match entry with
  | DirectoryEntry name content =>
      if isSearchedDirectory name then
        match content with
        | Resolved entries => forEntries (traverseEntry (join currentDir name)) entries files
        | Rejected message => Rejected message
        end
      else Resolved files
  | FileEntry name =>
      if isSourceFile name then Resolved (files ++ [join currentDir name])
      else Resolved files
  | OtherEntry _ => Resolved files
  end.

(** [traverseDir(currentDir)], given what [readdirSync(currentDir)] does. *)
Definition traverseDir (currentDir : string) (content : outcome (list Dirent))
    (files : list string) : outcome (list string) :=
  match content with
  | Resolved entries => forEntries (traverseEntry currentDir) entries files
  | Rejected message => Rejected message
  end.

(** [findTypeScriptFiles(dir)] *)
Definition findTypeScriptFiles (dir : string) (content : outcome (list Dirent))
  : outcome (list string) :=
  traverseDir dir content [].

(** The path [p] is that of a source file below [dir], reached through
    searched directories only. *)
Inductive listed : string → list Dirent → string → Prop :=
| listed_file dir entries name :
    FileEntry name ∈ entries → isSourceFile name = true →
    listed dir entries (join dir name)
| listed_below dir entries name content p :
    DirectoryEntry name (Resolved content) ∈ entries →
    isSearchedDirectory name = true →
    listed (join dir name) content p →
    listed dir entries p.
End FindFiles.

(** A project tree: [src/a.ts], [src/a.d.ts], [node_modules/x.ts], [README.md]. *)
Definition projectTree : list Dirent :=
  [ DirectoryEntry "src" (Resolved [FileEntry "a.ts"; FileEntry "a.d.ts"]);
    DirectoryEntry "node_modules" (Resolved [FileEntry "x.ts"]);
    FileEntry "README.md" ].

(** [path.join] on paths that need no normalisation. *)
Definition joinWithSlash (dir name : string) : string := dir +:+ "/" +:+ name.

(** The nodes of a parsed bundle in the order in which [walk] enters them. *)
Fixpoint bundleNodes (node : ES.Node) : list ES.Node :=
  node ::
  match node with
  | ES.Identifier _ | ES.ThisExpression => []
  | ES.FunctionExpression cs | ES.Other cs => flat_map bundleNodes cs
  | ES.ClassDeclaration ident superClass body =>
      match ident with Some n => bundleNodes n | None => [] end
      ++ match superClass with Some n => bundleNodes n | None => [] end
      ++ bundleNodes body
  | ES.VariableDeclarator ident init =>
      bundleNodes ident ++ match init with Some n => bundleNodes n | None => [] end
  | ES.FunctionDeclaration ident params body =>
      match ident with Some n => bundleNodes n | None => [] end
      ++ flat_map bundleNodes params ++ bundleNodes body
  | ES.MethodDefinition _ key _ value => bundleNodes key ++ bundleNodes value
  | ES.AssignmentExpression lhs rhs => bundleNodes lhs ++ bundleNodes rhs
  | ES.MemberExpression object property => bundleNodes object ++ bundleNodes property
  end.

(** [Name.prototype.method = value] and [Name.property = value]. *)
Definition prototypeAssignment (className methodName : string) (value : ES.Node) : ES.Node :=
  ES.AssignmentExpression
    (ES.MemberExpression
       (ES.MemberExpression (ES.Identifier className) (ES.Identifier "prototype"))
       (ES.Identifier methodName))
    value.

Definition staticAssignment (className propertyName : string) (value : ES.Node) : ES.Node :=
  ES.AssignmentExpression
    (ES.MemberExpression (ES.Identifier className) (ES.Identifier propertyName))
    value.

(** A fact about a class that stays true when the class gains members. *)
Definition stableFact (Q : ClientClass.t → Prop) : Prop :=
  ∀ c c', Q c → classIncluded c c' → Q c'.

(** The class [className] is known and satisfies [Q]. *)
Definition classSatisfies (className : string) (Q : ClientClass.t → Prop)
    (m : list (string * ClientClass.t)) : Prop :=
  ∃ c, classMapGet className m = Some c ∧ Q c.

(** [function f() { Ab.prototype.run = function () {}; Ab.Instance = x; }] *)
Definition assignmentBundle : ES.Node :=
  ES.Other
    [ ES.FunctionDeclaration (Some (ES.Identifier "f")) []
        (ES.Other
           [ prototypeAssignment "Ab" "run" (ES.FunctionExpression []);
             staticAssignment "Ab" "Instance" (ES.Identifier "x") ]) ].

(** The test of the [leave] handler: the node closes the open candidate. *)
Definition closesCandidate (node : ES.Node) : bool :=
  match node with
  | ES.ClassDeclaration _ _ _ | ES.FunctionDeclaration _ _ _
  | ES.VariableDeclarator _ (Some (ES.FunctionExpression _)) => true
  | _ => false
  end.

(** No node of the list closes the open candidate. *)
Definition noneCloses (nodes : list ES.Node) : bool :=
  forallb (λ n, negb (closesCandidate n)) nodes.

(* ===================================================================== *)
(** ** Theorems *)
(* ===================================================================== *)

(** *** Scores of the loops *)

Section ScoreLoops.
Context (step : ScoreState → string → ScoreState) (w : Z).
Context (P : string → Prop) `{!∀ x, Decision (P x)}.
Hypothesis step_score :
  ∀ s x, score (step s x) = (score s + if decide (P x) then w else 0)%Z.

Lemma fold_score l s :
  score (fold_left step l s) = (score s + w * countWhere P l)%Z.
Proof.
  unfold countWhere. revert s. induction l as [|x l IH]; intros s; simpl.
  - lia.
  - rewrite IH, step_score, filter_cons. destruct (decide (P x)); simpl length; lia.
Qed.

Lemma forOptional_score field s :
  score (forOptional step field s) = (score s + w * countWhere P (default [] field))%Z.
Proof.
  destruct field as [xs|]; simpl.
  - apply fold_score.
  - unfold countWhere. simpl. lia.
Qed.
End ScoreLoops.

Lemma requiredPropertyStep_score c s x :
  score (requiredPropertyStep c s x)
  = (score s + if decide (hasProperty c x) then 2 else 0)%Z.
Proof. unfold requiredPropertyStep. destruct (decide _); simpl; lia. Qed.

Lemma requiredMethodStep_score c s x :
  score (requiredMethodStep c s x)
  = (score s + if decide (hasMethod c x) then 1 else 0)%Z.
Proof. unfold requiredMethodStep. destruct (decide _); simpl; lia. Qed.

Lemma knownPropertyStep_score c req s x :
  score (knownPropertyStep c req s x)
  = (score s + if decide (hasProperty c x) then 3 else 0)%Z.
Proof.
  unfold knownPropertyStep. destruct (decide (hasProperty c x)); simpl; [lia|].
  destruct (decide _); simpl; lia.
Qed.

Lemma knownStaticPropertyStep_score c req s x :
  score (knownStaticPropertyStep c req s x)
  = (score s + if decide (x ∈ ClientClass.staticProperties c) then 3 else 0)%Z.
Proof.
  unfold knownStaticPropertyStep.
  destruct (decide (x ∈ ClientClass.staticProperties c)); simpl; [lia|].
  destruct (decide _); simpl; lia.
Qed.

Lemma knownMethodStep_score c req s x :
  score (knownMethodStep c req s x)
  = (score s + if decide (hasMethod c x) then 2 else 0)%Z.
Proof.
  unfold knownMethodStep. destruct (decide (hasMethod c x)); simpl; [lia|].
  destruct (decide _); simpl; lia.
Qed.

Lemma knownStaticMethodStep_score c req s x :
  score (knownStaticMethodStep c req s x)
  = (score s + if decide (x ∈ ClientClass.staticMethods c) then 2 else 0)%Z.
Proof.
  unfold knownStaticMethodStep.
  destruct (decide (x ∈ ClientClass.staticMethods c)); simpl; [lia|].
  destruct (decide _); simpl; lia.
Qed.

(** The score in closed form: the de-duplication of the matched lists has
    no effect on it. *)
Lemma matchScore_closed_form known u c h :
  ClassMatch.matchScore (calculateMatchScoreIn known u c h)
  = (usagePoints u c
     + 3 * countWhere (hasProperty c) (curatedProperties known h)
     + otherCuratedPoints known c h
     + instanceBonus (elements (GameHookUsage.properties u)) c
     + managerBonus (elements (GameHookUsage.properties u)) c)%Z.
Proof.
  unfold calculateMatchScoreIn, usagePoints, otherCuratedPoints, curatedProperties,
    knownInfoFor, knownInfoBlock.
  cbn [ClassMatch.matchScore].
  destruct (List.find _ known) as [k|].
  - rewrite (forOptional_score _ 2 _ (knownStaticMethodStep_score c _)).
    rewrite (forOptional_score _ 2 _ (knownMethodStep_score c _)).
    rewrite (forOptional_score _ 3 _ (knownStaticPropertyStep_score c _)).
    rewrite (forOptional_score _ 3 _ (knownPropertyStep_score c _)).
    rewrite (fold_score _ 1 _ (requiredMethodStep_score c)).
    rewrite (fold_score _ 2 _ (requiredPropertyStep_score c)).
    simpl score. lia.
  - rewrite (fold_score _ 1 _ (requiredMethodStep_score c)).
    rewrite (fold_score _ 2 _ (requiredPropertyStep_score c)).
    simpl score. change (countWhere (hasProperty c) []) with 0%Z. lia.
Qed.

(** *** The curated-property rule *)

(** C2 (as stated) fails: the usage requires "_friends", the candidate has
    it, and "_friends" is a curated property of "ChatManager".  The usage
    loop scores it +2; the rule as documented would add nothing more (total
    2); the code adds its +3 again (total 5). *)
Lemma C2_counterexample :
  "_friends" ∈ GameHookUsage.properties friendsUsage
  ∧ hasProperty friendsCandidate "_friends"
  ∧ "_friends" ∈ curatedProperties knownClassInfo "ChatManager"
  ∧ (usagePoints friendsUsage friendsCandidate
     + curatedPropertyPointsAsDocumented knownClassInfo friendsUsage friendsCandidate
         "ChatManager"
     + otherCuratedPoints knownClassInfo friendsCandidate "ChatManager"
     + instanceBonus (elements (GameHookUsage.properties friendsUsage)) friendsCandidate
     + managerBonus (elements (GameHookUsage.properties friendsUsage)) friendsCandidate
     = 2)%Z
  ∧ ClassMatch.matchScore (calculateMatchScore friendsUsage friendsCandidate "ChatManager")
    = 5%Z.
Proof.
  split; [simpl; set_solver|]. split; [left; simpl; set_solver|].
  split; [vm_compute; set_solver|]. split; vm_compute; reflexivity.
Qed.

(** C2 (amended): every property listed for the hook name in the curated
    table and present on the candidate, as instance or static property,
    adds exactly 3 to the score, whether or not the usage-derived loop has
    counted it already: the score is the usage points, plus 3 for each
    curated property present, plus the points of the other curated lists
    and the two bonuses.  (The guard on [matchedProperties] only keeps the
    name from being listed twice.) *)
Theorem C2_curated_property_adds_three known u c h :
  ClassMatch.matchScore (calculateMatchScoreIn known u c h)
  = (usagePoints u c
     + 3 * countWhere (hasProperty c) (curatedProperties known h)
     + otherCuratedPoints known c h
     + instanceBonus (elements (GameHookUsage.properties u)) c
     + managerBonus (elements (GameHookUsage.properties u)) c)%Z.
Proof. apply matchScore_closed_form. Qed.

(** *** Adding a required property to a candidate *)

Lemma countWhere_cons (P : string → Prop) `{!∀ x, Decision (P x)} x l :
  countWhere P (x :: l) = ((if decide (P x) then 1 else 0) + countWhere P l)%Z.
Proof.
  unfold countWhere. rewrite filter_cons. destruct (decide (P x)); simpl length; lia.
Qed.

Lemma countWhere_nonneg (P : string → Prop) `{!∀ x, Decision (P x)} l :
  (0 ≤ countWhere P l)%Z.
Proof. unfold countWhere. lia. Qed.

Lemma countWhere_le_length (P : string → Prop) `{!∀ x, Decision (P x)} l :
  (countWhere P l ≤ Z.of_nat (length l))%Z.
Proof. unfold countWhere. pose proof (length_filter P l). lia. Qed.

Lemma countWhere_ext (P Q : string → Prop)
    `{!∀ x, Decision (P x)} `{!∀ x, Decision (Q x)} l :
  (∀ x, P x ↔ Q x) → countWhere P l = countWhere Q l.
Proof.
  intros HPQ. induction l as [|x l IH]; [done|].
  rewrite !countWhere_cons, IH.
  destruct (decide (P x)) as [HP|HP], (decide (Q x)) as [HQ|HQ]; try done;
    exfalso; apply HPQ in HP || apply HPQ in HQ; done.
Qed.

Lemma hasProperty_addProperty p c x :
  hasProperty (addProperty p c) x ↔ x = p ∨ hasProperty c x.
Proof. unfold hasProperty, addProperty; simpl. set_solver. Qed.

Lemma countWhere_addProperty p c l :
  ¬ hasProperty c p →
  countWhere (hasProperty (addProperty p c)) l
  = (countWhere (hasProperty c) l + occurrences p l)%Z.
Proof.
  intros Hmiss. unfold occurrences. induction l as [|x l IH]; [done|].
  rewrite !countWhere_cons, IH.
  pose proof (hasProperty_addProperty p c x) as Hx.
  destruct (decide (hasProperty (addProperty p c) x)) as [H1|H1],
    (decide (hasProperty c x)) as [H2|H2], (decide (x = p)) as [H3|H3];
    try lia; exfalso; subst; tauto.
Qed.

Lemma occurrences_not_in p l : p ∉ l → occurrences p l = 0%Z.
Proof.
  unfold occurrences. induction l as [|y l IH]; intros Hp; [done|].
  rewrite countWhere_cons. apply not_elem_of_cons in Hp as [? ?].
  destruct (decide (y = p)); [congruence|]. by rewrite IH.
Qed.

Lemma occurrences_NoDup p l : NoDup l → p ∈ l → occurrences p l = 1%Z.
Proof.
  induction 1 as [|x l Hx Hl IH]; intros Hp.
  - by apply elem_of_nil in Hp.
  - unfold occurrences. rewrite countWhere_cons. fold (occurrences p l).
    destruct (decide (x = p)) as [->|Hne].
    + by rewrite occurrences_not_in.
    + apply elem_of_cons in Hp as [->|Hp]; [done|]. by rewrite IH.
Qed.

(** C3 (as stated) fails: "_friends" is required by the usage and missing
    on the empty candidate; adding it raises the "ChatManager" score from
    0 to 5, not to 2. *)
Lemma C3_counterexample :
  "_friends" ∈ GameHookUsage.properties friendsUsage
  ∧ ¬ hasProperty (emptyClass "Fr") "_friends"
  ∧ ClassMatch.matchScore (calculateMatchScore friendsUsage (emptyClass "Fr") "ChatManager")
    = 0%Z
  ∧ ClassMatch.matchScore
      (calculateMatchScore friendsUsage (addProperty "_friends" (emptyClass "Fr"))
         "ChatManager")
    = 5%Z.
Proof.
  split; [simpl; set_solver|].
  split; [unfold hasProperty; simpl; set_solver|].
  split; vm_compute; reflexivity.
Qed.

(** C3 (amended): for a usage-derived required property [p] that the
    candidate is missing, adding [p] to the candidate's instance property
    set, everything else unchanged, raises the score by 2 plus 3 for every
    listing of [p] among the curated properties of the hook name: by
    exactly 2 when [p] is not a curated property of that hook, by 5 when it
    is listed once. *)
Theorem C3_adding_required_property known u c h p :
  p ∈ GameHookUsage.properties u →
  ¬ hasProperty c p →
  ClassMatch.matchScore (calculateMatchScoreIn known u (addProperty p c) h)
  = (ClassMatch.matchScore (calculateMatchScoreIn known u c h)
     + 2 + 3 * occurrences p (curatedProperties known h))%Z
  ∧ (p ∉ curatedProperties known h →
     ClassMatch.matchScore (calculateMatchScoreIn known u (addProperty p c) h)
     = (ClassMatch.matchScore (calculateMatchScoreIn known u c h) + 2)%Z).
Proof.
  intros Hreq Hmiss.
  assert (ClassMatch.matchScore (calculateMatchScoreIn known u (addProperty p c) h)
          = (ClassMatch.matchScore (calculateMatchScoreIn known u c h)
             + 2 + 3 * occurrences p (curatedProperties known h))%Z) as Heq.
  { rewrite !matchScore_closed_form. unfold usagePoints.
    rewrite !(countWhere_addProperty p c) by done.
    rewrite (occurrences_NoDup p (elements (GameHookUsage.properties u)));
      [|apply NoDup_elements|by apply elem_of_elements].
    change (countWhere (hasMethod (addProperty p c))) with (countWhere (hasMethod c)).
    change (otherCuratedPoints known (addProperty p c) h)
      with (otherCuratedPoints known c h).
    change (instanceBonus ?l (addProperty p c)) with (instanceBonus l c).
    change (managerBonus ?l (addProperty p c)) with (managerBonus l c).
    lia. }
  split; [exact Heq|].
  intros Hnot. rewrite Heq.
  rewrite occurrences_not_in by done. lia.
Qed.

Lemma C3_adding_required_property_witness :
  ClassMatch.matchScore
    (calculateMatchScoreIn knownClassInfo friendsUsage
       (addProperty "_friends" (emptyClass "Fr")) "ChatManager")
  = (ClassMatch.matchScore
       (calculateMatchScoreIn knownClassInfo friendsUsage (emptyClass "Fr") "ChatManager")
     + 2 + 3 * occurrences "_friends" (curatedProperties knownClassInfo "ChatManager"))%Z
  ∧ ("_friends" ∉ curatedProperties knownClassInfo "ChatManager" →
     ClassMatch.matchScore
       (calculateMatchScoreIn knownClassInfo friendsUsage
          (addProperty "_friends" (emptyClass "Fr")) "ChatManager")
     = (ClassMatch.matchScore
          (calculateMatchScoreIn knownClassInfo friendsUsage (emptyClass "Fr") "ChatManager")
        + 2)%Z).
Proof.
  apply (C3_adding_required_property knownClassInfo friendsUsage (emptyClass "Fr")
           "ChatManager" "_friends").
  - simpl. set_solver.
  - unfold hasProperty. simpl. set_solver.
Defined.

(** *** Ranking *)

Lemma insertByScore_perm m l : insertByScore m l ≡ₚ m :: l.
Proof.
  induction l as [|m' l IH]; simpl; [done|].
  destruct (decide _); [done|]. rewrite IH. apply perm_swap.
Qed.

Lemma sortByScore_perm l : sortByScore l ≡ₚ l.
Proof.
  induction l as [|m l IH]; simpl; [done|].
  unfold sortByScore in *. simpl. rewrite insertByScore_perm. by constructor.
Qed.

Lemma insertByScore_sorted m l :
  StronglySorted rankedBefore l → StronglySorted rankedBefore (insertByScore m l).
Proof.
  induction 1 as [|m' l Hl IH Hall]; simpl.
  - repeat constructor.
  - destruct (decide _) as [Hle|Hgt].
    + constructor; [by constructor|].
      constructor; [unfold rankedBefore; lia|].
      eapply Forall_impl; [exact Hall|]. unfold rankedBefore. intros; lia.
    + constructor; [done|].
      rewrite insertByScore_perm. constructor; [unfold rankedBefore; lia|done].
Qed.

Lemma sortByScore_sorted l : StronglySorted rankedBefore (sortByScore l).
Proof.
  induction l as [|m l IH]; [constructor|].
  unfold sortByScore in *. simpl. by apply insertByScore_sorted.
Qed.

Lemma StronglySorted_lookup_lt (l : list ClassMatch.t) i j a b :
  StronglySorted rankedBefore l →
  l !! i = Some a → l !! j = Some b → (i < j)%nat → rankedBefore a b.
Proof.
  intros Hs. revert i j. induction Hs as [|x l Hl IH Hall]; intros i j Hi Hj Hlt.
  - by rewrite lookup_nil in Hi.
  - destruct i as [|i], j as [|j]; try lia; simpl in *.
    + simplify_eq. rewrite Forall_forall in Hall. apply Hall.
      by eapply list_elem_of_lookup_2.
    + eapply IH; eauto. lia.
Qed.

(** In a ranking a strictly higher score stands strictly earlier. *)
Lemma rankMatches_higher_first u classes h i j a b :
  rankMatches u classes h !! i = Some a →
  rankMatches u classes h !! j = Some b →
  (ClassMatch.matchScore b < ClassMatch.matchScore a)%Z →
  (i < j)%nat.
Proof.
  intros Hi Hj Hlt. destruct (decide (i < j)%nat) as [|Hge]; [done|exfalso].
  destruct (decide (i = j)) as [->|Hne].
  - rewrite Hi in Hj. simplify_eq. lia.
  - assert (rankedBefore b a) as Hba.
    { eapply (StronglySorted_lookup_lt _ j i); eauto; [|lia].
      apply sortByScore_sorted. }
    unfold rankedBefore in Hba. lia.
Qed.

(** Every candidate with a positive score is in the ranking. *)
Lemma rankMatches_complete u classes h c :
  c ∈ classes →
  (0 < ClassMatch.matchScore (calculateMatchScore u c h))%Z →
  calculateMatchScore u c h ∈ rankMatches u classes h.
Proof.
  intros Hc Hpos. unfold rankMatches. rewrite sortByScore_perm.
  apply list_elem_of_In, filter_In. split.
  - apply list_elem_of_In, list_elem_of_fmap. by exists c.
  - by apply bool_decide_eq_true.
Qed.

(** *** The "ChatManager" scenario *)

(** C1 (as stated) fails: the candidate "CM" of the scenario scores 14, not
    11 (the curated property rule adds 3 for "Instance" although the usage
    loop has counted it). *)
Lemma C1_counterexample :
  ClassMatch.matchScore (calculateMatchScore chatManagerUsage candidateCM "ChatManager")
  = 14%Z
  ∧ ClassMatch.matchScore (calculateMatchScore chatManagerUsage candidateCM "ChatManager")
    ≠ 11%Z.
Proof. split; vm_compute; [reflexivity|discriminate]. Qed.

Lemma chatManager_points u c :
  GameHookUsage.properties u = {["Instance"]} →
  GameHookUsage.methods u = {["sendMessage"]} →
  ClassMatch.matchScore (calculateMatchScore u c "ChatManager")
  = ((if decide (hasProperty c "Instance") then 2 else 0)
     + (if decide (hasMethod c "sendMessage") then 1 else 0)
     + (if decide (hasProperty c "Instance") then 3 else 0)
     + (if decide (hasProperty c "_friends") then 3 else 0)
     + (if decide ("Instance" ∈ ClientClass.staticProperties c) then 3 else 0)
     + (if ClientClass.hasInstance c then 5 else 0))%Z.
Proof.
  intros Hp Hm. unfold calculateMatchScore. rewrite matchScore_closed_form.
  unfold usagePoints. rewrite Hp, Hm, !elements_singleton.
  change (curatedProperties knownClassInfo "ChatManager") with ["Instance"; "_friends"].
  change (otherCuratedPoints knownClassInfo c "ChatManager")
    with (3 * countWhere (.∈ ClientClass.staticProperties c) ["Instance"]
          + 2 * countWhere (hasMethod c) []
          + 2 * countWhere (.∈ ClientClass.staticMethods c) [])%Z.
  rewrite !countWhere_cons.
  change (countWhere ?P []) with 0%Z.
  unfold instanceBonus, managerBonus.
  rewrite (decide_True (P := "Instance" ∈ ["Instance"])) by set_solver.
  rewrite (decide_False (P := "Manager" ∈ ["Instance"])) by set_solver.
  repeat destruct (decide _); destruct (ClientClass.hasInstance c); lia.
Qed.

(** C1 (amended): when the usage of "ChatManager" requires exactly the
    property "Instance" and the method "sendMessage", a candidate with the
    static property "Instance", [hasInstance], the instance method
    "sendMessage" and no "_friends" property scores exactly 14
    (2 + 1 from usage, 3 for the curated property "Instance", 3 for the
    curated static property "Instance", 5 bonus); it is in the ranking of
    every class list that contains it, above every candidate that has no
    "Instance" property. *)
Theorem C1_chat_manager_scenario u cm :
  GameHookUsage.properties u = {["Instance"]} →
  GameHookUsage.methods u = {["sendMessage"]} →
  "Instance" ∈ ClientClass.staticProperties cm →
  ClientClass.hasInstance cm = true →
  "sendMessage" ∈ ClientClass.methods cm →
  ¬ hasProperty cm "_friends" →
  ClassMatch.matchScore (calculateMatchScore u cm "ChatManager") = 14%Z
  ∧ ∀ clientClasses,
      (cm ∈ clientClasses →
       calculateMatchScore u cm "ChatManager" ∈ rankMatches u clientClasses "ChatManager")
      ∧ ∀ c i j,
          ¬ hasProperty c "Instance" →
          rankMatches u clientClasses "ChatManager" !! i
            = Some (calculateMatchScore u cm "ChatManager") →
          rankMatches u clientClasses "ChatManager" !! j
            = Some (calculateMatchScore u c "ChatManager") →
          (i < j)%nat.
Proof.
  intros Hp Hm Hst Hinst Hsend Hfr.
  assert (ClassMatch.matchScore (calculateMatchScore u cm "ChatManager") = 14%Z) as H14.
  { rewrite chatManager_points by done. rewrite Hinst.
    assert (hasProperty cm "Instance") by (by right).
    assert (hasMethod cm "sendMessage") by (by left).
    repeat destruct (decide _); try lia; tauto. }
  split; [exact H14|]. intros classes. split.
  - intros Hin. apply rankMatches_complete; [done|lia].
  - intros c i j Hlack Hi Hj.
    eapply rankMatches_higher_first; [exact Hi|exact Hj|].
    rewrite H14, chatManager_points by done.
    assert ("Instance" ∉ ClientClass.staticProperties c)
      by (intros ?; apply Hlack; by right).
    repeat destruct (decide _); destruct (ClientClass.hasInstance c); try lia; tauto.
Qed.

Lemma C1_chat_manager_scenario_witness :
  ClassMatch.matchScore (calculateMatchScore chatManagerUsage candidateCM "ChatManager")
  = 14%Z
  ∧ ∀ clientClasses,
      (candidateCM ∈ clientClasses →
       calculateMatchScore chatManagerUsage candidateCM "ChatManager"
       ∈ rankMatches chatManagerUsage clientClasses "ChatManager")
      ∧ ∀ c i j,
          ¬ hasProperty c "Instance" →
          rankMatches chatManagerUsage clientClasses "ChatManager" !! i
            = Some (calculateMatchScore chatManagerUsage candidateCM "ChatManager") →
          rankMatches chatManagerUsage clientClasses "ChatManager" !! j
            = Some (calculateMatchScore chatManagerUsage c "ChatManager") →
          (i < j)%nat.
Proof.
  apply (C1_chat_manager_scenario chatManagerUsage candidateCM).
  - reflexivity.
  - reflexivity.
  - simpl. set_solver.
  - reflexivity.
  - simpl. set_solver.
  - unfold hasProperty. simpl. set_solver.
Defined.

(** The ranking of the scenario's candidate with a candidate that only has
    the method and the curated "_friends" property. *)
Example ranking_example :
  ClassMatch.clientClassName <$>
    rankMatches chatManagerUsage
      [ClientClass.mk "Xy" {["_friends"]} {["sendMessage"]} ∅ ∅ false false;
       emptyClass "Zz"; candidateCM] "ChatManager"
  = ["CM"; "Xy"].
Proof. vm_compute. reflexivity. Qed.


(** *** Scope tracking *)

(** Induction on syntax trees, with the hypothesis for every child. *)
Lemma Node_nested_ind (P : Node → Prop) :
  (∀ t, P (Identifier t)) →
  (∀ t, P (StringLiteral t)) →
  (∀ l e n, P e → P (PropertyAccessExpression l e n)) →
  (∀ l e args, P e → Forall P args → P (CallExpression l e args)) →
  (∀ l n, P n → P (VariableDeclaration l n None)) →
  (∀ l n i, P n → P i → P (VariableDeclaration l n (Some i))) →
  (∀ cs, Forall P cs → P (FunctionDeclaration cs)) →
  (∀ cs, Forall P cs → P (FunctionExpression cs)) →
  (∀ cs, Forall P cs → P (ArrowFunction cs)) →
  (∀ cs, Forall P cs → P (Block cs)) →
  (∀ cs, Forall P cs → P (SourceFile cs)) →
  (∀ cs, Forall P cs → P (Other cs)) →
  ∀ n, P n.
Proof.
  intros HId HStr HPA HCall HVn HVs HFD HFE HAF HB HSF HO.
  fix IH 1. intros [t|t|l e n|l e args|l n [i|]|cs|cs|cs|cs|cs|cs].
  - apply HId.
  - apply HStr.
  - apply HPA, IH.
  - apply HCall; [apply IH|]. induction args; constructor; [apply IH|assumption].
  - apply HVs; apply IH.
  - apply HVn, IH.
  - apply HFD. induction cs; constructor; [apply IH|assumption].
  - apply HFE. induction cs; constructor; [apply IH|assumption].
  - apply HAF. induction cs; constructor; [apply IH|assumption].
  - apply HB. induction cs; constructor; [apply IH|assumption].
  - apply HSF. induction cs; constructor; [apply IH|assumption].
  - apply HO. induction cs; constructor; [apply IH|assumption].
Qed.

Lemma accessStep_tracker filePath isInit node st :
  scopeTracker (accessStep filePath isInit node st) = scopeTracker st.
Proof.
  assert (∀ n l v seg s, scopeTracker (pushIndirect filePath n l v seg s) = scopeTracker s)
    as Hpush.
  { intros. unfold pushIndirect. by destruct (getVariableReference _ _). }
  destruct node; simpl; repeat case_match; try done; apply Hpush.
Qed.

Lemma grows_refl st : grows st st.
Proof. split; [done|]. intros; by left. Qed.

Lemma grows_trans st1 st2 st3 : grows st1 st2 → grows st2 st3 → grows st1 st3.
Proof.
  intros [Hs1 Ha1] [Hs2 Ha2]. split; [congruence|].
  intros v r Hr. apply Ha2 in Hr as [Hr|Hr].
  - by apply Ha1.
  - right. congruence.
Qed.

Lemma grows_same_tracker st st' : scopeTracker st' = scopeTracker st → grows st st'.
Proof. intros Heq. unfold grows. rewrite Heq. split; [done|]. intros; by left. Qed.

Lemma declarationStep_grows filePath node st :
  grows st (declarationStep filePath node st).
Proof.
  destruct node as [| | | |l n [i|]| | | | | |]; simpl; try apply grows_refl;
    [|destruct n; apply grows_refl].
  destruct n; try apply grows_refl.
  repeat (case_match; try apply grows_refl).
  split; [done|]. simpl. intros v r Hr.
  apply lookup_insert_Some in Hr as [[_ <-]|[_ Hr]]; [by right|by left].
Qed.

Lemma declarationStep_tracker filePath node st :
  containsDeclaration node = false →
  scopeTracker (declarationStep filePath node st) = scopeTracker st.
Proof. destruct node; simpl; done. Qed.

Lemma fold_visit_grows filePath cs :
  Forall (λ c, ∀ isInit st, grows st (visit filePath isInit c st)) cs →
  ∀ st, grows st (fold_left (λ s c, visit filePath false c s) cs st).
Proof.
  induction 1 as [|c cs Hc _ IH]; intros st; simpl; [apply grows_refl|].
  eapply grows_trans; [apply Hc|apply IH].
Qed.

Lemma existsb_false_Forall {A} (f : A → bool) l :
  existsb f l = false → Forall (λ x, f x = false) l.
Proof.
  induction l as [|x l IH]; simpl; [constructor|].
  intros [? ?]%orb_false_iff. constructor; auto.
Qed.

Lemma visit_unfold filePath isInit node st :
  visit filePath isInit node st
  = let st1 := if isScopeNode node then enterScope st else st in
    let st4 := visitChildren filePath node
                 (accessStep filePath isInit node (declarationStep filePath node st1)) in
    if isScopeNode node then exitScope st4 else st4.
Proof. destruct node as [| | | |? ? [?|]| | | | | |]; reflexivity. Qed.

Lemma Forall_existsb_false {A} (P : A → Prop) (f : A → bool) l :
  Forall (λ c, f c = false → P c) l → existsb f l = false → Forall P l.
Proof.
  intros HP Hf. apply existsb_false_Forall in Hf.
  induction HP as [|c l Hc _ IH]; [constructor|].
  apply Forall_cons in Hf as [? ?]. constructor; auto.
Qed.

(** A subtree without function or block only adds aliases of the current
    scope. *)
Lemma fold_visit_invariant (I : WalkState → Prop) filePath cs :
  Forall (λ c, ∀ isInit st, I st → I (visit filePath isInit c st)) cs →
  ∀ st, I st → I (fold_left (λ s c, visit filePath false c s) cs st).
Proof.
  induction 1 as [|c cs Hc _ IH]; intros st Hst; simpl; [done|]. apply IH, Hc, Hst.
Qed.

(** A property of walk states that the four steps of [visit] keep is kept
    by the whole walk. *)
Lemma visit_invariant (I : WalkState → Prop) filePath :
  (∀ st, I st → I (enterScope st)) →
  (∀ st, I st → I (exitScope st)) →
  (∀ node st, I st → I (declarationStep filePath node st)) →
  (∀ node isInit st, I st → I (accessStep filePath isInit node st)) →
  ∀ node isInit st, I st → I (visit filePath isInit node st).
Proof.
  intros Henter Hexit Hdecl Haccess node.
  induction node as [t|t|l e n IHe|l e args IHe IHargs|l n IHn|l n i IHn IHi
                    |cs IH|cs IH|cs IH|cs IH|cs IH|cs IH] using Node_nested_ind;
    intros isInit st Hst; rewrite visit_unfold; cbn [isScopeNode]; cbv zeta;
    cbn [visitChildren].
  - by apply Haccess, Hdecl.
  - by apply Haccess, Hdecl.
  - by apply IHe, Haccess, Hdecl.
  - apply (fold_visit_invariant I _ _ IHargs). by apply IHe, Haccess, Hdecl.
  - by apply IHn, Haccess, Hdecl.
  - by apply IHi, IHn, Haccess, Hdecl.
  - apply Hexit, (fold_visit_invariant I _ _ IH), Haccess, Hdecl, Henter, Hst.
  - apply Hexit, (fold_visit_invariant I _ _ IH), Haccess, Hdecl, Henter, Hst.
  - apply Hexit, (fold_visit_invariant I _ _ IH), Haccess, Hdecl, Henter, Hst.
  - apply Hexit, (fold_visit_invariant I _ _ IH), Haccess, Hdecl, Henter, Hst.
  - by apply (fold_visit_invariant I _ _ IH), Haccess, Hdecl.
  - by apply (fold_visit_invariant I _ _ IH), Haccess, Hdecl.
Qed.

Lemma visit_grows filePath node :
  containsScopeNode node = false →
  ∀ isInit st, grows st (visit filePath isInit node st).
Proof.
  induction node as [t|t|l e n IHe|l e args IHe IHargs|l n IHn|l n i IHn IHi
                    |cs IH|cs IH|cs IH|cs IH|cs IH|cs IH] using Node_nested_ind;
    intros Hfree isInit st; try discriminate;
    rewrite visit_unfold; cbn [isScopeNode]; cbv zeta;
    (eapply grows_trans; [apply declarationStep_grows|]);
    (eapply grows_trans; [apply grows_same_tracker, accessStep_tracker|]);
    cbn [visitChildren]; simpl in Hfree.
  - apply grows_refl.
  - apply grows_refl.
  - by apply IHe.
  - apply orb_false_iff in Hfree as [He Hargs].
    eapply grows_trans; [by apply IHe|]. apply fold_visit_grows.
    eapply Forall_impl; [exact (Forall_existsb_false _ _ _ IHargs Hargs)|].
    intros c Hc. apply Hc.
  - by apply IHn.
  - apply orb_false_iff in Hfree as [Hn Hi].
    eapply grows_trans; [by apply IHn|]. by apply IHi.
  - apply fold_visit_grows.
    eapply Forall_impl; [exact (Forall_existsb_false _ _ _ IH Hfree)|].
    intros c Hc. apply Hc.
  - apply fold_visit_grows.
    eapply Forall_impl; [exact (Forall_existsb_false _ _ _ IH Hfree)|].
    intros c Hc. apply Hc.
Qed.

Lemma fold_visit_tracker filePath cs :
  Forall (λ c, ∀ isInit st, scopeTracker (visit filePath isInit c st) = scopeTracker st) cs →
  ∀ st, scopeTracker (fold_left (λ s c, visit filePath false c s) cs st) = scopeTracker st.
Proof.
  induction 1 as [|c cs Hc _ IH]; intros st; simpl; [done|]. by rewrite IH, Hc.
Qed.

Lemma Forall_existsb_false2 {A} (P : A → Prop) (f g : A → bool) l :
  Forall (λ c, f c = false → g c = false → P c) l →
  existsb f l = false → existsb g l = false → Forall P l.
Proof.
  intros HP Hf Hg. apply existsb_false_Forall in Hf, Hg.
  induction HP as [|c l Hc _ IH]; [constructor|].
  apply Forall_cons in Hf as [? ?]. apply Forall_cons in Hg as [? ?].
  constructor; auto.
Qed.

(** A subtree without function, block or variable declaration leaves the
    tracker as it is. *)
Lemma visit_inert filePath node :
  containsScopeNode node = false →
  containsDeclaration node = false →
  ∀ isInit st, scopeTracker (visit filePath isInit node st) = scopeTracker st.
Proof.
  induction node as [t|t|l e n IHe|l e args IHe IHargs|l n IHn|l n i IHn IHi
                    |cs IH|cs IH|cs IH|cs IH|cs IH|cs IH] using Node_nested_ind;
    intros Hfree Hdecl isInit st; try discriminate;
    rewrite visit_unfold; cbn [isScopeNode]; cbv zeta;
    cbn [visitChildren]; simpl in Hfree, Hdecl.
  - by rewrite accessStep_tracker.
  - by rewrite accessStep_tracker.
  - by rewrite IHe, accessStep_tracker, declarationStep_tracker.
  - apply orb_false_iff in Hfree as [He Hargs].
    apply orb_false_iff in Hdecl as [He' Hargs'].
    rewrite fold_visit_tracker.
    + rewrite IHe, accessStep_tracker, declarationStep_tracker; simpl; try done.
      by rewrite He', Hargs'.
    + eapply Forall_impl; [exact (Forall_existsb_false2 _ _ _ _ IHargs Hargs Hargs')|].
      intros c Hc. apply Hc.
  - rewrite fold_visit_tracker.
    + by rewrite accessStep_tracker, declarationStep_tracker.
    + eapply Forall_impl; [exact (Forall_existsb_false2 _ _ _ _ IH Hfree Hdecl)|].
      intros c Hc. apply Hc.
  - rewrite fold_visit_tracker.
    + by rewrite accessStep_tracker, declarationStep_tracker.
    + eapply Forall_impl; [exact (Forall_existsb_false2 _ _ _ _ IH Hfree Hdecl)|].
      intros c Hc. apply Hc.
Qed.

Lemma declarationStep_scope filePath node st :
  scopeOf (declarationStep filePath node st) = scopeOf st.
Proof. apply declarationStep_grows. Qed.

Lemma fold_visit_scope filePath cs :
  Forall (λ c, ∀ isInit st,
            scopeOf (visit filePath isInit c st)
            = if containsScopeNode c then "global" else scopeOf st) cs →
  ∀ st, scopeOf (fold_left (λ s c, visit filePath false c s) cs st)
        = if existsb containsScopeNode cs then "global" else scopeOf st.
Proof.
  induction 1 as [|c cs Hc _ IH]; intros st; simpl; [done|].
  rewrite IH, Hc. destruct (containsScopeNode c), (existsb containsScopeNode cs); done.
Qed.

(** After a subtree the current scope is "global" when the subtree holds a
    function or a block, and is unchanged otherwise. *)
Lemma visit_scope filePath node :
  ∀ isInit st,
    scopeOf (visit filePath isInit node st)
    = if containsScopeNode node then "global" else scopeOf st.
Proof.
  induction node as [t|t|l e n IHe|l e args IHe IHargs|l n IHn|l n i IHn IHi
                    |cs IH|cs IH|cs IH|cs IH|cs IH|cs IH] using Node_nested_ind;
    intros isInit st; rewrite visit_unfold; cbn [isScopeNode]; cbv zeta;
    cbn [visitChildren].
  - by rewrite accessStep_tracker, declarationStep_scope.
  - by rewrite accessStep_tracker, declarationStep_scope.
  - by rewrite IHe, accessStep_tracker, declarationStep_scope.
  - rewrite (fold_visit_scope _ _ IHargs), IHe, accessStep_tracker, declarationStep_scope.
    simpl. destruct (containsScopeNode e), (existsb containsScopeNode args); done.
  - by rewrite IHn, accessStep_tracker, declarationStep_scope.
  - rewrite IHi, IHn, accessStep_tracker, declarationStep_scope.
    simpl. destruct (containsScopeNode n), (containsScopeNode i); done.
  - reflexivity.
  - reflexivity.
  - reflexivity.
  - reflexivity.
  - by rewrite (fold_visit_scope _ _ IH), accessStep_tracker, declarationStep_scope.
  - by rewrite (fold_visit_scope _ _ IH), accessStep_tracker, declarationStep_scope.
Qed.

(** [exitScope] deletes exactly the aliases tagged with the current scope. *)
Lemma exitScope_lookup st v r :
  getVariableReference v (exitScope st) = Some r
  ↔ getVariableReference v st = Some r ∧ VariableGameHookReference.scope r ≠ scopeOf st.
Proof. unfold getVariableReference, exitScope. simpl. apply map_lookup_filter_Some. Qed.

Lemma forallb_Forall_true {A} (f : A → bool) l :
  forallb f l = true → Forall (λ x, f x = true) l.
Proof.
  induction l as [|x l IH]; simpl; [constructor|].
  intros [? ?]%andb_true_iff. constructor; auto.
Qed.

(** After a flat block only aliases that were there before are left. *)
Lemma visit_flatBlock filePath node isInit st v r :
  flatBlock node = true →
  getVariableReference v (visit filePath isInit node st) = Some r →
  getVariableReference v st = Some r.
Proof.
  destruct node as [| | | | | | | |statements| |]; try discriminate.
  intros Hflat. cbn [flatBlock] in Hflat.
  rewrite visit_unfold. cbn [isScopeNode]. cbv zeta.
  change (declarationStep filePath (Block statements) (enterScope st)) with (enterScope st).
  change (accessStep filePath isInit (Block statements) (enterScope st)) with (enterScope st).
  cbn [visitChildren]. intros [Hr Hscope]%exitScope_lookup.
  assert (grows (enterScope st)
            (fold_left (λ s c, visit filePath false c s) statements (enterScope st)))
    as [Hs Ha].
  { apply fold_visit_grows. apply forallb_Forall_true in Hflat.
    eapply Forall_impl; [exact Hflat|]. intros c Hc. simpl in Hc.
    apply visit_grows. by destruct (containsScopeNode c). }
  apply Ha in Hr as [Hr|Hr]; [exact Hr|]. rewrite Hs in Hscope. done.
Qed.

Lemma fold_visit_inert filePath others st :
  forallb (λ c, negb (containsScopeNode c) && negb (containsDeclaration c)) others = true →
  scopeTracker (fold_left (λ s c, visit filePath false c s) others st) = scopeTracker st.
Proof.
  intros Hall. apply fold_visit_tracker. apply forallb_Forall_true in Hall.
  eapply Forall_impl; [exact Hall|]. intros c Hc. simpl in Hc.
  apply andb_true_iff in Hc as [H1 H2].
  apply visit_inert; [by destruct (containsScopeNode c)|by destruct (containsDeclaration c)].
Qed.

(** After a function whose body is a flat block, likewise. *)
Lemma visit_flatFunction filePath cs st v r :
  match reverse cs with
  | body :: others =>
      flatBlock body
      && forallb (λ c, negb (containsScopeNode c) && negb (containsDeclaration c)) others
  | [] => false
  end = true →
  getVariableReference v
    (exitScope (fold_left (λ s c, visit filePath false c s) cs (enterScope st))) = Some r →
  getVariableReference v st = Some r.
Proof.
  destruct (reverse cs) as [|body others] eqn:Hrev; [discriminate|].
  intros [Hbody Hothers]%andb_true_iff.
  assert (cs = reverse others ++ [body]) as ->.
  { rewrite <- (reverse_involutive cs), Hrev. by rewrite reverse_cons. }
  rewrite fold_left_app. simpl. intros [Hr _]%exitScope_lookup.
  apply (visit_flatBlock _ _ _ _ _ _ Hbody) in Hr.
  unfold getVariableReference in *. rewrite fold_visit_inert in Hr; [done|].
  rewrite forallb_forall in Hothers |- *. intros c Hc. apply Hothers.
  apply list_elem_of_In. apply list_elem_of_In in Hc. by rewrite elem_of_reverse in Hc.
Qed.

(** *** The usage extractor on the alias examples *)

(** C4 (as stated) fails: for [const x = gameHooks.Foo.bar; x.baz;] the
    extractor reports two direct references, not one: the nested
    [gameHooks.Foo] of the initializer is reported as well. *)
Lemma C4_counterexample :
  directReferences (analyzeFileForGameHooks "a.ts" (Some aliasExample))
  = [directFooBar "a.ts"; directFoo "a.ts"].
Proof. vm_compute. reflexivity. Qed.

(** The walk only appends to the list of references. *)
Lemma appends_refl st : appends st st.
Proof. exists []. by rewrite app_nil_r. Qed.

Lemma appends_same st st' : dependencies st' = dependencies st → appends st st'.
Proof. intros H. exists []. by rewrite app_nil_r. Qed.

Lemma appends_trans st1 st2 st3 : appends st1 st2 → appends st2 st3 → appends st1 st3.
Proof. intros [a Ha] [b Hb]. exists (a ++ b). by rewrite Hb, Ha, app_assoc. Qed.

Lemma declarationStep_appends filePath node st :
  appends st (declarationStep filePath node st).
Proof.
  unfold declarationStep.
  repeat case_match; try apply appends_refl. by eexists.
Qed.

Lemma accessStep_appends filePath isInit node st :
  appends st (accessStep filePath isInit node st).
Proof.
  unfold accessStep, pushIndirect.
  repeat case_match; try apply appends_refl; by eexists.
Qed.

Lemma visit_appends filePath node isInit st : appends st (visit filePath isInit node st).
Proof.
  revert node isInit st.
  assert (∀ base node isInit st,
            appends base st → appends base (visit filePath isInit node st)) as H.
  { intros base. apply (visit_invariant (appends base)).
    - intros st Hst. exact Hst.
    - intros st Hst. exact Hst.
    - intros node st Hst. eapply appends_trans; [exact Hst|apply declarationStep_appends].
    - intros node isInit st Hst.
      eapply appends_trans; [exact Hst|apply accessStep_appends]. }
  intros node isInit st. apply H, appends_refl.
Qed.

Lemma fold_visit_appends filePath cs st :
  appends st (fold_left (λ s c, visit filePath false c s) cs st).
Proof.
  revert st. induction cs as [|c cs IH]; intros st; simpl; [apply appends_refl|].
  eapply appends_trans; [apply visit_appends|apply IH].
Qed.

Lemma steps_appends filePath isInit node st :
  appends st
    (accessStep filePath isInit node
       (declarationStep filePath node (if isScopeNode node then enterScope st else st))).
Proof.
  eapply appends_trans; [|apply accessStep_appends].
  eapply appends_trans; [|apply declarationStep_appends].
  destruct (isScopeNode node); by apply appends_same.
Qed.

Lemma exit_appends node st :
  appends st (if isScopeNode node then exitScope st else st).
Proof. destruct (isScopeNode node); by apply appends_same. Qed.

(** The walk of the two statements, from any walk state. *)
Lemma visit_constXAt filePath declarationLine barLine fooLine st :
  visit filePath false (constXAt declarationLine barLine fooLine) st
  = pushDependency
      (GameHookDependency.mk "Foo" [] "gameHooks.Foo" filePath (fooLine + 1) true None)
      (pushDependency
         (GameHookDependency.mk "Foo" ["bar"] "gameHooks.Foo.bar" filePath
            (declarationLine + 1) true None)
         (setVariableReference
            (VariableGameHookReference.mk "x" "Foo" ["bar"] "gameHooks.Foo.bar"
               (declarationLine + 1) (scopeOf st))
            st)).
Proof. destruct st as [[current counter references] found]. vm_compute. reflexivity. Qed.

Lemma visit_xBazAt filePath useLine st :
  visit filePath false (xBazAt useLine) st
  = pushIndirect filePath (PropertyAccessExpression useLine (Identifier "x") "baz")
      useLine "x" "baz" st.
Proof. destruct st as [[current counter references] found]. vm_compute. reflexivity. Qed.

Lemma alias_statements_at filePath declarationLine barLine fooLine useLine st :
  dependencies
    (visit filePath false (xBazAt useLine)
       (visit filePath false (constXAt declarationLine barLine fooLine) st))
  = dependencies st ++ aliasReferences filePath declarationLine fooLine useLine.
Proof.
  rewrite visit_xBazAt, visit_constXAt.
  unfold pushIndirect, getVariableReference, pushDependency, setVariableReference.
  simpl. rewrite lookup_insert_eq. simpl. by rewrite <- !app_assoc.
Qed.

(** The walk of a node passes through the walk of each of its children. *)
Lemma visit_through_child filePath node child :
  child ∈ childNodes node →
  ∀ isInit st,
    ∃ flag st1,
      appends st st1
      ∧ appends (visit filePath flag child st1) (visit filePath isInit node st).
Proof.
  intros Hchild isInit st. rewrite visit_unfold. cbv zeta.
  pose proof (steps_appends filePath isInit node st) as Hsteps.
  set (st3 := accessStep _ _ _ _) in *.
  assert (∀ cs, child ∈ cs →
            ∃ st1, appends st3 st1
                   ∧ appends (visit filePath false child st1)
                       (fold_left (λ s c, visit filePath false c s) cs st3)) as Hlist.
  { intros cs Hin. apply list_elem_of_split in Hin as (pre & post & ->).
    exists (fold_left (λ s c, visit filePath false c s) pre st3).
    split; [apply fold_visit_appends|].
    rewrite fold_left_app. simpl. apply fold_visit_appends. }
  assert (∀ final,
            (∃ flag st1, appends st3 st1 ∧ appends (visit filePath flag child st1) final) →
            ∃ flag st1,
              appends st st1
              ∧ appends (visit filePath flag child st1)
                  (if isScopeNode node then exitScope final else final)) as Hwrap.
  { intros final (flag & st1 & H1 & H2). exists flag, st1.
    split; [by eapply appends_trans|].
    eapply appends_trans; [exact H2|apply exit_appends]. }
  apply Hwrap. clear Hwrap.
  destruct node as [t|t|l e n|l e args|l n [i|]|cs|cs|cs|cs|cs|cs];
    cbn [childNodes visitChildren] in Hchild |- *.
  - by apply elem_of_nil in Hchild.
  - by apply elem_of_nil in Hchild.
  - apply list_elem_of_singleton in Hchild as ->.
    exists false, st3. split; apply appends_refl.
  - apply elem_of_cons in Hchild as [-> | Hin].
    + exists false, st3. split; [apply appends_refl|apply fold_visit_appends].
    + apply list_elem_of_split in Hin as (pre & post & ->).
      exists false, (fold_left (λ s c, visit filePath false c s) pre
                       (visit filePath false e st3)).
      split.
      * eapply appends_trans; [apply visit_appends|apply fold_visit_appends].
      * rewrite fold_left_app. simpl. apply fold_visit_appends.
  - apply elem_of_cons in Hchild as [-> | Hin].
    + exists false, st3. split; [apply appends_refl|apply visit_appends].
    + apply list_elem_of_singleton in Hin as ->.
      exists true, (visit filePath false n st3).
      split; [apply visit_appends|apply appends_refl].
  - apply list_elem_of_singleton in Hchild as ->.
    exists false, st3. split; apply appends_refl.
  - destruct (Hlist cs Hchild) as (st1 & ? & ?). by exists false, st1.
  - destruct (Hlist cs Hchild) as (st1 & ? & ?). by exists false, st1.
  - destruct (Hlist cs Hchild) as (st1 & ? & ?). by exists false, st1.
  - destruct (Hlist cs Hchild) as (st1 & ? & ?). by exists false, st1.
  - destruct (Hlist cs Hchild) as (st1 & ? & ?). by exists false, st1.
  - destruct (Hlist cs Hchild) as (st1 & ? & ?). by exists false, st1.
Qed.

(** The walk of a node with statements passes through the walk of any
    two consecutive statements. *)
Lemma visit_through_statements filePath node before first second after :
  statementsOf node = before ++ [first; second] ++ after →
  ∀ isInit st,
    ∃ st1,
      appends st st1
      ∧ appends (visit filePath false second (visit filePath false first st1))
          (visit filePath isInit node st).
Proof.
  intros Hstatements isInit st. rewrite visit_unfold. cbv zeta.
  pose proof (steps_appends filePath isInit node st) as Hsteps.
  set (st3 := accessStep _ _ _ _) in *.
  assert (visitChildren filePath node st3
          = fold_left (λ s c, visit filePath false c s) (statementsOf node) st3) as ->.
  { destruct node as [t|t|l e n|l e args|l n [i|]|cs|cs|cs|cs|cs|cs];
      try reflexivity; cbn [statementsOf] in Hstatements;
      by destruct before. }
  rewrite Hstatements, fold_left_app. cbn [fold_left app].
  exists (fold_left (λ s c, visit filePath false c s) before st3).
  split; [eapply appends_trans; [exact Hsteps|apply fold_visit_appends]|].
  eapply appends_trans; [apply fold_visit_appends|apply exit_appends].
Qed.

(** Wherever the two statements stand in a tree, the walk of the tree
    reports their three references, one after the other. *)
Lemma standsIn_report filePath declarationLine barLine fooLine useLine node :
  standsIn (constXAt declarationLine barLine fooLine) (xBazAt useLine) node →
  ∀ isInit st,
    ∃ earlier later,
      dependencies (visit filePath isInit node st)
      = dependencies st ++ earlier
        ++ aliasReferences filePath declarationLine fooLine useLine ++ later.
Proof.
  induction 1 as [node before after Hhere|node child Hchild _ IH]; intros isInit st.
  - destruct (visit_through_statements filePath node _ _ _ _ Hhere isInit st)
      as (st1 & [earlier H1] & [later H2]).
    exists earlier, later.
    by rewrite H2, alias_statements_at, H1, <- !app_assoc.
  - destruct (visit_through_child filePath node child Hchild isInit st)
      as (flag & st1 & [added1 H1] & [added2 H2]).
    destruct (IH flag st1) as (earlier & later & Hrefs).
    exists (added1 ++ earlier), (later ++ added2).
    by rewrite H2, Hrefs, H1, <- !app_assoc.
Qed.

(** C4 (amended): for a source file containing
    [const x = gameHooks.Foo.bar; x.baz;] the extractor reports, in this
    order, the direct reference of the declaration (hook "Foo", chain
    ["bar"]), a direct reference for the nested expression [gameHooks.Foo]
    of the initializer (hook "Foo", empty chain), and one indirect
    reference (hook "Foo", chain ["bar"; "baz"], sourceVariable "x"), each
    with the path of the file and the line (counted from 1) of its
    expression.  Walked from any walk state, the two statements append
    these three references; wherever the two statements stand in the
    syntax tree of a file, the report of the file holds the three
    references one after the other; between top-level statements [before]
    and [after] they come right after the references of [before]; and when
    the two statements are the whole file, the report is these three
    references. *)
Theorem C4_alias_extraction filePath declarationLine barLine fooLine useLine :
  (∀ st,
     dependencies
       (visit filePath false (xBazAt useLine)
          (visit filePath false (constXAt declarationLine barLine fooLine) st))
     = dependencies st ++ aliasReferences filePath declarationLine fooLine useLine)
  ∧ (∀ root,
       standsIn (constXAt declarationLine barLine fooLine) (xBazAt useLine) root →
       ∃ earlier later,
         analyzeFileForGameHooks filePath (Some root)
         = earlier ++ aliasReferences filePath declarationLine fooLine useLine ++ later)
  ∧ (∀ before after,
       ∃ later,
         analyzeFileForGameHooks filePath
           (Some (SourceFile
                    (before ++ [constXAt declarationLine barLine fooLine; xBazAt useLine]
                     ++ after)))
         = analyzeFileForGameHooks filePath (Some (SourceFile before))
           ++ aliasReferences filePath declarationLine fooLine useLine ++ later)
  ∧ analyzeFileForGameHooks filePath
      (Some (SourceFile [constXAt declarationLine barLine fooLine; xBazAt useLine]))
    = aliasReferences filePath declarationLine fooLine useLine
  ∧ analyzeFileForGameHooks filePath (Some aliasExample)
    = [directFooBar filePath; directFoo filePath; indirectFooBarBaz filePath].
Proof.
  split; [intros st; apply alias_statements_at|]. split; [|split; [|split]].
  - intros root Hroot. unfold analyzeFileForGameHooks.
    destruct (standsIn_report filePath _ _ _ _ root Hroot false initialWalkState)
      as (earlier & later & ->).
    by exists earlier, later.
  - intros before after. unfold analyzeFileForGameHooks.
    rewrite !visit_unfold. cbn [isScopeNode visitChildren]. cbv zeta.
    change (accessStep filePath false (SourceFile ?cs) ?s) with s.
    change (declarationStep filePath (SourceFile ?cs) ?s) with s.
    rewrite fold_left_app. cbn [fold_left app].
    set (st := fold_left _ before initialWalkState).
    destruct (fold_visit_appends filePath after
                (visit filePath false (xBazAt useLine)
                   (visit filePath false (constXAt declarationLine barLine fooLine) st)))
      as [later ->].
    exists later. by rewrite alias_statements_at, <- app_assoc.
  - exact (alias_statements_at filePath declarationLine barLine fooLine useLine
             initialWalkState).
  - vm_compute. reflexivity.
Qed.

Lemma C4_alias_extraction_witness :
  ∃ earlier later,
    analyzeFileForGameHooks "a.ts" (Some nestedAliasExample)
    = earlier ++ aliasReferences "a.ts" 0 0 0 ++ later.
Proof.
  apply (proj1 (proj2 (C4_alias_extraction "a.ts" 0 0 0 0)) nestedAliasExample).
  apply (standsBelow _ _ _ (FunctionDeclaration [Identifier "f"; Block [xBaz; constX; xBaz]]));
    [left|].
  apply (standsBelow _ _ _ (Block [xBaz; constX; xBaz])); [right; left|].
  apply (standsHere _ _ _ [xBaz] []). reflexivity.
Defined.

(** In [function f(){ x.baz; const x = gameHooks.Foo.bar; x.baz; } x.baz;]
    only the second [x.baz] is reported. *)
Example nested_alias_report :
  analyzeFileForGameHooks "a.ts" (Some nestedAliasExample) = aliasReferences "a.ts" 0 0 0.
Proof. vm_compute. reflexivity. Qed.

(** *** Aliases and scopes *)

(** C5: an alias declared inside a function can outlive the function.  In
    [function f(){ const x = gameHooks.Foo.bar; {} } x.baz;] the alias is
    declared inside the function, and the top-level [x.baz] is still
    reported as an indirect reference: the exit of the nested block resets
    the current scope to "global", so the exits of the function body and of
    the function find no alias of their scope to delete.  Without the
    nested block, [function f(){ const x = gameHooks.Foo.bar; } x.baz;], the
    alias is deleted and no indirect reference is reported. *)
Theorem C5_alias_leaks_past_nested_block :
  indirectReferences (analyzeFileForGameHooks "a.ts" (Some leakingAliasExample))
  = [indirectFooBarBaz "a.ts"]
  ∧ indirectReferences (analyzeFileForGameHooks "a.ts" (Some scopedAliasExample)) = [].
Proof. split; vm_compute; reflexivity. Qed.

(** C9 (as stated) fails: in [const x = gameHooks.Foo.bar; {} x.baz;] a
    block node is exited after the top-level alias was recorded, and the
    final [x.baz] is still reported as an indirect reference: a block that
    encloses no other function or block exits with its own scope current,
    not "global". *)
Lemma C9_counterexample :
  indirectReferences (analyzeFileForGameHooks "a.ts" (Some aliasBeforeBlockExample))
  = [indirectFooBarBaz "a.ts"].
Proof. vm_compute. reflexivity. Qed.

(** C9 (amended): [exitScope] always resets the current scope to "global",
    not to the enclosing scope.  So a function or block node that encloses
    at least one other function or block (every function with a body
    does) exits with "global" current: its exit deletes the aliases
    recorded with scope "global", and only those.  A function or block
    node that encloses no other function or block exits with its own scope
    id current: its exit deletes the aliases of its own scope, and only
    those.  The input [const x = gameHooks.Foo.bar; function f(){} x.baz;]
    produces no indirect reference. *)
Theorem C9_exit_resets_to_global filePath :
  (∀ st, scopeOf (exitScope st) = "global")
  ∧ (∀ node isInit st v r,
       hasNestedScope node = true →
       getVariableReference v (visit filePath isInit node st) = Some r →
       VariableGameHookReference.scope r ≠ "global")
  ∧ (∀ node isInit st v r,
       hasNestedScope node = true →
       getVariableReference v (visit filePath isInit node st) = Some r
       ↔ getVariableReference v (visitChildren filePath node (enterScope st)) = Some r
         ∧ VariableGameHookReference.scope r ≠ "global")
  ∧ (∀ node isInit st v r,
       isScopeNode node = true →
       hasNestedScope node = false →
       getVariableReference v (visit filePath isInit node st) = Some r
       ↔ getVariableReference v (visitChildren filePath node (enterScope st)) = Some r
         ∧ VariableGameHookReference.scope r ≠ scopeOf (enterScope st))
  ∧ indirectReferences (analyzeFileForGameHooks filePath (Some aliasBeforeFunctionExample))
    = [].
Proof.
  assert (∀ node isInit st v r,
            isScopeNode node = true →
            getVariableReference v (visit filePath isInit node st) = Some r
            ↔ getVariableReference v (visitChildren filePath node (enterScope st)) = Some r
              ∧ VariableGameHookReference.scope r
                ≠ (if hasNestedScope node then "global" else scopeOf (enterScope st)))
    as Hexit.
  { intros node isInit st v r Hnode.
    assert (∀ cs,
              scopeOf (fold_left (λ s c, visit filePath false c s) cs (enterScope st))
              = if existsb containsScopeNode cs then "global" else scopeOf (enterScope st))
      as Hscope.
    { intros cs. apply fold_visit_scope, Forall_forall. intros c _. apply visit_scope. }
    destruct node as [| | | | |cs|cs|cs|cs| |]; try discriminate;
      rewrite visit_unfold; cbn [isScopeNode visitChildren hasNestedScope]; cbv zeta;
      rewrite exitScope_lookup, Hscope; reflexivity. }
  assert (∀ node, hasNestedScope node = true → isScopeNode node = true) as Hnode
    by (intros [| | | | | | | | | |]; done).
  split; [done|]. split; [|split; [|split; [|vm_compute; reflexivity]]].
  - intros node isInit st v r Hnested Hr.
    apply Hexit in Hr; [|by apply Hnode]. rewrite Hnested in Hr. apply Hr.
  - intros node isInit st v r Hnested.
    rewrite Hexit by (by apply Hnode). by rewrite Hnested.
  - intros node isInit st v r Hscope Hflat.
    rewrite Hexit by done. by rewrite Hflat.
Qed.

Lemma C9_exit_resets_to_global_witness :
  VariableGameHookReference.scope outerAlias ≠ "global"
  ∧ getVariableReference "x" (visit "a.ts" false (Block []) outerState) = Some globalAlias
  ∧ getVariableReference "x" (visit "a.ts" false (Block [constX]) outerState) = None.
Proof.
  pose proof (C9_exit_resets_to_global "a.ts") as (_ & Hnested & _ & Hflat & _).
  split; [|split].
  - apply (Hnested functionWithAlias false outerState "y" outerAlias);
      vm_compute; reflexivity.
  - apply (Hflat (Block []) false outerState "x" globalAlias);
      [reflexivity|reflexivity|].
    split; [vm_compute; reflexivity|]. vm_compute. discriminate.
  - destruct (getVariableReference "x" (visit "a.ts" false (Block [constX]) outerState))
      as [r|] eqn:Hr; [|reflexivity].
    apply (Hflat (Block [constX]) false outerState "x" r) in Hr as [Hr Hscope];
      [|reflexivity|reflexivity].
    vm_compute in Hr. injection Hr as <-. exfalso. apply Hscope. vm_compute. reflexivity.
Defined.

(** The top-level alias of [outerState] does not survive a function. *)
Example global_alias_deleted :
  getVariableReference "x" (visit "a.ts" false functionWithAlias outerState) = None.
Proof. vm_compute. reflexivity. Qed.


(** *** Order independence of the aggregation *)

Lemma fold_left_permutation {A B} (f : A → B → A) (l l' : list B) :
  (∀ a x y, f (f a x) y = f (f a y) x) →
  l ≡ₚ l' → ∀ a, fold_left f l a = fold_left f l' a.
Proof.
  intros Hcomm. induction 1 as [|x l l' _ IH|x y l|l1 l2 l3 _ IH1 _ IH2]; intros a; simpl.
  - done.
  - apply IH.
  - by rewrite Hcomm.
  - by rewrite IH1, IH2.
Qed.

Lemma usage_eq (u u' : GameHookUsage.t) :
  GameHookUsage.properties u = GameHookUsage.properties u' →
  GameHookUsage.methods u = GameHookUsage.methods u' →
  GameHookUsage.fullExpressions u = GameHookUsage.fullExpressions u' →
  GameHookUsage.files u = GameHookUsage.files u' →
  GameHookUsage.fromDirectAccess u = GameHookUsage.fromDirectAccess u' →
  GameHookUsage.fromHookRegistration u = GameHookUsage.fromHookRegistration u' →
  u = u'.
Proof. destruct u, u'; simpl; intros; by subst. Qed.

Lemma chainLoop_absorbs chain i rest u :
  chainLoop chain i rest u
  = GameHookUsage.mk (chainProperties rest ∪ GameHookUsage.properties u)
      (chainMethods rest ∪ GameHookUsage.methods u)
      (GameHookUsage.fullExpressions u) (GameHookUsage.files u)
      (GameHookUsage.fromDirectAccess u) (GameHookUsage.fromHookRegistration u).
Proof.
  revert i u. induction rest as [|prop rest IH]; intros i u.
  - simpl. apply usage_eq; simpl; try done; unfold chainProperties, chainMethods; simpl;
      set_solver.
  - cbn [chainLoop].
    assert ((if bool_decide (i = 0) then addChainItem prop u
             else if bool_decide (i = 1) && bool_decide (chain !! 0 = Some "Instance")
                  then addChainItem prop u else addChainItem prop u)
            = addChainItem prop u) as ->.
    { by repeat case_match. }
    rewrite IH. unfold addChainItem, chainProperties, chainMethods. simpl.
    destruct (includes prop "()"); simpl; apply usage_eq; simpl; try done; set_solver.
Qed.

Lemma mergeDependency_absorbs relative usage dep :
  mergeDependency relative usage dep
  = <[GameHookDependency.hookName dep :=
        absorbDependency relative dep
          (default (GameHookUsage.mk ∅ ∅ ∅ ∅ (GameHookDependency.isDirect dep) false)
             (usage !! GameHookDependency.hookName dep))]> usage.
Proof.
  unfold mergeDependency. rewrite chainLoop_absorbs. reflexivity.
Qed.

Lemma absorbDependency_comm relative d1 d2 u :
  absorbDependency relative d2 (absorbDependency relative d1 u)
  = absorbDependency relative d1 (absorbDependency relative d2 u).
Proof.
  apply usage_eq; simpl; try done; try set_solver.
  by destruct (GameHookDependency.isDirect d1), (GameHookDependency.isDirect d2).
Qed.

Lemma absorbDependency_fresh_comm relative d1 d2 :
  absorbDependency relative d2
    (absorbDependency relative d1
       (GameHookUsage.mk ∅ ∅ ∅ ∅ (GameHookDependency.isDirect d1) false))
  = absorbDependency relative d1
      (absorbDependency relative d2
         (GameHookUsage.mk ∅ ∅ ∅ ∅ (GameHookDependency.isDirect d2) false)).
Proof.
  apply usage_eq; simpl; try done; try set_solver.
  by destruct (GameHookDependency.isDirect d1), (GameHookDependency.isDirect d2).
Qed.

(** Two dependencies may be merged in either order. *)
Lemma mergeDependency_comm relative usage d1 d2 :
  mergeDependency relative (mergeDependency relative usage d1) d2
  = mergeDependency relative (mergeDependency relative usage d2) d1.
Proof.
  rewrite !mergeDependency_absorbs.
  destruct (decide (GameHookDependency.hookName d1 = GameHookDependency.hookName d2))
    as [Heq|Hne].
  - rewrite Heq, !lookup_insert_eq, !insert_insert_eq. f_equal. simpl.
    destruct (usage !! GameHookDependency.hookName d2) as [u|]; simpl.
    + apply absorbDependency_comm.
    + apply absorbDependency_fresh_comm.
  - rewrite !lookup_insert_ne by done. by apply insert_insert_ne.
Qed.

Lemma fileRegistrations_lookup relative (all hookRegs : gmap string GameHookUsage.t) h :
  map_fold (fileRegistrationStep relative) all hookRegs !! h
  = match hookRegs !! h with
    | Some classUsage =>
        Some (absorbRegistrations relative classUsage
                (default newRegistrationUsage (all !! h)))
    | None => all !! h
    end.
Proof.
  revert h.
  apply (map_fold_weak_ind
           (λ r m, ∀ h, r !! h
                        = match m !! h with
                          | Some classUsage =>
                              Some (absorbRegistrations relative classUsage
                                      (default newRegistrationUsage (all !! h)))
                          | None => all !! h
                          end)).
  - intros h. by rewrite lookup_empty.
  - intros i x m r Hi IH h. unfold fileRegistrationStep.
    destruct (decide (i = h)) as [->|Hne].
    + rewrite !lookup_insert_eq. rewrite IH, Hi. reflexivity.
    + rewrite !lookup_insert_ne by done. apply IH.
Qed.

Lemma absorbRegistrations_comm relative c1 c2 u :
  absorbRegistrations relative c2 (absorbRegistrations relative c1 u)
  = absorbRegistrations relative c1 (absorbRegistrations relative c2 u).
Proof. apply usage_eq; simpl; try done; set_solver. Qed.

(** The registrations of two files may be merged in either order. *)
Lemma fileRegistrations_comm relative (all m1 m2 : gmap string GameHookUsage.t) :
  map_fold (fileRegistrationStep relative)
    (map_fold (fileRegistrationStep relative) all m1) m2
  = map_fold (fileRegistrationStep relative)
      (map_fold (fileRegistrationStep relative) all m2) m1.
Proof.
  apply map_eq. intros h. rewrite !fileRegistrations_lookup.
  destruct (m1 !! h) as [c1|], (m2 !! h) as [c2|]; simpl; try done.
  f_equal. apply absorbRegistrations_comm.
Qed.

Lemma fold_fileStep relative files deps regs :
  fold_left (fileStep relative) files (deps, regs)
  = (deps ++ dependenciesOf files,
     fold_left
       (λ all file, map_fold (fileRegistrationStep relative) all
                      (analyzeFileForHookRegistrations file.1 file.2))
       files regs).
Proof.
  revert deps regs. induction files as [|file files IH]; intros deps regs; simpl.
  - by rewrite app_nil_r.
  - unfold fileStep at 2. simpl. rewrite IH. unfold dependenciesOf. simpl.
    by rewrite app_assoc.
Qed.

(** The dependency loop throws exactly when some hook name is an
    inherited name; otherwise it merges every dependency. *)
Lemma forDependencies_spec relative deps usage :
  forDependencies relative deps usage
  = if existsb (λ dep, inheritedKey (GameHookDependency.hookName dep)) deps
    then Rejected typeErrorAdd
    else Resolved (fold_left (mergeDependency relative) deps usage).
Proof.
  revert usage. induction deps as [|dep deps IH]; intros usage; simpl; [done|].
  unfold dependencyStep.
  destruct (inheritedKey (GameHookDependency.hookName dep)); simpl; [done|apply IH].
Qed.

Lemma collectUsage_unfold relative files :
  collectUsage relative files
  = match forDependencies relative (dependenciesOf files) ∅ with
    | Resolved usage =>
        Resolved (map_fold mergeRegistrationStep usage (registrationsOf relative files))
    | Rejected message => Rejected message
    end.
Proof. unfold collectUsage. rewrite fold_fileStep. reflexivity. Qed.

Lemma existsb_permutation {A} (f : A → bool) l l' :
  l ≡ₚ l' → existsb f l = existsb f l'.
Proof.
  induction 1 as [|x l l' _ IH|x y l|l1 l2 l3 _ IH1 _ IH2]; simpl.
  - done.
  - by rewrite IH.
  - by destruct (f x), (f y).
  - by rewrite IH1.
Qed.

Lemma dependenciesOf_permutation files files' :
  files ≡ₚ files' → dependenciesOf files ≡ₚ dependenciesOf files'.
Proof.
  unfold dependenciesOf.
  induction 1 as [|x l l' _ IH|x y l|l1 l2 l3 _ IH1 _ IH2]; simpl.
  - done.
  - by rewrite IH.
  - rewrite !app_assoc. f_equiv. apply Permutation_app_comm.
  - by rewrite IH1.
Qed.

Lemma addRegistration_comm f1 c1 m1 f2 c2 m2 (hookUsage : gmap string GameHookUsage.t) :
  addRegistration f1 c1 m1 (addRegistration f2 c2 m2 hookUsage)
  = addRegistration f2 c2 m2 (addRegistration f1 c1 m1 hookUsage).
Proof.
  unfold addRegistration. destruct (decide (c1 = c2)) as [->|Hne].
  - rewrite !lookup_insert_eq, !insert_insert_eq. f_equal. simpl.
    apply usage_eq; simpl; try done; set_solver.
  - rewrite !lookup_insert_ne by done. by apply insert_insert_ne.
Qed.

Lemma addRegistration_idemp f c m (hookUsage : gmap string GameHookUsage.t) :
  addRegistration f c m (addRegistration f c m hookUsage)
  = addRegistration f c m hookUsage.
Proof.
  unfold addRegistration. rewrite !lookup_insert_eq, !insert_insert_eq. f_equal. simpl.
  apply usage_eq; simpl; try done; set_solver.
Qed.

(** Two call-sites whose hook names are both ordinary or both inherited
    names (so two call-sites for the same hook name) may be recorded in
    either order, and recording one twice is recording it once. *)
Lemma recordRegistration_comm f1 c1 m1 f2 c2 m2 w :
  inheritedKey c1 = inheritedKey c2 →
  recordRegistration f1 c1 m1 (recordRegistration f2 c2 m2 w)
  = recordRegistration f2 c2 m2 (recordRegistration f1 c1 m1 w).
Proof.
  intros Hkeys. unfold recordRegistration.
  destruct (thrown w) eqn:Ht; simpl; rewrite ?Ht; [done|].
  rewrite Hkeys. destruct (inheritedKey c2); simpl; [done|].
  by rewrite addRegistration_comm.
Qed.

Lemma recordRegistration_idemp f c m w :
  recordRegistration f c m (recordRegistration f c m w) = recordRegistration f c m w.
Proof.
  unfold recordRegistration.
  destruct (thrown w) eqn:Ht; simpl; rewrite ?Ht; [done|].
  destruct (inheritedKey c); simpl; [done|]. by rewrite addRegistration_idemp.
Qed.

(** C6: the order of the registration call-sites of a file can change
    the aggregate.  A call-site whose hook name is a member inherited from
    [Object.prototype] makes the walk of its file throw, and the call-sites
    that come after it in the file are never recorded:
    [core.registerClassHook("toString", "a"); core.registerClassHook("B", "b");]
    registers nothing, the same two call-sites in the other order register
    the method "b" of "B", and the aggregates of the two runs differ. *)
Theorem C6_call_site_order_matters :
  analyzeFileForHookRegistrations "b.ts" (Some inheritedFirstExample) = ∅
  ∧ analyzeFileForHookRegistrations "b.ts" (Some inheritedLastExample)
    = {["B" := GameHookUsage.mk ∅ {["b"]} ∅ {["b.ts"]} false true]}
  ∧ collectUsage id [("b.ts", Some inheritedFirstExample)] = Resolved ∅
  ∧ collectUsage id [("b.ts", Some inheritedLastExample)]
    = Resolved {["B" := GameHookUsage.mk ∅ {["b"]} ∅ {["b.ts"]} false true]}.
Proof. repeat split; vm_compute; reflexivity. Qed.

(** The aggregate of "Foo" over the two example files. *)
Example collectUsage_example :
  collectUsage id twoFiles = Resolved twoFilesUsage
  ∧ twoFilesUsage !! "Foo"
    = Some (GameHookUsage.mk {["bar"; "baz"]} {["m1"; "m2"]}
              {["gameHooks.Foo.bar"; "gameHooks.Foo"; "x.baz"]} {["a.ts"; "b.ts"]}
              true true).
Proof. split; vm_compute; reflexivity. Qed.

(** A reference to [gameHooks.constructor.name] makes the aggregation
    throw, whatever the order of the files. *)
Example collectUsage_inherited_name :
  collectUsage id (twoFiles ++ [("c.ts", Some inheritedNameExample)]) = Rejected typeErrorAdd
  ∧ collectUsage id (("c.ts", Some inheritedNameExample) :: twoFiles) = Rejected typeErrorAdd.
Proof. split; vm_compute; reflexivity. Qed.

(** *** The client class recoverer *)

Lemma hasMembers_memberCount c : hasMembers c = true ↔ (0 < memberCount c)%nat.
Proof.
  unfold hasMembers, memberCount.
  rewrite !orb_true_iff, !bool_decide_eq_true. lia.
Qed.

(** C7: every class in the list that the recoverer returns has at least
    one recorded member (instance or static property or method); a
    candidate with no recorded member is not in the list. *)
Theorem C7_empty_candidates_discarded (acornParse : JSString → option ES.Node)
    (clientCode : JSString) (c : ClientClass.t) :
  (c ∈ parseClientForClasses acornParse clientCode → (0 < memberCount c)%nat)
  ∧ (memberCount c = 0%nat → c ∉ parseClientForClasses acornParse clientCode).
Proof.
  assert (c ∈ parseClientForClasses acornParse clientCode → (0 < memberCount c)%nat) as H.
  { unfold parseClientForClasses, recoverClasses.
    destruct (acornParse clientCode) as [ast|].
    - intros Hin. apply list_elem_of_In, filter_In in Hin as [_ Hm].
      by apply hasMembers_memberCount.
    - intros Hin. by apply elem_of_nil in Hin. }
  split; [exact H|]. intros Hzero Hin. apply H in Hin. lia.
Qed.

Lemma C7_empty_candidates_discarded_witness :
  (0 < memberCount classA)%nat.
Proof.
  apply (proj1 (C7_empty_candidates_discarded (λ _, Some getterExample) (codeUnits "bundle") classA)).
  vm_compute. left.
Defined.

(** [class B {}] of the example is opened as a candidate and discarded. *)
Example recoverClasses_example :
  (walk getterExample (mkRecoverState [] None)).(classMap).*1 = ["A"; "B"]
  ∧ recoverClasses getterExample = [classA].
Proof. split; vm_compute; reflexivity. Qed.

Lemma updateClass_keys className f m : (updateClass className f m).*1 = m.*1.
Proof.
  unfold updateClass. induction m as [|[k c] m IH]; simpl; [done|].
  destruct (bool_decide (k = className)); simpl; f_equal; exact IH.
Qed.

Lemma classMapHas_updateClass k className f m :
  classMapHas k (updateClass className f m) = classMapHas k m.
Proof. unfold classMapHas. by rewrite updateClass_keys. Qed.

Lemma classMapGet_updateClass className f m :
  classMapGet className (updateClass className f m) = f <$> classMapGet className m.
Proof.
  induction m as [|[k c] m IH]; simpl; [done|].
  destruct (bool_decide (k = className)) eqn:Hk; simpl; rewrite Hk; [done|apply IH].
Qed.

Lemma classMapHas_get className m :
  classMapHas className m = true → is_Some (classMapGet className m).
Proof.
  unfold classMapHas. rewrite bool_decide_eq_true.
  induction m as [|[k c] m IH]; simpl; intros Hin.
  - by apply elem_of_nil in Hin.
  - destruct (bool_decide (k = className)) eqn:Hk; [by eexists|].
    apply bool_decide_eq_false in Hk. apply elem_of_cons in Hin as [?|?]; [done|auto].
Qed.

Lemma openClass_Some st cc :
  openClass st = Some cc → currentClass st = Some cc ∧ classMapHas cc (classMap st) = true.
Proof.
  unfold openClass. destruct (currentClass st) as [cc'|]; [|done].
  destruct (classMapHas cc' (classMap st)) eqn:Hhas; [|done]. by intros [= ->].
Qed.

(** C10: inside an open candidate, an accessor definition (getter or
    setter) with an identifier key is added to the candidate's method set
    (static or instance, by the general method rule) and to its property
    set (by the accessor rule); the scorer then finds it both as a
    property and as a method. *)
Theorem C10_accessor_is_method_and_property static propName kind value st cc :
  kind = ES.KindGet ∨ kind = ES.KindSet →
  openClass st = Some cc →
  ∃ c,
    classMapGet cc
      (classMap (enter (ES.MethodDefinition static (ES.Identifier propName) kind value) st))
    = Some c
    ∧ propName ∈ (if static then ClientClass.staticMethods c else ClientClass.methods c)
    ∧ propName ∈ (if static then ClientClass.staticProperties c else ClientClass.properties c)
    ∧ hasProperty c propName ∧ hasMethod c propName.
Proof.
  intros Hkind Hopen.
  destruct (openClass_Some _ _ Hopen) as [Hcur Hhas].
  destruct (classMapHas_get _ _ Hhas) as [c0 Hc0].
  unfold enter. cbn [enterClassDeclaration enterVariableDeclarator enterFunctionDeclaration].
  unfold enterMethodDefinition at 1. rewrite Hopen.
  set (st1 := mkRecoverState _ _).
  assert (openClass st1 = Some cc) as Hopen1.
  { unfold openClass, st1. simpl. by rewrite Hcur, classMapHas_updateClass, Hhas. }
  assert (∀ s, enterThisAssignment (ES.MethodDefinition static (ES.Identifier propName) kind value)
                 (enterStaticAssignment
                    (ES.MethodDefinition static (ES.Identifier propName) kind value)
                    (enterPrototypeAssignment
                       (ES.MethodDefinition static (ES.Identifier propName) kind value) s))
               = s) as -> by done.
  unfold enterAccessor. rewrite Hopen1.
  destruct Hkind as [-> | ->]; simpl;
    rewrite !classMapGet_updateClass, Hc0; simpl;
    (eexists; split; [reflexivity|]);
    unfold hasProperty, hasMethod;
    destruct static; repeat case_match; simpl; set_solver.
Qed.

Lemma C10_accessor_is_method_and_property_witness :
  ∃ c,
    classMapGet "A"
      (classMap (enter (ES.MethodDefinition false (ES.Identifier "foo") ES.KindGet
                          (ES.FunctionExpression [])) insideClassA))
    = Some c
    ∧ "foo" ∈ ClientClass.methods c
    ∧ "foo" ∈ ClientClass.properties c
    ∧ hasProperty c "foo" ∧ hasMethod c "foo".
Proof.
  apply (C10_accessor_is_method_and_property false "foo" ES.KindGet
           (ES.FunctionExpression []) insideClassA "A").
  - left. reflexivity.
  - vm_compute. reflexivity.
Defined.

(** The getter of [class A { get foo() {} }] earns the points of a matched
    property and of a matched method. *)
Example getter_scores_twice :
  ClassMatch.matchScore (calculateMatchScore fooUsage classA "Other") = 3%Z.
Proof. vm_compute. reflexivity. Qed.

(** *** Failure of the client download *)

(** C8 (as stated) fails: when every fetch is rejected, the run does not
    terminate with the failure: [analyzeGameHookDependencies] resolves and
    the script prints its (empty) result list. *)
Lemma C8_counterexample :
  fetch deadNetwork highspellAssetsURL = Rejected "fetch failed"
  ∧ scriptEnd (analyzeGameHookDependencies id (λ _, None) deadNetwork closedDB
                 twoFiles ("core.ts", None))
    = PrintedResults [].
Proof. split; vm_compute; reflexivity. Qed.

Lemma bundleURL_not_manifest versionText timeText :
  bundleURL versionText timeText ≠ highspellAssetsURL.
Proof.
  intros H. apply (f_equal (String.substring 0 22)) in H.
  vm_compute in H. discriminate H.
Qed.

(** C8 (amended): a rejected fetch inside [obtainGameClient] makes
    [obtainGameClient] reject with the same error and without a retry,
    whether it is the fetch of the asset manifest (one request) or, once
    the manifest has reported a version above 0, the fetch of the bundle
    (two requests).  Any rejection of [obtainGameClient] is caught inside
    [analyzeGameHookDependencies]: the message is written to the error
    console, the matching phase is skipped (no suggestion is produced), and
    the run completes normally, returning the usage aggregate that was
    built before the download; the script prints the empty result list. *)
Theorem C8_fetch_failure_is_caught relative acornParse net db files coreFile usage message :
  collectUsage relative files = Resolved usage →
  (fetch net highspellAssetsURL = Rejected message →
   obtainGameClient net db true [] = (Rejected message, [highspellAssetsURL]))
  ∧ (∀ manifest assetData version,
       fetch net highspellAssetsURL = Resolved manifest →
       Response.json manifest = Resolved (mkAssetJSON (Some assetData)) →
       latestClientVersion assetData = Some version →
       (0 < version)%Z →
       (∀ url, url ≠ highspellAssetsURL → fetch net url = Rejected message) →
       ∃ url,
         url ≠ highspellAssetsURL
         ∧ obtainGameClient net db true [] = (Rejected message, [highspellAssetsURL; url]))
  ∧ (∀ message' log,
       obtainGameClient net db true [] = (Rejected message', log) →
       analyzeGameHookDependencies relative acornParse net db files coreFile
       = mkRun (Resolved usage) [] ["Error analyzing client code: " +:+ message'] log
       ∧ scriptEnd (analyzeGameHookDependencies relative acornParse net db files coreFile)
         = PrintedResults []).
Proof.
  intros Husage. split; [|split].
  - intros Hfetch. unfold obtainGameClient, bind, request, ret. simpl.
    by rewrite Hfetch.
  - intros manifest assetData version Hfetch Hjson Hversion Hnewer Hrest.
    exists (bundleURL (pretty version) (pretty (dateNow net))).
    split; [apply bundleURL_not_manifest|].
    unfold obtainGameClient, downloadClient, bind, request, await, ret. simpl.
    rewrite Hfetch, Hjson. simpl. rewrite Hversion.
    rewrite bool_decide_true by done.
    fold (bundleURL (pretty version) (pretty (dateNow net))).
    by rewrite (Hrest _ (bundleURL_not_manifest _ _)).
  - intros message' log Hrej.
    assert (analyzeGameHookDependencies relative acornParse net db files coreFile
            = mkRun (Resolved usage) [] ["Error analyzing client code: " +:+ message'] log)
      as Hrun.
    { unfold analyzeGameHookDependencies, matchingPhase, bind.
      by rewrite Husage, Hrej. }
    split; [exact Hrun|]. by rewrite Hrun.
Qed.

Lemma C8_fetch_failure_is_caught_witness :
  obtainGameClient deadNetwork closedDB true []
  = (Rejected "fetch failed", [highspellAssetsURL])
  ∧ (∃ url,
       url ≠ highspellAssetsURL
       ∧ obtainGameClient bundlelessNetwork closedDB true []
         = (Rejected "fetch failed", [highspellAssetsURL; url]))
  ∧ analyzeGameHookDependencies id (λ _, None) bundlelessNetwork closedDB twoFiles
      ("core.ts", None)
    = mkRun (Resolved twoFilesUsage) []
        ["Error analyzing client code: " +:+ "fetch failed"]
        [highspellAssetsURL; "https://highspell.com/js/client/client.12.js?time=77"]
  ∧ scriptEnd (analyzeGameHookDependencies id (λ _, None) bundlelessNetwork closedDB
                 twoFiles ("core.ts", None))
    = PrintedResults [].
Proof.
  pose proof (C8_fetch_failure_is_caught id (λ _, None) deadNetwork closedDB twoFiles
                ("core.ts", None) twoFilesUsage "fetch failed"
                ltac:(vm_compute; reflexivity)) as [Hdead _].
  pose proof (C8_fetch_failure_is_caught id (λ _, None) bundlelessNetwork closedDB twoFiles
                ("core.ts", None) twoFilesUsage "fetch failed"
                ltac:(vm_compute; reflexivity)) as [_ [Hbundle Hcaught]].
  split; [apply Hdead; reflexivity|]. split.
  - apply (Hbundle
             (Response.mk (Resolved (mkAssetJSON (Some (mkAssetData (Some 12%Z)))))
                (Rejected "not text"))
             (mkAssetData (Some 12%Z)) 12%Z);
      [reflexivity|reflexivity|reflexivity|lia|].
    intros url Hurl. unfold bundlelessNetwork. simpl.
    by rewrite bool_decide_false.
  - apply Hcaught. vm_compute. reflexivity.
Defined.

(** A successful download: two requests, and the accessors spliced in
    before the last nine code units of the bundle. *)
Example obtainGameClient_example :
  obtainGameClient liveNetwork closedDB true []
  = (Resolved
       (codeUnits "0123" ++ codeUnits clientAccessors ++ codeUnits "456789abc"),
     [highspellAssetsURL; "https://highspell.com/js/client/client.12.js?time=77"]).
Proof. vm_compute. reflexivity. Qed.

(* ===================================================================== *)
(** ** Further properties of the code *)
(* ===================================================================== *)

(** *** Entry patterns and property chains *)

(** X1: [isGameHooksAccess] and [getHookNameAndProperties] agree.  A chain
    that is no game-hook access gets the empty hook name and no
    properties; a chain that is one splits into one of the four entry
    prefixes, the hook name and the properties, so the hook name is an
    element of the chain and the [startIndex >= chain.length] exit is
    never taken. *)
Theorem X1_entry_patterns_agree chain :
  (isGameHooksAccess chain = false → getHookNameAndProperties chain = ("", []))
  ∧ (isGameHooksAccess chain = true →
     ∃ prefix,
       prefix ∈ entryPrefixes
       ∧ chain = prefix ++ (getHookNameAndProperties chain).1
                          :: (getHookNameAndProperties chain).2).
Proof.
  assert (∀ prefix hook props,
            prefix ∈ entryPrefixes →
            ∃ prefix', prefix' ∈ entryPrefixes
                       ∧ prefix ++ hook :: props = prefix' ++ hook :: props) as Hex
    by (intros; eauto).
  unfold isGameHooksAccess, getHookNameAndProperties.
  destruct chain as [|a [|b [|c [|d l]]]]; cbn [length lookup list_lookup drop fst snd];
    repeat (case_bool_decide; try lia; cbn [andb orb]; subst);
    split; intros; try discriminate; try reflexivity; simplify_eq;
    cbn [default fst snd drop];
    first [ apply (Hex ["document"; "highlite"; "gameHooks"]); vm_compute; set_solver
          | apply (Hex ["highlite"; "gameHooks"]); vm_compute; set_solver
          | apply (Hex ["this"; "gameHooks"]); vm_compute; set_solver
          | apply (Hex ["gameHooks"]); vm_compute; set_solver ].
Qed.

Lemma X1_entry_patterns_agree_witness :
  ∃ prefix,
    prefix ∈ entryPrefixes
    ∧ ["document"; "highlite"; "gameHooks"; "Foo"; "bar"]
      = prefix ++ (getHookNameAndProperties
                     ["document"; "highlite"; "gameHooks"; "Foo"; "bar"]).1
                  :: (getHookNameAndProperties
                        ["document"; "highlite"; "gameHooks"; "Foo"; "bar"]).2.
Proof.
  apply (proj2 (X1_entry_patterns_agree
                  ["document"; "highlite"; "gameHooks"; "Foo"; "bar"])).
  reflexivity.
Defined.

Lemma string_app_assoc (s1 s2 s3 : string) : (s1 +:+ s2) +:+ s3 = s1 +:+ s2 +:+ s3.
Proof.
  induction s1 as [|a s1 IH]; [done|].
  change (String a ((s1 +:+ s2) +:+ s3) = String a (s1 +:+ s2 +:+ s3)). by rewrite IH.
Qed.

Lemma markCall_app chain l : l ≠ [] → markCall (chain ++ l) = chain ++ markCall l.
Proof.
  intros Hl. induction chain as [|x chain IH]; [done|].
  simpl. rewrite IH. destruct (chain ++ l) eqn:Happ; [|done].
  apply app_eq_nil in Happ as [_ ?]. done.
Qed.

Lemma markCall_nonempty l : l ≠ [] → markCall l ≠ [].
Proof. destruct l as [|x [|y l]]; simpl; done. Qed.

Lemma joinDots_snoc l x : l ≠ [] → joinDots (l ++ [x]) = joinDots l +:+ "." +:+ x.
Proof.
  induction l as [|y l IH]; [done|]. intros _.
  destruct l as [|z l]; [done|].
  change (joinDots ((y :: z :: l) ++ [x]))
    with (y +:+ "." +:+ joinDots ((z :: l) ++ [x])).
  rewrite IH by done.
  change (joinDots (y :: z :: l)) with (y +:+ "." +:+ joinDots (z :: l)).
  by rewrite !string_app_assoc.
Qed.

Lemma joinDots_markCall l : l ≠ [] → joinDots (markCall l) = joinDots l +:+ "()".
Proof.
  induction l as [|y l IH]; [done|]. intros _.
  destruct l as [|z l]; [done|].
  change (markCall (y :: z :: l)) with (y :: markCall (z :: l)).
  pose proof (markCall_nonempty (z :: l)) as Hne.
  destruct (markCall (z :: l)) as [|w l'] eqn:Hm; [by exfalso; apply Hne|].
  change (joinDots (y :: w :: l')) with (y +:+ "." +:+ joinDots (w :: l')).
  rewrite IH by done.
  change (joinDots (y :: z :: l)) with (y +:+ "." +:+ joinDots (z :: l)).
  by rewrite !string_app_assoc.
Qed.

(** On a chain expression [traverse] appends a non-empty list of segments
    that does not depend on the chain it starts from. *)
Lemma traverse_chainExpression node :
  isChainExpression node = true →
  extractPropertyChain node ≠ []
  ∧ ∀ chain, traverse node chain = chain ++ extractPropertyChain node.
Proof.
  unfold extractPropertyChain.
  induction node as [t|t|l e n IHe|l e args IHe _|l n _|l n i _ _
                    |cs _|cs _|cs _|cs _|cs _|cs _] using Node_nested_ind;
    simpl; intros Hchain; try discriminate.
  - split; [done|]. intros chain. done.
  - destruct (IHe Hchain) as [Hne Happ]. split.
    + intros [? ?]%app_eq_nil. done.
    + intros chain. by rewrite Happ, <- app_assoc.
  - destruct (IHe Hchain) as [Hne Happ]. split.
    + by apply markCall_nonempty.
    + intros chain. by rewrite Happ, markCall_app.
Qed.

(** X2: for an expression built from an identifier by property accesses
    and calls, the text that [nodeToString] records as [fullExpression]
    is the extracted chain joined with dots, and the chain is not
    empty. *)
Theorem X2_expression_text_is_joined_chain node :
  isChainExpression node = true →
  extractPropertyChain node ≠ []
  ∧ nodeToString node = joinDots (extractPropertyChain node).
Proof.
  intros Hchain. split; [by apply traverse_chainExpression|].
  induction node as [t|t|l e n IHe|l e args IHe _|l n _|l n i _ _
                    |cs _|cs _|cs _|cs _|cs _|cs _] using Node_nested_ind;
    simpl in Hchain |- *; try discriminate.
  - done.
  - destruct (traverse_chainExpression e Hchain) as [Hne _].
    unfold extractPropertyChain in *. simpl.
    rewrite joinDots_snoc by done. by rewrite IHe.
  - destruct (traverse_chainExpression e Hchain) as [Hne _].
    unfold extractPropertyChain in *. simpl.
    rewrite joinDots_markCall by done. by rewrite IHe.
Qed.

Lemma X2_expression_text_is_joined_chain_witness :
  extractPropertyChain gameHooksFooBar ≠ []
  ∧ nodeToString gameHooksFooBar = joinDots (extractPropertyChain gameHooksFooBar).
Proof. apply (X2_expression_text_is_joined_chain gameHooksFooBar). reflexivity. Defined.

(** *** Invariants of the usage extractor *)

Lemma isGameHooksAccess_hook chain hook props :
  getHookNameAndProperties chain = (hook, props) →
  bool_decide (hook = "") = false → hook ≠ "".
Proof. intros _ H. by apply bool_decide_eq_false in H. Qed.

Lemma pushIndirect_invariant filePath node line v seg st :
  extractorInvariant filePath st →
  extractorInvariant filePath (pushIndirect filePath node line v seg st).
Proof.
  intros [Ha Hd]. unfold pushIndirect, getVariableReference.
  destruct (aliasesOf st !! v) as [r|] eqn:Hr; [|done].
  split; [done|]. simpl. apply Forall_app. split; [done|].
  apply Forall_singleton. destruct (Ha _ _ Hr) as (Hname & Hv & Hhook).
  unfold wellFormedDependency, indirectDependency. simpl.
  repeat split; [done|lia|]. exists v. repeat split; [done|].
  intros [? ?]%app_eq_nil. done.
Qed.

Lemma pushDirect_invariant filePath hook props text line st :
  hook ≠ "" →
  extractorInvariant filePath st →
  extractorInvariant filePath
    (pushDependency (GameHookDependency.mk hook props text filePath (line + 1) true None) st).
Proof.
  intros Hhook [Ha Hd]. split; [done|]. simpl. apply Forall_app. split; [done|].
  apply Forall_singleton. unfold wellFormedDependency. simpl. repeat split; [done|lia].
Qed.

Lemma declarationStep_invariant filePath node st :
  extractorInvariant filePath st →
  extractorInvariant filePath (declarationStep filePath node st).
Proof.
  intros Hst. destruct node as [| | | |l n [i|]| | | | | |]; simpl; try done;
    [|by destruct n].
  destruct n as [v| | | | | | | | | |]; try done.
  destruct (bool_decide (v = "")) eqn:Hv; [done|].
  destruct (isGameHooksAccess _); [|done].
  destruct (getHookNameAndProperties _) as [hook props].
  destruct (bool_decide (hook = "")) eqn:Hhook; [done|].
  apply bool_decide_eq_false in Hv, Hhook.
  apply pushDirect_invariant; [done|].
  destruct Hst as [Ha Hd]. split; [|done]. simpl.
  apply map_Forall_insert_2; [|done]. unfold wellFormedAlias. simpl. done.
Qed.

Lemma accessStep_invariant filePath isInit node st :
  extractorInvariant filePath st →
  extractorInvariant filePath (accessStep filePath isInit node st).
Proof.
  intros Hst. destruct node as [| |l e n|l e args| | | | | | |]; simpl; try done.
  - destruct (isGameHooksAccess _).
    + destruct (getHookNameAndProperties _) as [hook props].
      destruct (bool_decide (hook = "")) eqn:Hhook; [done|].
      destruct isInit; [done|]. apply bool_decide_eq_false in Hhook.
      by apply pushDirect_invariant.
    + destruct e; try done. by apply pushIndirect_invariant.
  - destruct (isGameHooksAccess _).
    + destruct (getHookNameAndProperties _) as [hook props].
      destruct (bool_decide (hook = "")) eqn:Hhook; [done|].
      destruct isInit; [done|]. apply bool_decide_eq_false in Hhook.
      by apply pushDirect_invariant.
    + destruct e as [| |? e' ?| | | | | | | |]; try done;
        [by apply pushIndirect_invariant|].
      destruct e'; try done. by apply pushIndirect_invariant.
Qed.

Lemma exitScope_invariant filePath st :
  extractorInvariant filePath st → extractorInvariant filePath (exitScope st).
Proof.
  intros [Ha Hd]. split; [|done]. simpl.
  intros k r [Hr _]%map_lookup_filter_Some. by apply Ha.
Qed.

(** X3: every reference that [analyzeFileForGameHooks] reports has a
    non-empty hook name, the path of the analysed file and a line number
    of at least 1; a direct reference has no source variable, an indirect
    one names a non-empty source variable and has a non-empty property
    chain. *)
Theorem X3_references_well_formed filePath sourceFile :
  Forall (wellFormedDependency filePath) (analyzeFileForGameHooks filePath sourceFile).
Proof.
  destruct sourceFile as [root|]; simpl; [|constructor].
  refine (proj2 (visit_invariant (extractorInvariant filePath) filePath _ _ _ _
                   root false initialWalkState _)).
  - intros st [Ha Hd]. by split.
  - apply exitScope_invariant.
  - intros. by apply declarationStep_invariant.
  - intros. by apply accessStep_invariant.
  - split; [apply map_Forall_empty|constructor].
Qed.

Lemma fold_countScopeNodes filePath cs :
  Forall (λ c, ∀ isInit st,
            ScopeTracker.scopeCounter (scopeTracker (visit filePath isInit c st))
            = (ScopeTracker.scopeCounter (scopeTracker st) + countScopeNodes c)%nat) cs →
  ∀ st, ScopeTracker.scopeCounter
          (scopeTracker (fold_left (λ s c, visit filePath false c s) cs st))
        = (ScopeTracker.scopeCounter (scopeTracker st)
           + foldr (λ c n, countScopeNodes c + n) 0 cs)%nat.
Proof.
  induction 1 as [|c cs Hc _ IH]; intros st; simpl; [lia|]. rewrite IH, Hc. lia.
Qed.

Lemma declarationStep_counter filePath node st :
  ScopeTracker.scopeCounter (scopeTracker (declarationStep filePath node st))
  = ScopeTracker.scopeCounter (scopeTracker st).
Proof.
  destruct node as [| | | |l n [i|]| | | | | |]; simpl; try done; [|by destruct n].
  destruct n; try done. repeat case_match; done.
Qed.

(** X4: the scope counter after the walk of a subtree is the counter
    before plus the number of function and block nodes of the subtree; the
    id of a newly entered scope is never "global", and two entries give the
    same id only from the same counter value: no scope id is used twice in
    a file. *)
Theorem X4_scope_ids_are_fresh filePath :
  (∀ node isInit st,
     ScopeTracker.scopeCounter (scopeTracker (visit filePath isInit node st))
     = (ScopeTracker.scopeCounter (scopeTracker st) + countScopeNodes node)%nat)
  ∧ (∀ st, scopeOf (enterScope st) ≠ "global")
  ∧ (∀ st st',
       scopeOf (enterScope st) = scopeOf (enterScope st') →
       ScopeTracker.scopeCounter (scopeTracker st)
       = ScopeTracker.scopeCounter (scopeTracker st')).
Proof.
  split; [|split].
  - intros node.
    induction node as [t|t|l e n IHe|l e args IHe IHargs|l n IHn|l n i IHn IHi
                      |cs IH|cs IH|cs IH|cs IH|cs IH|cs IH] using Node_nested_ind;
      intros isInit st; rewrite visit_unfold; cbn [isScopeNode]; cbv zeta;
      cbn [visitChildren countScopeNodes isScopeNode];
      change (ScopeTracker.scopeCounter (scopeTracker (exitScope ?s)))
        with (ScopeTracker.scopeCounter (scopeTracker s));
      rewrite ?(fold_countScopeNodes _ _ IHargs), ?(fold_countScopeNodes _ _ IH),
        ?IHi, ?IHn, ?IHe, ?accessStep_tracker, ?declarationStep_counter;
      change (ScopeTracker.scopeCounter (scopeTracker (enterScope ?s)))
        with (S (ScopeTracker.scopeCounter (scopeTracker s)));
      lia.
  - intros st. simpl. discriminate.
  - intros st st'. simpl. intros Heq.
    apply (inj (String.app "scope_")) in Heq. apply (inj pretty) in Heq. lia.
Qed.

Lemma X4_scope_ids_are_fresh_witness :
  ScopeTracker.scopeCounter (scopeTracker outerState)
  = ScopeTracker.scopeCounter
      (scopeTracker (mkWalkState (ScopeTracker.mk "scope_3" 7 ∅) [])).
Proof.
  apply (proj2 (proj2 (X4_scope_ids_are_fresh "a.ts")) outerState
           (mkWalkState (ScopeTracker.mk "scope_3" 7 ∅) [])).
  reflexivity.
Defined.

Lemma knownScope_mono c c' scope : (c ≤ c')%nat → knownScope c scope → knownScope c' scope.
Proof. intros Hle [->|(k & Hk & ->)]; [by left|right]. exists k. split; [lia|done]. Qed.

Lemma scopesKnown_visit filePath node isInit st :
  scopesKnown st → scopesKnown (visit filePath isInit node st).
Proof.
  apply (visit_invariant scopesKnown filePath); clear.
  - intros st [Hc Ha]. split; simpl.
    + right. eexists. split; [|reflexivity]. lia.
    + intros k r Hr. eapply knownScope_mono; [|by eapply Ha]. lia.
  - intros st [Hc Ha]. split; simpl; [by left|].
    intros k r [Hr _]%map_lookup_filter_Some. by eapply Ha.
  - intros node st [Hc Ha].
    destruct node as [| | | |l n [i|]| | | | | |]; simpl; try done; [|by destruct n].
    destruct n as [v| | | | | | | | | |]; try done.
    repeat (case_match; try done). split; simpl; [done|].
    by apply map_Forall_insert_2.
  - intros node isInit st Hst. unfold scopesKnown. by rewrite accessStep_tracker.
Qed.

(** X5: in a walk state whose scope ids are all in use (the initial state
    is one, and the walk keeps the property), a block that contains no
    function, block or variable declaration leaves every alias in place:
    its exit deletes the aliases of its own, fresh scope id only.  It does
    reset the current scope to "global". *)
Theorem X5_plain_block_keeps_aliases filePath node isInit st :
  scopesKnown st →
  flatBlock node = true →
  containsDeclaration node = false →
  aliasesOf (visit filePath isInit node st) = aliasesOf st
  ∧ scopeOf (visit filePath isInit node st) = "global"
  ∧ scopesKnown (visit filePath isInit node st).
Proof.
  intros Hknown Hflat Hdecl. split; [|split; [|by apply scopesKnown_visit]].
  - destruct node as [| | | | | | | |statements| |]; try discriminate.
    cbn [flatBlock] in Hflat. cbn [containsDeclaration] in Hdecl.
    rewrite visit_unfold. cbn [isScopeNode]. cbv zeta.
    change (declarationStep filePath (Block statements) (enterScope st))
      with (enterScope st).
    change (accessStep filePath isInit (Block statements) (enterScope st))
      with (enterScope st).
    cbn [visitChildren]. unfold exitScope. cbn [scopeTracker ScopeTracker.variableReferences].
    rewrite fold_visit_inert.
    + apply map_filter_id. intros k r Hr. simpl in Hr |- *.
      destruct Hknown as [_ Ha]. destruct (Ha _ _ Hr) as [->|(j & Hj & ->)]; [done|].
      intros Heq. apply (inj (String.app "scope_")) in Heq. apply (inj pretty) in Heq. lia.
    + apply forallb_forall. intros c Hc.
      rewrite forallb_forall in Hflat. rewrite (Hflat c Hc). simpl.
      apply negb_true_iff. apply existsb_false_Forall in Hdecl.
      rewrite Forall_forall in Hdecl. apply Hdecl. by apply list_elem_of_In.
  - destruct node; try discriminate. by rewrite visit_unfold.
Qed.

Lemma X5_plain_block_keeps_aliases_witness :
  aliasesOf (visit "a.ts" false (Block [xBaz]) outerState) = aliasesOf outerState
  ∧ scopeOf (visit "a.ts" false (Block [xBaz]) outerState) = "global"
  ∧ scopesKnown (visit "a.ts" false (Block [xBaz]) outerState).
Proof.
  apply (X5_plain_block_keeps_aliases "a.ts" (Block [xBaz]) false outerState).
  - split.
    + by left.
    + intros k r Hr. unfold outerState in Hr. simpl in Hr.
      apply lookup_insert_Some in Hr as [[_ <-]|[_ Hr]].
      * right. exists 7%nat. split; [simpl; lia|reflexivity].
      * apply lookup_insert_Some in Hr as [[_ <-]|[_ Hr]]; [by left|].
        by rewrite lookup_empty in Hr.
  - reflexivity.
  - reflexivity.
Defined.

(** *** Invariants of the registration extractors *)

Lemma fold_forEachNode_invariant {S} (I : S → Prop) (handle : Node → S → S) cs :
  Forall (λ c, ∀ st, I st → I (forEachNode handle c st)) cs →
  ∀ st, I st → I (fold_left (λ s c, forEachNode handle c s) cs st).
Proof.
  induction 1 as [|c cs Hc _ IH]; intros st Hst; simpl; [done|]. apply IH, Hc, Hst.
Qed.

(** A property that the handler keeps is kept by the whole traversal. *)
Lemma forEachNode_invariant {S} (I : S → Prop) (handle : Node → S → S) :
  (∀ node st, I st → I (handle node st)) →
  ∀ node st, I st → I (forEachNode handle node st).
Proof.
  intros Hhandle node.
  induction node as [t|t|l e n IHe|l e args IHe IHargs|l n IHn|l n i IHn IHi
                    |cs IH|cs IH|cs IH|cs IH|cs IH|cs IH] using Node_nested_ind;
    intros st Hst; cbn [forEachNode].
  - by apply Hhandle.
  - by apply Hhandle.
  - by apply IHe, Hhandle.
  - apply (fold_forEachNode_invariant I _ _ IHargs). by apply IHe, Hhandle.
  - by apply IHn, Hhandle.
  - by apply IHi, IHn, Hhandle.
  - by apply (fold_forEachNode_invariant I _ _ IH), Hhandle.
  - by apply (fold_forEachNode_invariant I _ _ IH), Hhandle.
  - by apply (fold_forEachNode_invariant I _ _ IH), Hhandle.
  - by apply (fold_forEachNode_invariant I _ _ IH), Hhandle.
  - by apply (fold_forEachNode_invariant I _ _ IH), Hhandle.
  - by apply (fold_forEachNode_invariant I _ _ IH), Hhandle.
Qed.

Lemma recordRegistration_entries filePath className methodName w :
  map_Forall (registrationEntry filePath) (hookUsage w) →
  map_Forall (registrationEntry filePath)
    (hookUsage (recordRegistration filePath className methodName w)).
Proof.
  intros Hw. unfold recordRegistration.
  destruct (thrown w); [done|].
  destruct (inheritedKey className) eqn:Hkey; [done|]. simpl.
  unfold addRegistration. apply map_Forall_insert_2; [|done].
  destruct (hookUsage w !! className) as [u|] eqn:Hu; simpl.
  - destruct (Hw _ _ Hu) as (_ & Hp & He & Hf & Hm & Hd & Hr).
    unfold registrationEntry. simpl. rewrite Hp, He, Hf.
    repeat split; try done; set_solver.
  - unfold registrationEntry. simpl. repeat split; try done; set_solver.
Qed.

Lemma registrationStep_entries filePath node w :
  map_Forall (registrationEntry filePath) (hookUsage w) →
  map_Forall (registrationEntry filePath) (hookUsage (registrationStep filePath node w)).
Proof.
  intros Hw. unfold registrationStep.
  assert (∀ callee w',
            map_Forall (registrationEntry filePath) (hookUsage w') →
            map_Forall (registrationEntry filePath)
              (hookUsage (registrationBranch callee filePath node w'))) as Hbranch.
  { intros callee w' Hw'. unfold registrationBranch.
    repeat (case_match; try done). by apply recordRegistration_entries. }
  by apply Hbranch, Hbranch.
Qed.

(** X6: every entry of the dictionary that
    [analyzeFileForHookRegistrations] returns has an ordinary (not
    inherited) hook name, at least one method, exactly the analysed file
    in its file set, no property and no expression, and the flags
    [fromDirectAccess = false], [fromHookRegistration = true]. *)
Theorem X6_registration_entries filePath sourceFile hookName u :
  analyzeFileForHookRegistrations filePath sourceFile !! hookName = Some u →
  registrationEntry filePath hookName u.
Proof.
  destruct sourceFile as [root|]; simpl; [|by rewrite lookup_empty].
  revert hookName u.
  apply (forEachNode_invariant
           (λ w, map_Forall (registrationEntry filePath) (hookUsage w))).
  - intros. by apply registrationStep_entries.
  - apply map_Forall_empty.
Qed.

Lemma X6_registration_entries_witness :
  registrationEntry "b.ts" "Foo"
    (GameHookUsage.mk ∅ {["m1"; "m2"]} ∅ {["b.ts"]} false true).
Proof.
  apply (X6_registration_entries "b.ts" (Some registrationExample) "Foo").
  vm_compute. reflexivity.
Defined.

Lemma sameMappingMoreMethods_refl m : sameMappingMoreMethods m m.
Proof. by repeat split. Qed.

Lemma sameMappingMoreMethods_trans m1 m2 m3 :
  sameMappingMoreMethods m1 m2 → sameMappingMoreMethods m2 m3 →
  sameMappingMoreMethods m1 m3.
Proof.
  intros (?&?&?&?) (?&?&?&?). repeat split; try congruence. set_solver.
Qed.

Lemma mappingFor_app hookName mappings m :
  mappingFor hookName (mappings ++ [m])
  = match mappingFor hookName mappings with
    | Some m' => Some m'
    | None => if bool_decide (ClassMapping.hookName m = hookName) then Some m else None
    end.
Proof.
  unfold mappingFor. induction mappings as [|x mappings IH]; simpl; [done|].
  by destruct (bool_decide (ClassMapping.hookName x = hookName)).
Qed.

Lemma addMappingMethod_None hookName methodName mappings :
  addMappingMethod hookName methodName mappings = None
  ↔ mappingFor hookName mappings = None.
Proof.
  unfold mappingFor. induction mappings as [|x mappings IH]; simpl; [done|].
  destruct (bool_decide (ClassMapping.hookName x = hookName)); [done|].
  rewrite fmap_None. done.
Qed.

Lemma addMappingMethod_Some hookName methodName mappings mappings' h :
  addMappingMethod hookName methodName mappings = Some mappings' →
  match mappingFor h mappings with
  | Some m =>
      ∃ m', mappingFor h mappings' = Some m'
            ∧ sameMappingMoreMethods m m'
            ∧ (h = hookName → methodName ∈ ClassMapping.methods m')
  | None => mappingFor h mappings' = None
  end.
Proof.
  unfold mappingFor. revert mappings'.
  induction mappings as [|x mappings IH]; intros mappings'; simpl; [done|].
  destruct (bool_decide (ClassMapping.hookName x = hookName)) eqn:Hx.
  - intros [= <-]. simpl. apply bool_decide_eq_true in Hx.
    destruct (bool_decide (ClassMapping.hookName x = h)) eqn:Hh.
    + eexists. split; [done|]. split; [|intros; simpl; set_solver].
      repeat split; simpl; set_solver.
    + destruct (List.find _ mappings) as [m|]; [|done].
      eexists. split; [done|]. split; [apply sameMappingMoreMethods_refl|].
      intros ->. apply bool_decide_eq_false in Hh. done.
  - destruct (addMappingMethod hookName methodName mappings) as [rest|] eqn:Hrest;
      [|done].
    intros [= <-]. simpl. apply bool_decide_eq_false in Hx.
    destruct (bool_decide (ClassMapping.hookName x = h)) eqn:Hh.
    + eexists. split; [done|]. split; [apply sameMappingMoreMethods_refl|].
      intros ->. apply bool_decide_eq_true in Hh. done.
    + by apply IH.
Qed.

(** What one handler step does to the mapping that [find] returns for [h]. *)
Lemma mappingHookBranch_first callee filePath node mappings h m :
  mappingFor h mappings = Some m →
  ∃ m', mappingFor h (mappingHookBranch callee filePath node mappings) = Some m'
        ∧ sameMappingMoreMethods m m'.
Proof.
  intros Hm. unfold mappingHookBranch.
  assert (∃ m', mappingFor h mappings = Some m' ∧ sameMappingMoreMethods m m') as Hsame
    by (eexists; split; [done|apply sameMappingMoreMethods_refl]).
  repeat (case_match; try done); subst.
  - pose proof (addMappingMethod_Some _ _ _ _ h ltac:(eassumption)) as Hadd.
    rewrite Hm in Hadd. destruct Hadd as (m' & ? & ? & _). eauto.
  - rewrite mappingFor_app, Hm. eexists. split; [done|apply sameMappingMoreMethods_refl].
Qed.

Lemma mappingStep_first filePath node mappings h m :
  mappingFor h mappings = Some m →
  ∃ m', mappingFor h (mappingStep filePath node mappings) = Some m'
        ∧ sameMappingMoreMethods m m'.
Proof.
  intros Hm. unfold mappingStep.
  set (m1 := match node with CallExpression _ _ _ => _ | _ => _ end).
  assert (mappingFor h m1 = Some m) as Hm1.
  { unfold m1. repeat (case_match; try done). by rewrite mappingFor_app, Hm. }
  destruct (mappingHookBranch_first "registerClassHook" filePath node m1 h m Hm1)
    as (m2 & Hm2 & Hs2).
  destruct (mappingHookBranch_first "registerClassOverrideHook" filePath node _ h m2 Hm2)
    as (m3 & Hm3 & Hs3).
  exists m3. split; [done|]. by eapply sameMappingMoreMethods_trans.
Qed.

(** X7: the mapping that [find] returns for a hook name is settled by the
    first call-site that mentions the hook.  Whatever the rest of the file
    registers, the first mapping of the hook keeps its client class name
    (also the "UNKNOWN" of a placeholder) and only gains methods: a
    [registerClass] call that comes after another call-site for the same
    hook never changes the class name that the driver reads. *)
Theorem X7_first_mapping_is_kept filePath node mappings h m :
  mappingFor h mappings = Some m →
  ∃ m', mappingFor h (forEachNode (mappingStep filePath) node mappings) = Some m'
        ∧ sameMappingMoreMethods m m'.
Proof.
  intros Hm.
  apply (forEachNode_invariant
           (λ ms, ∃ m', mappingFor h ms = Some m' ∧ sameMappingMoreMethods m m')).
  - intros n ms (m1 & Hm1 & Hs1).
    destruct (mappingStep_first filePath n ms h m1 Hm1) as (m2 & Hm2 & Hs2).
    exists m2. split; [done|]. by eapply sameMappingMoreMethods_trans.
  - exists m. split; [done|apply sameMappingMoreMethods_refl].
Qed.

Lemma X7_first_mapping_is_kept_witness :
  ∃ m', mappingFor "Foo"
          (forEachNode (mappingStep "core.ts") (registerClassCall "X" "Foo")
             [ClassMapping.mk "UNKNOWN" "Foo" {["m1"]} "core.ts"]) = Some m'
        ∧ sameMappingMoreMethods (ClassMapping.mk "UNKNOWN" "Foo" {["m1"]} "core.ts") m'.
Proof.
  apply (X7_first_mapping_is_kept "core.ts" (registerClassCall "X" "Foo")
           [ClassMapping.mk "UNKNOWN" "Foo" {["m1"]} "core.ts"] "Foo").
  reflexivity.
Defined.

Lemma mappingFor_snoc hookName before m after :
  mappingFor hookName before = None →
  ClassMapping.hookName m = hookName →
  mappingFor hookName (before ++ m :: after) = Some m.
Proof.
  intros Hbefore Hm. unfold mappingFor in *.
  induction before as [|x before IH]; simpl in *.
  - by rewrite bool_decide_eq_true_2.
  - destruct (bool_decide (ClassMapping.hookName x = hookName)); [done|]. by apply IH.
Qed.

Lemma addMappingMethod_split hookName methodName mappings m :
  mappingFor hookName mappings = Some m →
  ∃ before after,
    mappings = before ++ m :: after
    ∧ mappingFor hookName before = None
    ∧ addMappingMethod hookName methodName mappings
      = Some (before ++ withMethod methodName m :: after).
Proof.
  induction mappings as [|x mappings IH]; [done|]. simpl.
  destruct (bool_decide (ClassMapping.hookName x = hookName)) eqn:Hx.
  - intros [= ->]. by exists [], mappings.
  - intros Hm. destruct (IH Hm) as (before & after & -> & Hbefore & ->).
    exists (x :: before), after. split; [done|]. split; [|done].
    simpl. by rewrite Hx.
Qed.

(** X8: a [registerClassHook] or [registerClassOverrideHook] call-site
    with two string literals records its method on the mapping that [find]
    returns for the hook, and changes nothing else.  When the hook has a
    mapping, the list of mappings after the call-site is the list before
    with the first mapping of the hook replaced by itself with the method
    added (same client class, hook and file, the methods it had and the new
    one); when it has none, it is the list before with a placeholder
    appended (client class "UNKNOWN", the hook, that method only, the
    analysed file).  In both cases [find] returns that mapping afterwards. *)
Theorem X8_hook_method_recorded filePath line line' receiver callee hookName methodName
    rest mappings :
  callee = "registerClassHook" ∨ callee = "registerClassOverrideHook" →
  ∃ m',
    mappingFor hookName
      (mappingStep filePath
         (CallExpression line (PropertyAccessExpression line' receiver callee)
            (StringLiteral hookName :: StringLiteral methodName :: rest))
         mappings) = Some m'
    ∧ methodName ∈ ClassMapping.methods m'
    ∧ match mappingFor hookName mappings with
      | Some m =>
          m' = withMethod methodName m
          ∧ ∃ before after,
              mappings = before ++ m :: after
              ∧ mappingFor hookName before = None
              ∧ mappingStep filePath
                  (CallExpression line (PropertyAccessExpression line' receiver callee)
                     (StringLiteral hookName :: StringLiteral methodName :: rest))
                  mappings
                = before ++ m' :: after
      | None =>
          m' = ClassMapping.mk "UNKNOWN" hookName {[methodName]} filePath
          ∧ mappingStep filePath
              (CallExpression line (PropertyAccessExpression line' receiver callee)
                 (StringLiteral hookName :: StringLiteral methodName :: rest))
              mappings
            = mappings ++ [m']
      end.
Proof.
  intros Hcallee.
  assert (mappingStep filePath
            (CallExpression line (PropertyAccessExpression line' receiver callee)
               (StringLiteral hookName :: StringLiteral methodName :: rest))
            mappings
          = match addMappingMethod hookName methodName mappings with
            | Some mappings' => mappings'
            | None => mappings ++ [ClassMapping.mk "UNKNOWN" hookName {[methodName]}
                                     filePath]
            end) as ->.
  { unfold mappingStep, mappingHookBranch. by destruct Hcallee as [-> | ->]. }
  destruct (mappingFor hookName mappings) as [m|] eqn:Hm.
  - destruct (addMappingMethod_split hookName methodName mappings m Hm)
      as (before & after & -> & Hbefore & ->).
    assert (ClassMapping.hookName m = hookName) as Hhook.
    { apply find_some in Hm as [_ Hm]. by apply bool_decide_eq_true in Hm. }
    exists (withMethod methodName m).
    split; [by apply mappingFor_snoc|]. split; [simpl; set_solver|].
    split; [done|]. by exists before, after.
  - apply (addMappingMethod_None hookName methodName mappings) in Hm as Hadd.
    rewrite Hadd. eexists. split; [by apply mappingFor_snoc|].
    split; [simpl; set_solver|done].
Qed.

Lemma X8_hook_method_recorded_witness :
  ∃ m',
    mappingFor "Foo"
      (mappingStep "core.ts" (registerClassHookCall "Foo" "m1")
         [ClassMapping.mk "Y" "Bar" ∅ "core.ts"; ClassMapping.mk "X" "Foo" {["m0"]} "core.ts"])
    = Some m'
    ∧ "m1" ∈ ClassMapping.methods m'
    ∧ match mappingFor "Foo"
              [ClassMapping.mk "Y" "Bar" ∅ "core.ts";
               ClassMapping.mk "X" "Foo" {["m0"]} "core.ts"] with
      | Some m =>
          m' = withMethod "m1" m
          ∧ ∃ before after,
              [ClassMapping.mk "Y" "Bar" ∅ "core.ts";
               ClassMapping.mk "X" "Foo" {["m0"]} "core.ts"] = before ++ m :: after
              ∧ mappingFor "Foo" before = None
              ∧ mappingStep "core.ts" (registerClassHookCall "Foo" "m1")
                  [ClassMapping.mk "Y" "Bar" ∅ "core.ts";
                   ClassMapping.mk "X" "Foo" {["m0"]} "core.ts"]
                = before ++ m' :: after
      | None =>
          m' = ClassMapping.mk "UNKNOWN" "Foo" {["m1"]} "core.ts"
          ∧ mappingStep "core.ts" (registerClassHookCall "Foo" "m1")
              [ClassMapping.mk "Y" "Bar" ∅ "core.ts";
               ClassMapping.mk "X" "Foo" {["m0"]} "core.ts"]
            = [ClassMapping.mk "Y" "Bar" ∅ "core.ts";
               ClassMapping.mk "X" "Foo" {["m0"]} "core.ts"] ++ [m']
      end.
Proof.
  apply (X8_hook_method_recorded "core.ts" 0 0 (Identifier "core") "registerClassHook"
           "Foo" "m1" []
           [ClassMapping.mk "Y" "Bar" ∅ "core.ts"; ClassMapping.mk "X" "Foo" {["m0"]} "core.ts"]).
  left. reflexivity.
Defined.

(** *** Invariants of the client class recoverer *)

(** Induction on ESTree nodes, with the hypothesis for every child. *)
Lemma ESNode_nested_ind (P : ES.Node → Prop) :
  (∀ n, P (ES.Identifier n)) →
  P ES.ThisExpression →
  (∀ cs, Forall P cs → P (ES.FunctionExpression cs)) →
  (∀ ident superClass body,
     (∀ n, ident = Some n → P n) → (∀ n, superClass = Some n → P n) → P body →
     P (ES.ClassDeclaration ident superClass body)) →
  (∀ ident init, P ident → (∀ n, init = Some n → P n) →
                 P (ES.VariableDeclarator ident init)) →
  (∀ ident params body,
     (∀ n, ident = Some n → P n) → Forall P params → P body →
     P (ES.FunctionDeclaration ident params body)) →
  (∀ static key kind value, P key → P value →
                            P (ES.MethodDefinition static key kind value)) →
  (∀ lhs rhs, P lhs → P rhs → P (ES.AssignmentExpression lhs rhs)) →
  (∀ object property, P object → P property → P (ES.MemberExpression object property)) →
  (∀ cs, Forall P cs → P (ES.Other cs)) →
  ∀ n, P n.
Proof.
  intros HId HThis HFE HCD HVD HFD HMD HAE HME HO.
  fix IH 1. intros [n| |cs|ident superClass body|ident init|ident params body
                   |static key kind value|lhs rhs|object property|cs].
  - apply HId.
  - apply HThis.
  - apply HFE. induction cs; constructor; [apply IH|assumption].
  - apply HCD; [| |apply IH].
    + destruct ident as [x|]; intros n [= <-]. apply IH.
    + destruct superClass as [x|]; intros n [= <-]. apply IH.
  - apply HVD; [apply IH|]. destruct init as [x|]; intros n [= <-]. apply IH.
  - apply HFD; [| |apply IH].
    + destruct ident as [x|]; intros n [= <-]. apply IH.
    + induction params; constructor; [apply IH|assumption].
  - apply HMD; apply IH.
  - apply HAE; apply IH.
  - apply HME; apply IH.
  - apply HO. induction cs; constructor; [apply IH|assumption].
Qed.

Lemma fold_walk_invariant (I : RecoverState → Prop) cs :
  Forall (λ c, ∀ st, I st → I (walk c st)) cs →
  ∀ st, I st → I (fold_left (λ s c, walk c s) cs st).
Proof.
  induction 1 as [|c cs Hc _ IH]; intros st Hst; simpl; [done|]. apply IH, Hc, Hst.
Qed.

(** A property that [enter] and [leave] keep is kept by the whole walk. *)
Lemma walk_invariant (I : RecoverState → Prop) :
  (∀ node st, I st → I (enter node st)) →
  (∀ node st, I st → I (leave node st)) →
  ∀ node st, I st → I (walk node st).
Proof.
  intros Henter Hleave node.
  induction node as [n| |cs IH|ident superClass body IHi IHs IHb|ident init IHi IHn
                    |ident params body IHi IHp IHb|static key kind value IHk IHv
                    |lhs rhs IHl IHr|object property IHo IHp|cs IH]
    using ESNode_nested_ind; intros st Hst; cbn [walk]; apply Hleave.
  - by apply Henter.
  - by apply Henter.
  - by apply (fold_walk_invariant I _ IH), Henter.
  - apply IHb. destruct superClass as [s|]; [apply (IHs s eq_refl)|];
      (destruct ident as [i|]; [apply (IHi i eq_refl)|]); by apply Henter.
  - destruct init as [i|]; [apply (IHn i eq_refl)|]; by apply IHi, Henter.
  - apply IHb, (fold_walk_invariant I _ IHp).
    destruct ident as [i|]; [apply (IHi i eq_refl)|]; by apply Henter.
  - by apply IHv, IHk, Henter.
  - by apply IHr, IHl, Henter.
  - by apply IHp, IHo, Henter.
  - by apply (fold_walk_invariant I _ IH), Henter.
Qed.

Lemma isShortName_length s :
  isShortName s = true → (1 ≤ String.length s ≤ 3)%nat.
Proof.
  unfold isShortName. rewrite !andb_true_iff, !Nat.leb_le. lia.
Qed.

Lemma ensureClass_invariant className m :
  isShortName className = true →
  NoDup m.*1 → Forall (λ kc, wellFormedClass kc.1 kc.2) m →
  NoDup (ensureClass className m).*1
  ∧ Forall (λ kc, wellFormedClass kc.1 kc.2) (ensureClass className m).
Proof.
  intros Hshort Hnd Hwf. unfold ensureClass, classMapHas.
  destruct (bool_decide_reflect (className ∈ m.*1)) as [Hin|Hnin]; [done|]. split.
  - rewrite fmap_app. apply NoDup_app. split; [done|]. split.
    + intros k Hk Hk'. simpl in Hk'. apply list_elem_of_singleton in Hk'. by subst.
    + simpl. apply NoDup_singleton.
  - apply Forall_app. split; [done|]. constructor; [|constructor].
    repeat split; try done; simpl; discriminate.
Qed.

Lemma updateClass_invariant className f m :
  (∀ k c, wellFormedClass k c → wellFormedClass k (f c)) →
  NoDup m.*1 → Forall (λ kc, wellFormedClass kc.1 kc.2) m →
  NoDup (updateClass className f m).*1
  ∧ Forall (λ kc, wellFormedClass kc.1 kc.2) (updateClass className f m).
Proof.
  intros Hf Hnd Hwf. split; [by rewrite updateClass_keys|].
  unfold updateClass. apply Forall_fmap. eapply Forall_impl; [exact Hwf|].
  intros [k c] Hkc. simpl in *. destruct (bool_decide (k = className)); simpl; auto.
Qed.

Lemma wellFormedClass_addProperty p k c :
  wellFormedClass k c → wellFormedClass k (addProperty p c).
Proof. intros (?&?&?&?). by repeat split. Qed.

Lemma wellFormedClass_addMethod p k c :
  wellFormedClass k c → wellFormedClass k (addMethod p c).
Proof. intros (?&?&?&?). by repeat split. Qed.

Lemma wellFormedClass_staticMethod p k c :
  wellFormedClass k c →
  wellFormedClass k
    (if bool_decide (p = "Instance")
     then addStaticProperty "Instance" (setHasInstance (addStaticMethod p c))
     else addStaticMethod p c).
Proof.
  intros (?&?&Hi&Hm). destruct (bool_decide (p = "Instance")); repeat split; simpl; try done.
  - intros _. set_solver.
  - intros Hman. specialize (Hm Hman). set_solver.
Qed.

Lemma wellFormedClass_staticProperty p k c :
  wellFormedClass k c →
  wellFormedClass k
    (let c1 := addStaticProperty p c in
     let c2 := if bool_decide (p = "Instance") then setHasInstance c1 else c1 in
     if bool_decide (p = "Manager") then setHasManager c2 else c2).
Proof.
  intros (?&?&Hi&Hm). cbv zeta.
  destruct (bool_decide_reflect (p = "Instance")) as [Hpi|?];
    destruct (bool_decide_reflect (p = "Manager")) as [Hpm|?];
    repeat split; simpl; try done;
    intros Hflag; try specialize (Hi Hflag); try specialize (Hm Hflag); set_solver.
Qed.

Lemma openCandidate_invariant className st :
  classMapInvariant st → classMapInvariant (openCandidate className st).
Proof.
  intros [Hnd Hwf]. unfold openCandidate. destruct (isShortName className) eqn:Hs; [|done].
  by apply ensureClass_invariant.
Qed.

Lemma enter_invariant node st :
  classMapInvariant st → classMapInvariant (enter node st).
Proof.
  intros H0. unfold enter.
  assert (H1 : classMapInvariant (enterClassDeclaration node st)).
  { unfold enterClassDeclaration. repeat case_match; try done.
    by apply openCandidate_invariant. }
  clear H0. revert H1. generalize (enterClassDeclaration node st). clear st. intros st H0.
  assert (H1 : classMapInvariant (enterVariableDeclarator node st)).
  { unfold enterVariableDeclarator. repeat case_match; try done.
    by apply openCandidate_invariant. }
  clear H0. revert H1. generalize (enterVariableDeclarator node st). clear st. intros st H0.
  assert (H1 : classMapInvariant (enterFunctionDeclaration node st)).
  { unfold enterFunctionDeclaration. repeat case_match; try done.
    by apply openCandidate_invariant. }
  clear H0. revert H1. generalize (enterFunctionDeclaration node st). clear st. intros st H0.
  assert (H1 : classMapInvariant (enterMethodDefinition node st)).
  { unfold enterMethodDefinition.
    destruct node as [| | | | | |static [methodName| | | | | | | | |] kind value| | |];
      try done; try (by destruct (openClass st)).
    destruct (openClass st) as [cc|]; [|done]. destruct H0 as [Hnd Hwf].
    apply updateClass_invariant; [|done..]. intros k c Hkc. destruct static.
    - by apply wellFormedClass_staticMethod.
    - by apply wellFormedClass_addMethod. }
  clear H0. revert H1. generalize (enterMethodDefinition node st). clear st. intros st H0.
  assert (H1 : classMapInvariant (enterAccessor node st)).
  { unfold enterAccessor.
    destruct node as [| | | | | |static [propName| | | | | | | | |] kind value| | |];
      try done; try (by destruct (openClass st)); try (by destruct kind).
    destruct (openClass st) as [cc|]; [|by destruct kind]. destruct H0 as [Hnd Hwf].
    assert (classMapInvariant
              (mkRecoverState
                 (updateClass cc
                    (λ c, if static then
                            let c1 := addStaticProperty propName c in
                            let c2 := if bool_decide (propName = "Instance")
                                      then setHasInstance c1 else c1 in
                            if bool_decide (propName = "Manager") then setHasManager c2 else c2
                          else addProperty propName c) (classMap st)) (currentClass st))).
    { apply updateClass_invariant; [|done..]. intros k c Hkc. destruct static.
      - by apply wellFormedClass_staticProperty.
      - by apply wellFormedClass_addProperty. }
    by destruct kind. }
  clear H0. revert H1. generalize (enterAccessor node st). clear st. intros st H0.
  assert (H1 : classMapInvariant (enterPrototypeAssignment node st)).
  { unfold enterPrototypeAssignment. repeat case_match; try done.
    destruct H0 as [Hnd Hwf].
    match goal with H : _ && _ = true |- _ => apply andb_true_iff in H as [_ Hs] end.
    destruct (ensureClass_invariant _ _ Hs Hnd Hwf) as [Hnd' Hwf'].
    apply updateClass_invariant; [|done..]. intros k c. apply wellFormedClass_addMethod. }
  clear H0. revert H1. generalize (enterPrototypeAssignment node st). clear st. intros st H0.
  assert (H1 : classMapInvariant (enterStaticAssignment node st)).
  { unfold enterStaticAssignment. repeat case_match; try done.
    all: destruct H0 as [Hnd Hwf].
    all: match goal with H : isShortName _ = true |- _ => rename H into Hs end.
    all: destruct (ensureClass_invariant _ _ Hs Hnd Hwf) as [Hnd' Hwf'].
    all: apply updateClass_invariant; [|done..]; intros k c Hkc.
    all: match goal with |- context [addStaticProperty ?p _] =>
           pose proof (wellFormedClass_staticProperty p k c Hkc) as Hw end.
    all: cbv zeta in Hw.
    all: repeat match goal with H : bool_decide _ = _ |- _ => rewrite H in Hw; clear H end.
    all: exact Hw. }
  clear H0. revert H1. generalize (enterStaticAssignment node st). clear st. intros st H0.
  unfold enterThisAssignment. repeat case_match; try done; destruct H0 as [Hnd Hwf].
  - apply updateClass_invariant; [|done..]. intros k c. apply wellFormedClass_addProperty.
  - split; simpl.
    + rewrite <- list_fmap_compose. exact Hnd.
    + apply Forall_fmap. eapply Forall_impl; [exact Hwf|]. intros [k c] Hkc. simpl in *.
      by apply wellFormedClass_addProperty.
Qed.

Lemma leave_invariant node st :
  classMapInvariant st → classMapInvariant (leave node st).
Proof. intros H. unfold leave. by repeat case_match. Qed.

Lemma walk_classMapInvariant ast :
  classMapInvariant (walk ast (mkRecoverState [] None)).
Proof.
  apply (walk_invariant classMapInvariant enter_invariant leave_invariant).
  split; simpl; constructor.
Qed.

Lemma NoDup_fmap_filter {A B} (f : A → B) (p : A → bool) (l : list A) :
  NoDup (f <$> l) → NoDup (f <$> List.filter p l).
Proof.
  induction l as [|a l IH]; simpl; [done|]. rewrite NoDup_cons. intros [Hnin Hnd].
  destruct (p a); simpl; [|by apply IH]. apply NoDup_cons. split; [|by apply IH].
  intros Hin. apply Hnin. apply list_elem_of_fmap in Hin as (x & -> & Hx).
  apply list_elem_of_fmap. exists x. split; [done|].
  apply list_elem_of_In, filter_In in Hx as [Hx _]. by apply list_elem_of_In.
Qed.

(** X9: whatever bundle is parsed, the recovered classes have pairwise
    distinct names, every name is one to three letters, and a class flagged
    [hasInstance] (resp. [hasManager]) lists [Instance] (resp. [Manager])
    among its static properties. *)
Theorem X9_recovered_classes_well_formed
    (acornParse : JSString → option ES.Node) (clientCode : JSString) :
  let classes := parseClientForClasses acornParse clientCode in
  NoDup (ClientClass.name <$> classes)
  ∧ Forall (λ c,
      isShortName (ClientClass.name c) = true
      ∧ (1 ≤ String.length (ClientClass.name c) ≤ 3)%nat
      ∧ (ClientClass.hasInstance c = true → "Instance" ∈ ClientClass.staticProperties c)
      ∧ (ClientClass.hasManager c = true → "Manager" ∈ ClientClass.staticProperties c))
      classes.
Proof.
  unfold parseClientForClasses. destruct (acornParse clientCode) as [ast|]; cbv zeta;
    [|split; constructor].
  unfold recoverClasses. destruct (walk_classMapInvariant ast) as [Hnd Hwf].
  revert Hnd Hwf. generalize (classMap (walk ast (mkRecoverState [] None))). intros m Hnd Hwf.
  split.
  - apply NoDup_fmap_filter. rewrite <- list_fmap_compose.
    replace (ClientClass.name ∘ snd <$> m) with (m.*1); [done|].
    apply Forall_fmap_ext_1. eapply Forall_impl; [exact Hwf|].
    intros [k c] (Hname & _). simpl in *. done.
  - apply Forall_forall. intros c Hc. apply list_elem_of_In, filter_In in Hc as [Hc _].
    apply list_elem_of_In, list_elem_of_fmap in Hc as ([k c'] & -> & Hkc).
    rewrite Forall_forall in Hwf. specialize (Hwf _ Hkc). simpl in *.
    destruct Hwf as (Hname & Hs & Hi & Hm). subst k.
    split; [done|]. split; [by apply isShortName_length|]. done.
Qed.

(** *** The recoverer only ever adds *)

Lemma classIncluded_refl c : classIncluded c c.
Proof. by repeat split. Qed.

Lemma classIncluded_trans c1 c2 c3 :
  classIncluded c1 c2 → classIncluded c2 c3 → classIncluded c1 c3.
Proof.
  intros (?&?&?&?&?&?&?) (?&?&?&?&?&?&?).
  repeat split; try (etrans; eassumption); auto.
Qed.

Lemma keepsClasses_refl m : keepsClasses m m.
Proof. intros k c Hc. exists c. split; [done|apply classIncluded_refl]. Qed.

Lemma keepsClasses_trans m1 m2 m3 :
  keepsClasses m1 m2 → keepsClasses m2 m3 → keepsClasses m1 m3.
Proof.
  intros H12 H23 k c Hc. destruct (H12 k c Hc) as (c2 & Hc2 & Hi2).
  destruct (H23 k c2 Hc2) as (c3 & Hc3 & Hi3). exists c3. split; [done|].
  by eapply classIncluded_trans.
Qed.

Lemma keepsClasses_map (f : string → ClientClass.t → ClientClass.t) m :
  (∀ k c, classIncluded c (f k c)) →
  keepsClasses m (map (λ kc, (kc.1, f kc.1 kc.2)) m).
Proof.
  intros Hf k c. induction m as [|[k' c'] m IH]; simpl; [done|].
  destruct (bool_decide (k' = k)); [|exact IH].
  intros [= ->]. eexists. split; [done|]. apply Hf.
Qed.

Lemma keepsClasses_updateClass className f m :
  (∀ c, classIncluded c (f c)) → keepsClasses m (updateClass className f m).
Proof.
  intros Hf k c. unfold updateClass. induction m as [|[k' c'] m IH]; simpl; [done|].
  destruct (bool_decide (k' = className)); simpl;
    (destruct (bool_decide (k' = k)); [|exact IH]);
    intros [= ->]; eexists; (split; [done|]); [apply Hf|apply classIncluded_refl].
Qed.

Lemma keepsClasses_ensureClass className m : keepsClasses m (ensureClass className m).
Proof.
  unfold ensureClass. destruct (classMapHas className m); [apply keepsClasses_refl|].
  intros k c Hc. exists c. split; [|apply classIncluded_refl].
  induction m as [|[k' c'] m IH]; simpl in *; [done|].
  destruct (bool_decide (k' = k)); [done|by apply IH].
Qed.

Lemma classIncluded_addProperty p c : classIncluded c (addProperty p c).
Proof. repeat split; simpl; try done. set_solver. Qed.

Lemma classIncluded_addMethod p c : classIncluded c (addMethod p c).
Proof. repeat split; simpl; try done. set_solver. Qed.

Lemma classIncluded_addStaticProperty p c : classIncluded c (addStaticProperty p c).
Proof. repeat split; simpl; try done. set_solver. Qed.

Lemma classIncluded_addStaticMethod p c : classIncluded c (addStaticMethod p c).
Proof. repeat split; simpl; try done. set_solver. Qed.

Lemma classIncluded_setHasInstance c : classIncluded c (setHasInstance c).
Proof. by repeat split. Qed.

Lemma classIncluded_setHasManager c : classIncluded c (setHasManager c).
Proof. by repeat split. Qed.

Lemma classIncluded_staticProperty p c :
  classIncluded c
    (let c1 := addStaticProperty p c in
     let c2 := if bool_decide (p = "Instance") then setHasInstance c1 else c1 in
     if bool_decide (p = "Manager") then setHasManager c2 else c2).
Proof.
  cbv zeta.
  destruct (bool_decide (p = "Instance")); destruct (bool_decide (p = "Manager"));
    repeat (eapply classIncluded_trans;
            [|first [apply classIncluded_setHasManager|apply classIncluded_setHasInstance]]);
    apply classIncluded_addStaticProperty.
Qed.

Lemma classIncluded_staticMethod p c :
  classIncluded c
    (if bool_decide (p = "Instance")
     then addStaticProperty "Instance" (setHasInstance (addStaticMethod p c))
     else addStaticMethod p c).
Proof.
  destruct (bool_decide (p = "Instance")); [|apply classIncluded_addStaticMethod].
  eapply classIncluded_trans; [apply classIncluded_addStaticMethod|].
  eapply classIncluded_trans; [apply classIncluded_setHasInstance|].
  apply classIncluded_addStaticProperty.
Qed.

Lemma openCandidate_keeps className st :
  keepsClasses (classMap st) (classMap (openCandidate className st)).
Proof.
  unfold openCandidate. destruct (isShortName className); [|apply keepsClasses_refl].
  apply keepsClasses_ensureClass.
Qed.

Lemma enter_keeps node st : keepsClasses (classMap st) (classMap (enter node st)).
Proof.
  unfold enter.
  eapply keepsClasses_trans; [|
    unfold enterThisAssignment; repeat case_match; try apply keepsClasses_refl; simpl;
    [apply keepsClasses_updateClass, classIncluded_addProperty
    |apply (keepsClasses_map (λ _, addProperty _)); intros; apply classIncluded_addProperty]].
  eapply keepsClasses_trans; [|
    unfold enterStaticAssignment;
    destruct node as [| | | | | | |[| | | | | | | |[n| | | | | | | | |] [p| | | | | | | | |]|] rhs| |];
    try apply keepsClasses_refl;
    destruct (isShortName n); try apply keepsClasses_refl; simpl;
    (eapply keepsClasses_trans; [apply keepsClasses_ensureClass|]);
    apply keepsClasses_updateClass; intros c; apply classIncluded_staticProperty].
  eapply keepsClasses_trans; [|
    unfold enterPrototypeAssignment; repeat case_match; try apply keepsClasses_refl; simpl;
    (eapply keepsClasses_trans; [apply keepsClasses_ensureClass|]);
    apply keepsClasses_updateClass; intros c; apply classIncluded_addMethod].
  eapply keepsClasses_trans; [|
    unfold enterAccessor;
    destruct node as [| | | | | |static [p| | | | | | | | |] kind value| | |];
    try apply keepsClasses_refl; try (destruct (openClass _); apply keepsClasses_refl);
    destruct (openClass _); [|destruct kind; apply keepsClasses_refl];
    destruct kind; try apply keepsClasses_refl; simpl;
    apply keepsClasses_updateClass; intros c; destruct static;
    first [apply classIncluded_staticProperty|apply classIncluded_addProperty]].
  eapply keepsClasses_trans; [|
    unfold enterMethodDefinition;
    destruct node as [| | | | | |static [p| | | | | | | | |] kind value| | |];
    try apply keepsClasses_refl; try (destruct (openClass _); apply keepsClasses_refl);
    destruct (openClass _); [|apply keepsClasses_refl]; simpl;
    apply keepsClasses_updateClass; intros c; destruct static;
    first [apply classIncluded_staticMethod|apply classIncluded_addMethod]].
  eapply keepsClasses_trans; [|
    unfold enterFunctionDeclaration; repeat case_match; try apply keepsClasses_refl;
    apply openCandidate_keeps].
  eapply keepsClasses_trans; [|
    unfold enterVariableDeclarator; repeat case_match; try apply keepsClasses_refl;
    apply openCandidate_keeps].
  unfold enterClassDeclaration; repeat case_match; try apply keepsClasses_refl;
    apply openCandidate_keeps.
Qed.

Lemma leave_classMap node st : classMap (leave node st) = classMap st.
Proof. unfold leave. by repeat case_match. Qed.

(** X10: the recoverer only ever adds.  Whatever class is known before a
    subtree is walked is still known afterwards, under the same name and with
    at least the same properties, methods, static members and flags. *)
Theorem X10_recovery_only_adds (node : ES.Node) (st : RecoverState)
    (k : string) (c : ClientClass.t) :
  classMapGet k (classMap st) = Some c →
  ∃ c', classMapGet k (classMap (walk node st)) = Some c' ∧ classIncluded c c'.
Proof.
  revert k c. change (keepsClasses (classMap st) (classMap (walk node st))).
  apply (walk_invariant (λ st', keepsClasses (classMap st) (classMap st'))).
  - intros n st' H. eapply keepsClasses_trans; [exact H|apply enter_keeps].
  - intros n st' H. by rewrite leave_classMap.
  - apply keepsClasses_refl.
Qed.

Lemma X10_recovery_only_adds_witness :
  ∃ c', classMapGet "A"
          (classMap (walk getterExample (mkRecoverState [("A", emptyClass "A")] None)))
        = Some c'
        ∧ classIncluded (emptyClass "A") c'.
Proof.
  apply (X10_recovery_only_adds getterExample
           (mkRecoverState [("A", emptyClass "A")] None) "A" (emptyClass "A")).
  reflexivity.
Defined.

(** *** The lists of a match report *)

Lemma fold_left_projection {St A} (proj : St → A) (step : St → string → St)
    (g : A → string → A) :
  (∀ s x, proj (step s x) = g (proj s) x) →
  ∀ l s, proj (fold_left step l s) = fold_left g l (proj s).
Proof.
  intros Hstep l. induction l as [|x l IH]; intros s; simpl; [done|].
  by rewrite IH, Hstep.
Qed.

Lemma fold_left_unchanged {St A} (proj : St → A) (step : St → string → St) :
  (∀ s x, proj (step s x) = proj s) →
  ∀ l s, proj (fold_left step l s) = proj s.
Proof.
  intros Hstep l. induction l as [|x l IH]; intros s; simpl; [done|].
  by rewrite IH, Hstep.
Qed.

Lemma forOptional_projection {A} (proj : ScoreState → A) step
    (g : A → string → A) field s :
  (∀ s x, proj (step s x) = g (proj s) x) →
  proj (forOptional step field s) = fold_left g (default [] field) (proj s).
Proof.
  intros Hstep. destruct field as [xs|]; simpl; [|done].
  by apply fold_left_projection.
Qed.

Lemma forOptional_unchanged {A} (proj : ScoreState → A) step field s :
  (∀ s x, proj (step s x) = proj s) →
  proj (forOptional step field s) = proj s.
Proof.
  intros Hstep. destruct field as [xs|]; simpl; [|done].
  by apply fold_left_unchanged.
Qed.

Section ListSteps.
Context (P : string → Prop) `{!∀ x, Decision (P x)}.

Lemma fold_requiredListsStep l a :
  fold_left (requiredListsStep P) l a
  = (a.1 ++ filter P l, a.2 ++ filter (λ x, ¬ P x) l).
Proof.
  revert a. induction l as [|x l IH]; intros [a1 a2]; simpl.
  - by rewrite !app_nil_r.
  - rewrite IH. unfold requiredListsStep. rewrite !filter_cons.
    destruct (decide (P x)) as [HP|HP]; simpl.
    + rewrite decide_False by tauto. by rewrite <- app_assoc.
    + rewrite decide_True by done. by rewrite <- app_assoc.
Qed.

Lemma elem_of_pushUnlessIncluded arr x y :
  y ∈ pushUnlessIncluded arr x ↔ y ∈ arr ∨ y = x.
Proof.
  unfold pushUnlessIncluded. destruct (decide (x ∈ arr)) as [Hin|Hnin].
  - split; [by left|]. intros [?| ->]; done.
  - rewrite elem_of_app, list_elem_of_singleton. done.
Qed.

Lemma NoDup_pushUnlessIncluded arr x : NoDup arr → NoDup (pushUnlessIncluded arr x).
Proof.
  intros Hnd. unfold pushUnlessIncluded. destruct (decide (x ∈ arr)) as [Hin|Hnin]; [done|].
  apply NoDup_app. split; [done|]. split; [|apply NoDup_singleton].
  intros y Hy Hy'. apply list_elem_of_singleton in Hy'. by subst.
Qed.

Lemma fold_curatedListsStep_matched required l a y :
  y ∈ (fold_left (curatedListsStep P required) l a).1 ↔ y ∈ a.1 ∨ (y ∈ l ∧ P y).
Proof.
  revert a. induction l as [|x l IH]; intros [a1 a2]; simpl.
  - split; [by left|]. intros [?|[Hy _]]; [done|]. by apply elem_of_nil in Hy.
  - rewrite IH. unfold curatedListsStep. rewrite elem_of_cons.
    destruct (decide (P x)) as [HP|HP]; simpl.
    + rewrite elem_of_pushUnlessIncluded. split.
      * intros [[?| ->]|[? ?]]; auto.
      * intros [?|[[->|?] ?]]; auto.
    + destruct (decide (x ∈ required)); simpl; split.
      * intros [?|[? ?]]; auto.
      * intros [?|[[->|?] ?]]; auto; done.
      * intros [?|[? ?]]; auto.
      * intros [?|[[->|?] ?]]; auto; done.
Qed.

Lemma fold_curatedListsStep_missing required l a y :
  y ∈ (fold_left (curatedListsStep P required) l a).2
  ↔ y ∈ a.2 ∨ (y ∈ l ∧ ¬ P y ∧ y ∉ required).
Proof.
  revert a. induction l as [|x l IH]; intros [a1 a2]; simpl.
  - split; [by left|]. intros [?|[Hy _]]; [done|]. by apply elem_of_nil in Hy.
  - rewrite IH. unfold curatedListsStep. rewrite elem_of_cons.
    destruct (decide (P x)) as [HP|HP]; simpl.
    + split.
      * intros [?|(?&?&?)]; auto.
      * intros [?|([->|?]&?&?)]; auto; done.
    + destruct (decide (x ∈ required)) as [Hr|Hr]; simpl.
      * split.
        -- intros [?|(?&?&?)]; auto.
        -- intros [?|([->|?]&?&?)]; auto; done.
      * rewrite elem_of_app, list_elem_of_singleton. split.
        -- intros [[?| ->]|(?&?&?)]; auto.
        -- intros [?|([->|?]&?&?)]; auto.
Qed.

Lemma fold_curatedListsStep_NoDup required l a :
  NoDup a.1 → NoDup (fold_left (curatedListsStep P required) l a).1.
Proof.
  revert a. induction l as [|x l IH]; intros [a1 a2] Hnd; simpl; [done|].
  apply IH. unfold curatedListsStep. destruct (decide (P x)); simpl.
  - by apply NoDup_pushUnlessIncluded.
  - by destruct (decide (x ∈ required)).
Qed.
End ListSteps.

Lemma propertyLists_required c s x :
  propertyLists (requiredPropertyStep c s x)
  = requiredListsStep (hasProperty c) (propertyLists s) x.
Proof.
  unfold requiredPropertyStep, requiredListsStep, propertyLists.
  by destruct (decide (hasProperty c x)).
Qed.

Lemma methodLists_required c s x :
  methodLists (requiredMethodStep c s x)
  = requiredListsStep (hasMethod c) (methodLists s) x.
Proof.
  unfold requiredMethodStep, requiredListsStep, methodLists.
  by destruct (decide (hasMethod c x)).
Qed.

Lemma propertyLists_knownProperty c req s x :
  propertyLists (knownPropertyStep c req s x)
  = curatedListsStep (hasProperty c) req (propertyLists s) x.
Proof.
  unfold knownPropertyStep, curatedListsStep, propertyLists.
  destruct (decide (hasProperty c x)); [done|]. by destruct (decide (x ∈ req)).
Qed.

Lemma propertyLists_knownStaticProperty c req s x :
  propertyLists (knownStaticPropertyStep c req s x)
  = curatedListsStep (.∈ ClientClass.staticProperties c) req (propertyLists s) x.
Proof.
  unfold knownStaticPropertyStep, curatedListsStep, propertyLists.
  destruct (decide (x ∈ ClientClass.staticProperties c)); [done|].
  by destruct (decide (x ∈ req)).
Qed.

Lemma methodLists_knownMethod c req s x :
  methodLists (knownMethodStep c req s x)
  = curatedListsStep (hasMethod c) req (methodLists s) x.
Proof.
  unfold knownMethodStep, curatedListsStep, methodLists.
  destruct (decide (hasMethod c x)); [done|]. by destruct (decide (x ∈ req)).
Qed.

Lemma methodLists_knownStaticMethod c req s x :
  methodLists (knownStaticMethodStep c req s x)
  = curatedListsStep (.∈ ClientClass.staticMethods c) req (methodLists s) x.
Proof.
  unfold knownStaticMethodStep, curatedListsStep, methodLists.
  destruct (decide (x ∈ ClientClass.staticMethods c)); [done|].
  by destruct (decide (x ∈ req)).
Qed.

Lemma methodLists_requiredProperty c s x :
  methodLists (requiredPropertyStep c s x) = methodLists s.
Proof. unfold requiredPropertyStep, methodLists. by destruct (decide _). Qed.

Lemma propertyLists_requiredMethod c s x :
  propertyLists (requiredMethodStep c s x) = propertyLists s.
Proof. unfold requiredMethodStep, propertyLists. by destruct (decide _). Qed.

Lemma methodLists_knownProperty c req s x :
  methodLists (knownPropertyStep c req s x) = methodLists s.
Proof. unfold knownPropertyStep, methodLists. by repeat destruct (decide _). Qed.

Lemma methodLists_knownStaticProperty c req s x :
  methodLists (knownStaticPropertyStep c req s x) = methodLists s.
Proof. unfold knownStaticPropertyStep, methodLists. by repeat destruct (decide _). Qed.

Lemma propertyLists_knownMethod c req s x :
  propertyLists (knownMethodStep c req s x) = propertyLists s.
Proof. unfold knownMethodStep, propertyLists. by repeat destruct (decide _). Qed.

Lemma propertyLists_knownStaticMethod c req s x :
  propertyLists (knownStaticMethodStep c req s x) = propertyLists s.
Proof. unfold knownStaticMethodStep, propertyLists. by repeat destruct (decide _). Qed.

(** The property lists of a report, as folds over the usage and the curated
    lists. *)
Lemma report_propertyLists known u c h :
  let r := calculateMatchScoreIn known u c h in
  let required := elements (GameHookUsage.properties u) in
  (ClassMatch.matchedProperties r, ClassMatch.missingProperties r)
  = fold_left (curatedListsStep (.∈ ClientClass.staticProperties c) required)
      (curatedStaticProperties known h)
      (fold_left (curatedListsStep (hasProperty c) required)
         (curatedProperties known h)
         (filter (hasProperty c) required, filter (λ x, ¬ hasProperty c x) required)).
Proof.
  cbv zeta. unfold calculateMatchScoreIn, curatedStaticProperties, curatedProperties,
    knownInfoFor, knownInfoBlock.
  cbn [ClassMatch.matchedProperties ClassMatch.missingProperties].
  set (required := elements (GameHookUsage.properties u)).
  set (s1 := fold_left (requiredPropertyStep c) required _).
  set (s2 := fold_left (requiredMethodStep c) _ s1).
  assert (Hs2 : propertyLists s2
                = (filter (hasProperty c) required, filter (λ x, ¬ hasProperty c x) required)).
  { unfold s2. rewrite (fold_left_unchanged propertyLists _ (propertyLists_requiredMethod c)).
    unfold s1.
    rewrite (fold_left_projection propertyLists _ _ (propertyLists_required c)).
    by rewrite fold_requiredListsStep. }
  rewrite <- Hs2. destruct (List.find _ known) as [k|]; [|done]. cbv zeta.
  change (?a, ?b) with (propertyLists
    (forOptional (knownStaticMethodStep c (elements (GameHookUsage.methods u)))
       (KnownClassInfo.staticMethods k)
       (forOptional (knownMethodStep c (elements (GameHookUsage.methods u)))
          (KnownClassInfo.methods k)
          (forOptional (knownStaticPropertyStep c required)
             (KnownClassInfo.staticProperties k)
             (forOptional (knownPropertyStep c required) (KnownClassInfo.properties k) s2))))).
  rewrite (forOptional_unchanged propertyLists _ _ _ (propertyLists_knownStaticMethod c _)).
  rewrite (forOptional_unchanged propertyLists _ _ _ (propertyLists_knownMethod c _)).
  rewrite (forOptional_projection propertyLists _ _ _ _ (propertyLists_knownStaticProperty c _)).
  by rewrite (forOptional_projection propertyLists _ _ _ _ (propertyLists_knownProperty c _)).
Qed.

Lemma report_methodLists known u c h :
  let r := calculateMatchScoreIn known u c h in
  let required := elements (GameHookUsage.methods u) in
  (ClassMatch.matchedMethods r, ClassMatch.missingMethods r)
  = fold_left (curatedListsStep (.∈ ClientClass.staticMethods c) required)
      (curatedStaticMethods known h)
      (fold_left (curatedListsStep (hasMethod c) required)
         (curatedMethods known h)
         (filter (hasMethod c) required, filter (λ x, ¬ hasMethod c x) required)).
Proof.
  cbv zeta. unfold calculateMatchScoreIn, curatedStaticMethods, curatedMethods,
    knownInfoFor, knownInfoBlock.
  cbn [ClassMatch.matchedMethods ClassMatch.missingMethods].
  set (required := elements (GameHookUsage.methods u)).
  set (s1 := fold_left (requiredPropertyStep c) _ _).
  set (s2 := fold_left (requiredMethodStep c) required s1).
  assert (Hs2 : methodLists s2
                = (filter (hasMethod c) required, filter (λ x, ¬ hasMethod c x) required)).
  { unfold s2.
    rewrite (fold_left_projection methodLists _ _ (methodLists_required c)).
    unfold s1. rewrite (fold_left_unchanged methodLists _ (methodLists_requiredProperty c)).
    by rewrite fold_requiredListsStep. }
  rewrite <- Hs2. destruct (List.find _ known) as [k|]; [|done]. cbv zeta.
  change (?a, ?b) with (methodLists
    (forOptional (knownStaticMethodStep c required)
       (KnownClassInfo.staticMethods k)
       (forOptional (knownMethodStep c required)
          (KnownClassInfo.methods k)
          (forOptional (knownStaticPropertyStep c (elements (GameHookUsage.properties u)))
             (KnownClassInfo.staticProperties k)
             (forOptional (knownPropertyStep c (elements (GameHookUsage.properties u)))
                (KnownClassInfo.properties k) s2))))).
  rewrite (forOptional_projection methodLists _ _ _ _ (methodLists_knownStaticMethod c _)).
  rewrite (forOptional_projection methodLists _ _ _ _ (methodLists_knownMethod c _)).
  rewrite (forOptional_unchanged methodLists _ _ _ (methodLists_knownStaticProperty c _)).
  by rewrite (forOptional_unchanged methodLists _ _ _ (methodLists_knownProperty c _)).
Qed.

Lemma report_matchedProperties known u c h p :
  p ∈ ClassMatch.matchedProperties (calculateMatchScoreIn known u c h) ↔
  ((p ∈ GameHookUsage.properties u ∨ p ∈ curatedProperties known h) ∧ hasProperty c p)
  ∨ (p ∈ curatedStaticProperties known h ∧ p ∈ ClientClass.staticProperties c).
Proof.
  pose proof (f_equal fst (report_propertyLists known u c h)) as HP.
  cbv zeta in HP. cbn [fst] in HP.
  rewrite HP, !fold_curatedListsStep_matched. simpl.
  rewrite list_elem_of_filter, elem_of_elements. unfold hasProperty. tauto.
Qed.

Lemma report_matchedMethods known u c h m :
  m ∈ ClassMatch.matchedMethods (calculateMatchScoreIn known u c h) ↔
  ((m ∈ GameHookUsage.methods u ∨ m ∈ curatedMethods known h) ∧ hasMethod c m)
  ∨ (m ∈ curatedStaticMethods known h ∧ m ∈ ClientClass.staticMethods c).
Proof.
  pose proof (f_equal fst (report_methodLists known u c h)) as HM.
  cbv zeta in HM. cbn [fst] in HM.
  rewrite HM, !fold_curatedListsStep_matched. simpl.
  rewrite list_elem_of_filter, elem_of_elements. unfold hasMethod. tauto.
Qed.

(** X11: the four lists of a match report, exactly.  A name is reported as a
    matched property when it is a used or curated plain property that the
    candidate has (instance or static), or a curated static property that
    the candidate has as a static; it is reported missing when it is used
    and the candidate lacks it, or when it is not used and a curated rule
    finds it absent.  The same holds for methods, and no name is reported
    as matched twice. *)
Theorem X11_match_report_lists
    (known : list KnownClassInfo.t) (u : GameHookUsage.t) (c : ClientClass.t) (h : string) :
  let r := calculateMatchScoreIn known u c h in
  NoDup (ClassMatch.matchedProperties r)
  ∧ NoDup (ClassMatch.matchedMethods r)
  ∧ (∀ p, p ∈ ClassMatch.matchedProperties r ↔
          ((p ∈ GameHookUsage.properties u ∨ p ∈ curatedProperties known h)
           ∧ hasProperty c p)
          ∨ (p ∈ curatedStaticProperties known h ∧ p ∈ ClientClass.staticProperties c))
  ∧ (∀ m, m ∈ ClassMatch.matchedMethods r ↔
          ((m ∈ GameHookUsage.methods u ∨ m ∈ curatedMethods known h) ∧ hasMethod c m)
          ∨ (m ∈ curatedStaticMethods known h ∧ m ∈ ClientClass.staticMethods c))
  ∧ (∀ p, p ∈ ClassMatch.missingProperties r ↔
          (p ∈ GameHookUsage.properties u ∧ ¬ hasProperty c p)
          ∨ ((p ∉ GameHookUsage.properties u)
             ∧ ((p ∈ curatedProperties known h ∧ ¬ hasProperty c p)
                ∨ (p ∈ curatedStaticProperties known h
                   ∧ p ∉ ClientClass.staticProperties c))))
  ∧ (∀ m, m ∈ ClassMatch.missingMethods r ↔
          (m ∈ GameHookUsage.methods u ∧ ¬ hasMethod c m)
          ∨ ((m ∉ GameHookUsage.methods u)
             ∧ ((m ∈ curatedMethods known h ∧ ¬ hasMethod c m)
                ∨ (m ∈ curatedStaticMethods known h
                   ∧ m ∉ ClientClass.staticMethods c)))).
Proof.
  intros r.
  pose proof (report_propertyLists known u c h) as HP.
  pose proof (report_methodLists known u c h) as HM. cbv zeta in HP, HM. fold r in HP, HM.
  assert (HP1 := f_equal fst HP). assert (HP2 := f_equal snd HP).
  assert (HM1 := f_equal fst HM). assert (HM2 := f_equal snd HM).
  cbn [fst snd] in HP1, HP2, HM1, HM2. clear HP HM.
  repeat split.
  - rewrite HP1. do 2 apply fold_curatedListsStep_NoDup. simpl.
    apply NoDup_filter, NoDup_elements.
  - rewrite HM1. do 2 apply fold_curatedListsStep_NoDup. simpl.
    apply NoDup_filter, NoDup_elements.
  - apply report_matchedProperties.
  - apply report_matchedProperties.
  - apply report_matchedMethods.
  - apply report_matchedMethods.
  - rewrite HP2, !fold_curatedListsStep_missing. simpl.
    rewrite list_elem_of_filter, !elem_of_elements.
    destruct (decide (p ∈ GameHookUsage.properties u)); tauto.
  - rewrite HP2, !fold_curatedListsStep_missing. simpl.
    rewrite list_elem_of_filter, !elem_of_elements.
    destruct (decide (p ∈ GameHookUsage.properties u)); tauto.
  - rewrite HM2, !fold_curatedListsStep_missing. simpl.
    rewrite list_elem_of_filter, !elem_of_elements.
    destruct (decide (m ∈ GameHookUsage.methods u)); tauto.
  - rewrite HM2, !fold_curatedListsStep_missing. simpl.
    rewrite list_elem_of_filter, !elem_of_elements.
    destruct (decide (m ∈ GameHookUsage.methods u)); tauto.
Qed.

(** *** Score and report *)

Lemma countWhere_positive (P : string → Prop) `{!∀ x, Decision (P x)} l :
  (0 < countWhere P l)%Z ↔ ∃ x, x ∈ l ∧ P x.
Proof.
  induction l as [|x l IH].
  - change (countWhere P []) with 0%Z. split; [lia|]. intros (x & Hx & _).
    by apply elem_of_nil in Hx.
  - rewrite countWhere_cons. pose proof (countWhere_nonneg P l) as Hnn.
    destruct (decide (P x)) as [HP|HP].
    + split; [|lia]. intros _. exists x. split; [left|done].
    + split.
      * intros Hpos. destruct (proj1 IH) as (y & Hy & HPy); [lia|].
        exists y. split; [by right|done].
      * intros (y & Hy & HPy). apply elem_of_cons in Hy as [->|Hy]; [done|].
        assert (0 < countWhere P l)%Z by (apply IH; eauto). lia.
Qed.

Lemma countWhere_mono (P Q : string → Prop)
    `{!∀ x, Decision (P x)} `{!∀ x, Decision (Q x)} l :
  (∀ x, P x → Q x) → (countWhere P l ≤ countWhere Q l)%Z.
Proof.
  intros HPQ. induction l as [|x l IH]; [done|].
  rewrite !countWhere_cons.
  destruct (decide (P x)) as [HP|HP], (decide (Q x)) as [HQ|HQ]; try lia.
  exfalso. auto.
Qed.

Lemma otherCuratedPoints_lists known c h :
  otherCuratedPoints known c h
  = (3 * countWhere (.∈ ClientClass.staticProperties c) (curatedStaticProperties known h)
     + 2 * countWhere (hasMethod c) (curatedMethods known h)
     + 2 * countWhere (.∈ ClientClass.staticMethods c) (curatedStaticMethods known h))%Z.
Proof.
  unfold otherCuratedPoints, curatedStaticProperties, curatedMethods, curatedStaticMethods.
  destruct (knownInfoFor known h); [done|].
  change (countWhere _ []) with 0%Z. lia.
Qed.

Lemma instanceBonus_cases req c :
  (instanceBonus req c = 5%Z ∧ "Instance" ∈ req ∧ ClientClass.hasInstance c = true)
  ∨ instanceBonus req c = 0%Z.
Proof.
  unfold instanceBonus. destruct (decide _); [|by right].
  destruct (ClientClass.hasInstance c); [by left|by right].
Qed.

Lemma managerBonus_cases req c :
  (managerBonus req c = 3%Z ∧ "Manager" ∈ req ∧ ClientClass.hasManager c = true)
  ∨ managerBonus req c = 0%Z.
Proof.
  unfold managerBonus. destruct (decide _); [|by right].
  destruct (ClientClass.hasManager c); [by left|by right].
Qed.

Lemma list_nonempty_elem {A} (l : list A) : l ≠ [] ↔ ∃ x, x ∈ l.
Proof.
  destruct l as [|a l]; split; try done.
  - intros (x & Hx). by apply elem_of_nil in Hx.
  - intros _. exists a. left.
Qed.

(** X12: for a candidate whose [hasInstance] and [hasManager] flags are
    backed by the static properties [Instance] and [Manager] (as they are for
    every recovered class), the score is never negative, and it is positive
    exactly when the report lists at least one matched property or method. *)
Theorem X12_positive_score_iff_matched
    (known : list KnownClassInfo.t) (u : GameHookUsage.t) (c : ClientClass.t) (h : string) :
  (ClientClass.hasInstance c = true → "Instance" ∈ ClientClass.staticProperties c) →
  (ClientClass.hasManager c = true → "Manager" ∈ ClientClass.staticProperties c) →
  let r := calculateMatchScoreIn known u c h in
  (0 ≤ ClassMatch.matchScore r)%Z
  ∧ ((0 < ClassMatch.matchScore r)%Z
     ↔ ClassMatch.matchedProperties r ≠ [] ∨ ClassMatch.matchedMethods r ≠ []).
Proof.
  intros Hinst Hman r. unfold r.
  rewrite matchScore_closed_form, otherCuratedPoints_lists. unfold usagePoints.
  rewrite !list_nonempty_elem.
  pose proof (countWhere_positive (hasProperty c) (elements (GameHookUsage.properties u))) as P1.
  pose proof (countWhere_positive (hasMethod c) (elements (GameHookUsage.methods u))) as P2.
  pose proof (countWhere_positive (hasProperty c) (curatedProperties known h)) as P3.
  pose proof (countWhere_positive (.∈ ClientClass.staticProperties c)
                (curatedStaticProperties known h)) as P4.
  pose proof (countWhere_positive (hasMethod c) (curatedMethods known h)) as P5.
  pose proof (countWhere_positive (.∈ ClientClass.staticMethods c)
                (curatedStaticMethods known h)) as P6.
  pose proof (countWhere_nonneg (hasProperty c) (elements (GameHookUsage.properties u))).
  pose proof (countWhere_nonneg (hasMethod c) (elements (GameHookUsage.methods u))).
  pose proof (countWhere_nonneg (hasProperty c) (curatedProperties known h)).
  pose proof (countWhere_nonneg (.∈ ClientClass.staticProperties c)
                (curatedStaticProperties known h)).
  pose proof (countWhere_nonneg (hasMethod c) (curatedMethods known h)).
  pose proof (countWhere_nonneg (.∈ ClientClass.staticMethods c)
                (curatedStaticMethods known h)).
  set (n1 := countWhere (hasProperty c) (elements (GameHookUsage.properties u))) in *.
  set (n2 := countWhere (hasMethod c) (elements (GameHookUsage.methods u))) in *.
  set (n3 := countWhere (hasProperty c) (curatedProperties known h)) in *.
  set (n4 := countWhere (.∈ ClientClass.staticProperties c) _) in *.
  set (n5 := countWhere (hasMethod c) (curatedMethods known h)) in *.
  set (n6 := countWhere (.∈ ClientClass.staticMethods c) _) in *.
  destruct (instanceBonus_cases (elements (GameHookUsage.properties u)) c)
    as [(Hib & Hireq & Hiflag)|Hib];
    destruct (managerBonus_cases (elements (GameHookUsage.properties u)) c)
      as [(Hmb & Hmreq & Hmflag)|Hmb];
    rewrite Hib, Hmb; (split; [lia|]); split.
  1, 3, 5: intros _; left.
  1, 2: exists "Instance". 3: exists "Manager".
  1, 2, 3: apply report_matchedProperties; left;
    (split; [left; by apply elem_of_elements|right; auto]).
  4: { intros Hpos.
       destruct (decide (0 < n1)%Z) as [G|]; [apply P1 in G as (x & Hx & HPx); left; exists x;
         apply report_matchedProperties; left; split; [left; by apply elem_of_elements|done]|].
       destruct (decide (0 < n3)%Z) as [G|]; [apply P3 in G as (x & Hx & HPx); left; exists x;
         apply report_matchedProperties; left; split; [by right|done]|].
       destruct (decide (0 < n4)%Z) as [G|]; [apply P4 in G as (x & Hx & HPx); left; exists x;
         apply report_matchedProperties; by right|].
       destruct (decide (0 < n2)%Z) as [G|]; [apply P2 in G as (x & Hx & HPx); right; exists x;
         apply report_matchedMethods; left; split; [left; by apply elem_of_elements|done]|].
       destruct (decide (0 < n5)%Z) as [G|]; [apply P5 in G as (x & Hx & HPx); right; exists x;
         apply report_matchedMethods; left; split; [by right|done]|].
       destruct (decide (0 < n6)%Z) as [G|]; [apply P6 in G as (x & Hx & HPx); right; exists x;
         apply report_matchedMethods; by right|].
       lia. }
  1, 2, 3: lia.
  intros [(x & Hx)|(x & Hx)].
  - apply report_matchedProperties in Hx as [[[Hx|Hx] Hhas]|[Hx Hhas]].
    + assert (0 < n1)%Z; [|lia]. apply P1. exists x. split; [by apply elem_of_elements|done].
    + assert (0 < n3)%Z; [|lia]. apply P3. by exists x.
    + assert (0 < n4)%Z; [|lia]. apply P4. by exists x.
  - apply report_matchedMethods in Hx as [[[Hx|Hx] Hhas]|[Hx Hhas]].
    + assert (0 < n2)%Z; [|lia]. apply P2. exists x. split; [by apply elem_of_elements|done].
    + assert (0 < n5)%Z; [|lia]. apply P5. by exists x.
    + assert (0 < n6)%Z; [|lia]. apply P6. by exists x.
Qed.

Lemma X12_positive_score_iff_matched_witness :
  let r := calculateMatchScoreIn knownClassInfo chatManagerUsage candidateCM "ChatManager" in
  (0 ≤ ClassMatch.matchScore r)%Z
  ∧ ((0 < ClassMatch.matchScore r)%Z
     ↔ ClassMatch.matchedProperties r ≠ [] ∨ ClassMatch.matchedMethods r ≠ []).
Proof.
  apply (X12_positive_score_iff_matched knownClassInfo chatManagerUsage candidateCM
           "ChatManager").
  - intros _. simpl. apply elem_of_singleton. reflexivity.
  - simpl. discriminate.
Defined.

(** X13: recording more members never lowers a score.  If a candidate has
    every member and flag of another, it scores at least as much against any
    usage and any curated table. *)
Theorem X13_score_monotone
    (known : list KnownClassInfo.t) (u : GameHookUsage.t) (c c' : ClientClass.t) (h : string) :
  classIncluded c c' →
  (ClassMatch.matchScore (calculateMatchScoreIn known u c h)
   ≤ ClassMatch.matchScore (calculateMatchScoreIn known u c' h))%Z.
Proof.
  intros (_ & Hp & Hm & Hsp & Hsm & Hi & Hman).
  rewrite !matchScore_closed_form, !otherCuratedPoints_lists. unfold usagePoints.
  assert (HP : ∀ x, hasProperty c x → hasProperty c' x).
  { unfold hasProperty. set_solver. }
  assert (HM : ∀ x, hasMethod c x → hasMethod c' x).
  { unfold hasMethod. set_solver. }
  pose proof (countWhere_mono _ _ (elements (GameHookUsage.properties u)) HP).
  pose proof (countWhere_mono _ _ (elements (GameHookUsage.methods u)) HM).
  pose proof (countWhere_mono _ _ (curatedProperties known h) HP).
  pose proof (countWhere_mono _ _ (curatedMethods known h) HM).
  pose proof (countWhere_mono (.∈ ClientClass.staticProperties c)
                (.∈ ClientClass.staticProperties c') (curatedStaticProperties known h)
                ltac:(set_solver)).
  pose proof (countWhere_mono (.∈ ClientClass.staticMethods c)
                (.∈ ClientClass.staticMethods c') (curatedStaticMethods known h)
                ltac:(set_solver)).
  assert (instanceBonus (elements (GameHookUsage.properties u)) c
          ≤ instanceBonus (elements (GameHookUsage.properties u)) c')%Z.
  { unfold instanceBonus. destruct (decide _); [|lia].
    destruct (ClientClass.hasInstance c); [rewrite Hi by done; lia|].
    destruct (ClientClass.hasInstance c'); lia. }
  assert (managerBonus (elements (GameHookUsage.properties u)) c
          ≤ managerBonus (elements (GameHookUsage.properties u)) c')%Z.
  { unfold managerBonus. destruct (decide _); [|lia].
    destruct (ClientClass.hasManager c); [rewrite Hman by done; lia|].
    destruct (ClientClass.hasManager c'); lia. }
  lia.
Qed.

Lemma X13_score_monotone_witness :
  (ClassMatch.matchScore
     (calculateMatchScoreIn knownClassInfo chatManagerUsage (emptyClass "CM") "ChatManager")
   ≤ ClassMatch.matchScore
       (calculateMatchScoreIn knownClassInfo chatManagerUsage candidateCM "ChatManager"))%Z.
Proof.
  apply (X13_score_monotone knownClassInfo chatManagerUsage (emptyClass "CM") candidateCM
           "ChatManager").
  repeat split; simpl; try done; apply empty_subseteq.
Defined.

(** *** The best match *)

Lemma sortByScore_nil l : sortByScore l = [] → l = [].
Proof.
  intros H. pose proof (sortByScore_perm l) as Hp. rewrite H in Hp.
  by apply Permutation_nil_l in Hp.
Qed.

(** The head of a sorted list is the first element of the input among those
    with the highest score. *)
Lemma sortByScore_head l best rest :
  sortByScore l = best :: rest →
  ∃ pre post,
    l = pre ++ best :: post
    ∧ Forall (λ m, ClassMatch.matchScore m < ClassMatch.matchScore best)%Z pre
    ∧ Forall (λ m, ClassMatch.matchScore m ≤ ClassMatch.matchScore best)%Z post.
Proof.
  revert best rest. induction l as [|m l IH]; intros best rest; [done|].
  change (sortByScore (m :: l)) with (insertByScore m (sortByScore l)).
  destruct (sortByScore l) as [|b r] eqn:Hsort.
  - apply sortByScore_nil in Hsort as ->. simpl. intros [= <- <-].
    exists [], []. repeat split; constructor.
  - destruct (IH b r eq_refl) as (pre & post & -> & Hpre & Hpost). simpl.
    destruct (decide _) as [Hle|Hgt].
    + intros [= <- <-]. exists [], (pre ++ b :: post). split; [done|]. split; [constructor|].
      apply Forall_app. split.
      * eapply Forall_impl; [exact Hpre|]. simpl. intros; lia.
      * constructor; [lia|]. eapply Forall_impl; [exact Hpost|]. simpl. intros; lia.
    + intros [= <- <-]. exists (m :: pre), post. split; [done|]. split; [|done].
      constructor; [lia|done].
Qed.

Lemma filter_map_split {A B} (p : B → bool) (f : A → B) (l : list A) pre' b post' :
  List.filter p (map f l) = pre' ++ b :: post' →
  ∃ pre c post,
    l = pre ++ c :: post ∧ b = f c ∧ p b = true
    ∧ pre' = List.filter p (map f pre) ∧ post' = List.filter p (map f post).
Proof.
  revert pre'. induction l as [|a l IH]; intros pre'; simpl.
  - by destruct pre'.
  - destruct (p (f a)) eqn:Hp.
    + destruct pre' as [|x pre']; simpl.
      * intros [= <- <-]. exists [], a, l. by rewrite Hp.
      * intros [= <- H]. destruct (IH _ H) as (pre & c & post & -> & -> & Hpb & -> & ->).
        exists (a :: pre), c, post. simpl. by rewrite Hp.
    + intros H. destruct (IH _ H) as (pre & c & post & -> & -> & Hpb & -> & ->).
      exists (a :: pre), c, post. simpl. by rewrite Hp.
Qed.

Lemma rankMatches_head u classes h best rest :
  rankMatches u classes h = best :: rest →
  (0 < ClassMatch.matchScore best)%Z
  ∧ ∃ pre c post,
      classes = pre ++ c :: post
      ∧ best = calculateMatchScore u c h
      ∧ (∀ c', c' ∈ pre →
           (ClassMatch.matchScore (calculateMatchScore u c' h)
            < ClassMatch.matchScore best)%Z)
      ∧ (∀ c', c' ∈ post →
           (ClassMatch.matchScore (calculateMatchScore u c' h)
            ≤ ClassMatch.matchScore best)%Z).
Proof.
  unfold rankMatches. intros Hsort.
  apply sortByScore_head in Hsort as (pre' & post' & Hsplit & Hpre & Hpost).
  apply filter_map_split in Hsplit as (pre & c & post & -> & -> & Hpos & -> & ->).
  apply bool_decide_eq_true in Hpos. split; [done|]. exists pre, c, post.
  split; [done|]. split; [done|]. rewrite Forall_forall in Hpre, Hpost. split.
  - intros c' Hc'.
    destruct (decide (0 < ClassMatch.matchScore (calculateMatchScore u c' h))%Z) as [Hp|Hn];
      [|lia].
    apply Hpre, list_elem_of_In, filter_In. split.
    + apply (in_map (λ c, calculateMatchScore u c h)). by apply list_elem_of_In.
    + by apply bool_decide_eq_true.
  - intros c' Hc'.
    destruct (decide (0 < ClassMatch.matchScore (calculateMatchScore u c' h))%Z) as [Hp|Hn];
      [|lia].
    apply Hpost, list_elem_of_In, filter_In. split.
    + apply (in_map (λ c, calculateMatchScore u c h)). by apply list_elem_of_In.
    + by apply bool_decide_eq_true.
Qed.

(** X14: which candidate is suggested.  When no candidate scores above
    zero the ranking is empty; otherwise its head is the report of a
    candidate with a positive score that no earlier candidate reaches and no
    later candidate exceeds: among equal best scores the class recovered
    first wins. *)
Theorem X14_best_match_is_first_maximal
    (u : GameHookUsage.t) (classes : list ClientClass.t) (h : string) :
  match rankMatches u classes h with
  | [] => ∀ c, c ∈ classes → (ClassMatch.matchScore (calculateMatchScore u c h) ≤ 0)%Z
  | best :: _ =>
      (0 < ClassMatch.matchScore best)%Z
      ∧ ∃ pre c post,
          classes = pre ++ c :: post
          ∧ best = calculateMatchScore u c h
          ∧ (∀ c', c' ∈ pre →
               (ClassMatch.matchScore (calculateMatchScore u c' h)
                < ClassMatch.matchScore best)%Z)
          ∧ (∀ c', c' ∈ post →
               (ClassMatch.matchScore (calculateMatchScore u c' h)
                ≤ ClassMatch.matchScore best)%Z)
  end.
Proof.
  destruct (rankMatches u classes h) as [|best rest] eqn:Hrank.
  - intros c Hc.
    destruct (decide (0 < ClassMatch.matchScore (calculateMatchScore u c h))%Z) as [Hp|Hn];
      [|lia].
    pose proof (rankMatches_complete u classes h c Hc Hp) as Hin. rewrite Hrank in Hin.
    by apply elem_of_nil in Hin.
  - by eapply rankMatches_head.
Qed.

(** *** The suggestions of the matching phase *)

Lemma rankMatches_best u classes h best rest :
  rankMatches u classes h = best :: rest →
  (2 ≤ ClassMatch.matchScore best)%Z →
  ClassMatch.clientClassName best ∈ (ClientClass.name <$> classes)
  ∧ bestCandidate u classes h (ClassMatch.clientClassName best).
Proof.
  intros Hrank Hscore.
  destruct (rankMatches_head _ _ _ _ _ Hrank)
    as (_ & pre & c & post & -> & -> & Hpre & Hpost).
  assert (c ∈ pre ++ c :: post) as Hc by set_solver.
  split; [apply list_elem_of_fmap; by exists c|].
  exists c. split; [done|]. split; [done|]. split; [done|].
  intros c' Hc'. apply elem_of_app in Hc' as [Hc'|Hc'].
  - specialize (Hpre _ Hc'). lia.
  - apply elem_of_cons in Hc' as [->|Hc']; [lia|]. by apply Hpost.
Qed.

Lemma suggestStep_lines classMappings clientClasses results h u line :
  line ∈ suggestStep classMappings clientClasses results (h, u) →
  line ∈ results ∨ suggestionFor classMappings clientClasses h u line.
Proof.
  unfold suggestStep, suggestionFor. fold (mappingFor h classMappings).
  destruct (mappingFor h classMappings) as [em|].
  - destruct (List.find _ clientClasses) as [c|] eqn:Hvalid.
    + intros Hin. apply elem_of_app in Hin as [?|Hin]; [by left|right].
      apply list_elem_of_singleton in Hin as ->.
      apply find_some in Hvalid as [Hc Hname]. apply bool_decide_eq_true in Hname.
      exists (ClassMapping.clientClassName em). split.
      * apply list_elem_of_fmap. exists c. split; [done|by apply list_elem_of_In].
      * by left.
    + assert (ClassMapping.clientClassName em ∉ (ClientClass.name <$> clientClasses)) as Hnot.
      { intros Hin. apply list_elem_of_fmap in Hin as (c & Hname & Hc).
        apply list_elem_of_In in Hc.
        pose proof (find_none _ _ Hvalid c Hc) as Hf. simpl in Hf.
        apply bool_decide_eq_false in Hf. done. }
      destruct (rankMatches u clientClasses h) as [|best rest] eqn:Hrank; [by left|].
      destruct (bool_decide_reflect (2 ≤ ClassMatch.matchScore best)%Z) as [Hscore|];
        [|by left].
      destruct (rankMatches_best _ _ _ _ _ Hrank Hscore) as [Hname Hbest].
      destruct (bool_decide _); [|by left].
      intros Hin. apply elem_of_app in Hin as [?|Hin]; [by left|right].
      apply list_elem_of_singleton in Hin as ->.
      exists (ClassMatch.clientClassName best). split; [done|]. by right.
  - destruct (rankMatches u clientClasses h) as [|best rest] eqn:Hrank; [by left|].
    destruct (bool_decide_reflect (2 ≤ ClassMatch.matchScore best)%Z) as [Hscore|];
      [|by left].
    destruct (rankMatches_best _ _ _ _ _ Hrank Hscore) as [Hname Hbest].
    intros Hin. apply elem_of_app in Hin as [?|Hin]; [by left|right].
    apply list_elem_of_singleton in Hin as ->.
    exists (ClassMatch.clientClassName best). by split.
Qed.

Lemma fold_suggestStep_lines classMappings clientClasses entries results line :
  line ∈ fold_left (suggestStep classMappings clientClasses) entries results →
  line ∈ results
  ∨ ∃ h u, (h, u) ∈ entries ∧ suggestionFor classMappings clientClasses h u line.
Proof.
  revert results. induction entries as [|[h u] entries IH]; intros results; simpl.
  - by left.
  - intros Hin. destruct (IH _ Hin) as [Hstep|(h' & u' & Hin' & Hline)].
    + apply suggestStep_lines in Hstep as [?|Hline]; [by left|right].
      exists h, u. split; [left|done].
    + right. exists h', u'. split; [by right|done].
Qed.

(** X15: what a run may suggest.  Every line of [results] concerns a hook
    of the returned usage and names a class recovered from the downloaded
    bundle.  If core.ts maps the hook to a recovered class, the line
    registers that class; if core.ts maps it to a class that is not
    recovered, the line is an UPDATE to a candidate scoring at least 2 that
    no candidate outscores; if core.ts does not map it, the line registers
    such a candidate. *)
Theorem X15_suggestions_name_recovered_classes
    (relative : string → string) (acornParse : JSString → option ES.Node)
    (net : Network) (db : IndexDB)
    (files : list (string * option Node)) (coreFile : string * option Node)
    (line : string) :
  line ∈ results (analyzeGameHookDependencies relative acornParse net db files coreFile) →
  ∃ usage clientCode hookName hookUsage,
    returned (analyzeGameHookDependencies relative acornParse net db files coreFile)
    = Resolved usage
    ∧ (obtainGameClient net db true []).1 = Resolved clientCode
    ∧ usage !! hookName = Some hookUsage
    ∧ suggestionFor (extractClassMappingsFromCore coreFile.1 coreFile.2)
        (parseClientForClasses acornParse clientCode) hookName hookUsage line.
Proof.
  unfold analyzeGameHookDependencies.
  destruct (collectUsage relative files) as [usage|message]; simpl;
    [|intros H; by apply elem_of_nil in H].
  unfold matchingPhase, bind, ret.
  destruct (obtainGameClient net db true []) as [[clientCode|message] log]; simpl;
    [|intros H; by apply elem_of_nil in H].
  intros Hin. apply fold_suggestStep_lines in Hin as [Hin|(h & u & Hentry & Hline)];
    [by apply elem_of_nil in Hin|].
  apply elem_of_map_to_list in Hentry.
  exists usage, clientCode, h, u. done.
Qed.

Lemma X15_suggestions_name_recovered_classes_witness :
  ∃ usage clientCode hookName hookUsage,
    returned (analyzeGameHookDependencies id (λ _, Some twoMethodBundle) liveNetwork closedDB
                twoFiles ("core.ts", None))
    = Resolved usage
    ∧ (obtainGameClient liveNetwork closedDB true []).1 = Resolved clientCode
    ∧ usage !! hookName = Some hookUsage
    ∧ suggestionFor (extractClassMappingsFromCore "core.ts" None)
        (parseClientForClasses (λ _, Some twoMethodBundle) clientCode) hookName hookUsage
        (registerClassLine "Ab" "Foo").
Proof.
  apply (X15_suggestions_name_recovered_classes id (λ _, Some twoMethodBundle)
           liveNetwork closedDB twoFiles ("core.ts", None) (registerClassLine "Ab" "Foo")).
  vm_compute. left.
Defined.

(** *** The usage aggregate, entry by entry *)

Lemma fold_mergeDependency_lookup relative deps usage h :
  fold_left (mergeDependency relative) deps usage !! h
  = fold_left
      (λ o dep,
         Some (absorbDependency relative dep
                 (default (GameHookUsage.mk ∅ ∅ ∅ ∅ (GameHookDependency.isDirect dep) false) o)))
      (List.filter (λ dep, bool_decide (GameHookDependency.hookName dep = h)) deps)
      (usage !! h).
Proof.
  revert usage. induction deps as [|dep deps IH]; intros usage; simpl; [done|].
  rewrite IH, mergeDependency_absorbs.
  destruct (bool_decide_reflect (GameHookDependency.hookName dep = h)) as [<-|Hne]; simpl.
  - by rewrite lookup_insert_eq.
  - by rewrite lookup_insert_ne.
Qed.

Lemma fold_absorbDependency relative refs u :
  fold_left
    (λ o dep,
       Some (absorbDependency relative dep
               (default (GameHookUsage.mk ∅ ∅ ∅ ∅ (GameHookDependency.isDirect dep) false) o)))
    refs (Some u)
  = Some (GameHookUsage.mk
            (⋃ ((λ d, chainProperties (GameHookDependency.propertyChain d)) <$> refs)
             ∪ GameHookUsage.properties u)
            (⋃ ((λ d, chainMethods (GameHookDependency.propertyChain d)) <$> refs)
             ∪ GameHookUsage.methods u)
            (list_to_set (GameHookDependency.fullExpression <$> refs)
             ∪ GameHookUsage.fullExpressions u)
            (list_to_set ((λ d, relative (GameHookDependency.file d)) <$> refs)
             ∪ GameHookUsage.files u)
            (existsb GameHookDependency.isDirect refs || GameHookUsage.fromDirectAccess u)
            (GameHookUsage.fromHookRegistration u)).
Proof.
  revert u. induction refs as [|d refs IH]; intros u; simpl.
  - f_equal. apply usage_eq; simpl; try done; set_solver.
  - rewrite IH. f_equal. apply usage_eq; simpl; try done; try set_solver.
    by rewrite orb_assoc, (orb_comm (existsb _ _)).
Qed.

Lemma fold_absorbDependency_None relative refs :
  fold_left
    (λ o dep,
       Some (absorbDependency relative dep
               (default (GameHookUsage.mk ∅ ∅ ∅ ∅ (GameHookDependency.isDirect dep) false) o)))
    refs None
  = match refs with
    | [] => None
    | _ :: _ =>
        Some (GameHookUsage.mk
                (⋃ ((λ d, chainProperties (GameHookDependency.propertyChain d)) <$> refs))
                (⋃ ((λ d, chainMethods (GameHookDependency.propertyChain d)) <$> refs))
                (list_to_set (GameHookDependency.fullExpression <$> refs))
                (list_to_set ((λ d, relative (GameHookDependency.file d)) <$> refs))
                (existsb GameHookDependency.isDirect refs)
                false)
    end.
Proof.
  destruct refs as [|d refs]; [done|]. cbn [fold_left default].
  rewrite fold_absorbDependency. f_equal. apply usage_eq; simpl; try done; try set_solver.
  destruct (GameHookDependency.isDirect d), (existsb _ refs); done.
Qed.

Lemma registrationsOf_lookup relative files all h :
  fold_left
    (λ all file, map_fold (fileRegistrationStep relative) all
                   (analyzeFileForHookRegistrations file.1 file.2))
    files all !! h
  = fold_left
      (λ o r, Some (absorbRegistrations relative r (default newRegistrationUsage o)))
      (registrationsFor files h) (all !! h).
Proof.
  revert all. induction files as [|file files IH]; intros all; simpl; [done|].
  rewrite IH, fileRegistrations_lookup. unfold registrationsFor. simpl.
  by destruct (analyzeFileForHookRegistrations file.1 file.2 !! h).
Qed.

Lemma fold_absorbRegistrations relative regs u :
  fold_left
    (λ o r, Some (absorbRegistrations relative r (default newRegistrationUsage o)))
    regs (Some u)
  = Some (GameHookUsage.mk
            (GameHookUsage.properties u)
            (⋃ (GameHookUsage.methods <$> regs) ∪ GameHookUsage.methods u)
            (GameHookUsage.fullExpressions u)
            (⋃ ((λ r, set_map relative (GameHookUsage.files r)) <$> regs)
             ∪ GameHookUsage.files u)
            (GameHookUsage.fromDirectAccess u)
            (GameHookUsage.fromHookRegistration u)).
Proof.
  revert u. induction regs as [|r regs IH]; intros u; simpl.
  - f_equal. apply usage_eq; simpl; try done; set_solver.
  - rewrite IH. f_equal. apply usage_eq; simpl; try done; set_solver.
Qed.

Lemma fold_absorbRegistrations_None relative regs :
  fold_left
    (λ o r, Some (absorbRegistrations relative r (default newRegistrationUsage o)))
    regs None
  = match regs with
    | [] => None
    | _ :: _ =>
        Some (GameHookUsage.mk ∅ (⋃ (GameHookUsage.methods <$> regs)) ∅
                (⋃ ((λ r, set_map relative (GameHookUsage.files r)) <$> regs))
                false true)
    end.
Proof.
  destruct regs as [|r regs]; [done|]. cbn [fold_left default].
  rewrite fold_absorbRegistrations. f_equal. apply usage_eq; simpl; try done; set_solver.
Qed.

Lemma mergeRegistrations_lookup (usage regs : gmap string GameHookUsage.t) h :
  map_fold mergeRegistrationStep usage regs !! h
  = match regs !! h with
    | Some classUsage =>
        Some (match usage !! h with
              | None => classUsage
              | Some u =>
                  GameHookUsage.mk (GameHookUsage.properties u)
                    (GameHookUsage.methods classUsage ∪ GameHookUsage.methods u)
                    (GameHookUsage.fullExpressions u)
                    (GameHookUsage.files classUsage ∪ GameHookUsage.files u)
                    (GameHookUsage.fromDirectAccess u) true
              end)
    | None => usage !! h
    end.
Proof.
  revert h.
  apply (map_fold_weak_ind
           (λ r m, ∀ h, r !! h
                        = match m !! h with
                          | Some classUsage =>
                              Some (match usage !! h with
                                    | None => classUsage
                                    | Some u =>
                                        GameHookUsage.mk (GameHookUsage.properties u)
                                          (GameHookUsage.methods classUsage
                                           ∪ GameHookUsage.methods u)
                                          (GameHookUsage.fullExpressions u)
                                          (GameHookUsage.files classUsage
                                           ∪ GameHookUsage.files u)
                                          (GameHookUsage.fromDirectAccess u) true
                                    end)
                          | None => usage !! h
                          end)).
  - intros h. by rewrite lookup_empty.
  - intros i x m r Hi IH h. unfold mergeRegistrationStep.
    assert (r !! i = usage !! i) as Hri by (by rewrite IH, Hi).
    destruct (decide (i = h)) as [->|Hne].
    + rewrite lookup_insert_eq, Hri.
      destruct (usage !! h); by rewrite lookup_insert_eq.
    + rewrite (lookup_insert_ne m) by done. rewrite <- IH.
      destruct (r !! i); by rewrite lookup_insert_ne.
Qed.

(** X16: the usage aggregate, entry by entry.  When the aggregation
    succeeds, a hook has an entry exactly when some file references or
    registers it, and the entry holds: as properties and methods the plain
    and the called chain items of its references, plus the registered
    methods; the full expressions of its references; the relative paths of
    the files that reference or register it; [fromDirectAccess] when one of
    the references is direct; [fromHookRegistration] when some file
    registers it. *)
Theorem X16_usage_entry_by_entry
    (relative : string → string) (files : list (string * option Node))
    (usage : gmap string GameHookUsage.t) (h : string) :
  collectUsage relative files = Resolved usage →
  let refs := referencesTo files h in
  let regs := registrationsFor files h in
  match usage !! h with
  | None => refs = [] ∧ regs = []
  | Some u =>
      (refs ≠ [] ∨ regs ≠ [])
      ∧ GameHookUsage.properties u
        = ⋃ ((λ d, chainProperties (GameHookDependency.propertyChain d)) <$> refs)
      ∧ GameHookUsage.methods u
        = ⋃ ((λ d, chainMethods (GameHookDependency.propertyChain d)) <$> refs)
          ∪ ⋃ (GameHookUsage.methods <$> regs)
      ∧ GameHookUsage.fullExpressions u
        = list_to_set (GameHookDependency.fullExpression <$> refs)
      ∧ GameHookUsage.files u
        = list_to_set ((λ d, relative (GameHookDependency.file d)) <$> refs)
          ∪ ⋃ ((λ r, set_map relative (GameHookUsage.files r)) <$> regs)
      ∧ GameHookUsage.fromDirectAccess u = existsb GameHookDependency.isDirect refs
      ∧ GameHookUsage.fromHookRegistration u = bool_decide (regs ≠ [])
  end.
Proof.
  rewrite collectUsage_unfold, forDependencies_spec.
  destruct (existsb _ (dependenciesOf files)); [done|]. intros [= <-]. cbv zeta.
  rewrite mergeRegistrations_lookup. unfold registrationsOf.
  rewrite registrationsOf_lookup, fold_mergeDependency_lookup, !lookup_empty.
  fold (referencesTo files h).
  rewrite fold_absorbRegistrations_None, fold_absorbDependency_None.
  destruct (referencesTo files h) as [|d refs], (registrationsFor files h) as [|r regs].
  - done.
  - split; [by right|]. cbn [GameHookUsage.properties GameHookUsage.methods
      GameHookUsage.fullExpressions GameHookUsage.files GameHookUsage.fromDirectAccess
      GameHookUsage.fromHookRegistration].
    repeat split; try done; set_solver.
  - split; [by left|]. cbn [GameHookUsage.properties GameHookUsage.methods
      GameHookUsage.fullExpressions GameHookUsage.files GameHookUsage.fromDirectAccess
      GameHookUsage.fromHookRegistration].
    repeat split; try done; set_solver.
  - split; [by left|]. cbn [GameHookUsage.properties GameHookUsage.methods
      GameHookUsage.fullExpressions GameHookUsage.files GameHookUsage.fromDirectAccess
      GameHookUsage.fromHookRegistration].
    repeat split; try done; set_solver.
Qed.

Lemma X16_usage_entry_by_entry_witness :
  let refs := referencesTo twoFiles "Foo" in
  let regs := registrationsFor twoFiles "Foo" in
  match twoFilesUsage !! "Foo" with
  | None => refs = [] ∧ regs = []
  | Some u =>
      (refs ≠ [] ∨ regs ≠ [])
      ∧ GameHookUsage.properties u
        = ⋃ ((λ d, chainProperties (GameHookDependency.propertyChain d)) <$> refs)
      ∧ GameHookUsage.methods u
        = ⋃ ((λ d, chainMethods (GameHookDependency.propertyChain d)) <$> refs)
          ∪ ⋃ (GameHookUsage.methods <$> regs)
      ∧ GameHookUsage.fullExpressions u
        = list_to_set (GameHookDependency.fullExpression <$> refs)
      ∧ GameHookUsage.files u
        = list_to_set ((λ d, id (GameHookDependency.file d)) <$> refs)
          ∪ ⋃ ((λ r, set_map id (GameHookUsage.files r)) <$> regs)
      ∧ GameHookUsage.fromDirectAccess u = existsb GameHookDependency.isDirect refs
      ∧ GameHookUsage.fromHookRegistration u = bool_decide (regs ≠ [])
  end.
Proof.
  apply (X16_usage_entry_by_entry id twoFiles twoFilesUsage "Foo").
  vm_compute. reflexivity.
Defined.

(** *** Downloading and patching the client *)

(** X17: patching loses nothing of the bundle.  The bundle splits into a
    head and a tail of nine UTF-16 code units (the whole bundle, when it is
    shorter), and the patched client is the head, the accessors, the tail. *)
Theorem X17_patch_splices_accessors (highSpellClient : JSString) :
  ∃ head tail,
    highSpellClient = head ++ tail
    ∧ length tail = Nat.min 9 (length highSpellClient)
    ∧ patchClient highSpellClient = head ++ codeUnits clientAccessors ++ tail.
Proof.
  unfold patchClient. cbv zeta.
  set (cut := (length highSpellClient - 9)%nat).
  exists (take cut highSpellClient), (drop cut highSpellClient).
  split; [by rewrite take_drop|]. split; [|done].
  rewrite length_drop. unfold cut. lia.
Qed.

(** X18: what a resolved download means.  If [obtainGameClient] resolves,
    the stored version was read (0 when the database is ignored), the
    manifest was requested first and its JSON has a [data] object.  When
    [data] reports a version newer than the stored one, a bundle URL was
    requested next, the result is the patched text of the response, and
    (unless the database is ignored) the client and the version were stored.
    When the version is not newer, or [data] reports none, nothing more was
    requested and the result is the stored client (the empty text when the
    database is ignored). *)
Theorem X18_resolved_download
    (net : Network) (db : IndexDB) (ignoreDB : bool) (log log' : list string)
    (client : JSString) :
  obtainGameClient net db ignoreDB log = (Resolved client, log') →
  ∃ stored manifest assetData,
    storedVersion db ignoreDB = Some stored
    ∧ fetch net highspellAssetsURL = Resolved manifest
    ∧ Response.json manifest = Resolved (mkAssetJSON (Some assetData))
    ∧ match latestClientVersion assetData with
      | Some remote =>
          if bool_decide (stored < remote)%Z
          then (∃ versionText timeText response body,
                  log' = log ++ [highspellAssetsURL; bundleURL versionText timeText]
                  ∧ fetch net (bundleURL versionText timeText) = Resolved response
                  ∧ Response.text response = Resolved body
                  ∧ client = patchClient body)
               ∧ (ignoreDB = false →
                  setHighSpellClient db client = Resolved tt
                  ∧ setClientLastVersion db remote = Resolved tt)
          else keptStoredClient db ignoreDB log log' client
      | None => keptStoredClient db ignoreDB log log' client
      end.
Proof.
  unfold obtainGameClient, downloadClient, storedClient, storedVersion,
    keptStoredClient, bind, request, await, ret, throw.
  intros H.
  destruct ignoreDB.
  - destruct (fetch net highspellAssetsURL) as [manifest|] eqn:Hfetch; [|done].
    destruct (Response.json manifest) as [[[assetData|]]|] eqn:Hjson; try done.
    simpl in H.
    exists 0%Z, manifest, assetData. split; [done|]. split; [done|]. split; [done|].
    destruct (latestClientVersion assetData) as [remote|]; [|by injection H as <- <-].
    destruct (bool_decide (0 < remote)%Z); [|by injection H as <- <-].
    rewrite <- !app_assoc in H. simpl in H.
    fold (bundleURL (pretty remote) (pretty (dateNow net))) in H.
    destruct (fetch net (bundleURL _ _)) as [response|] eqn:Hfetch2; [|done].
    destruct (Response.text response) as [body|] eqn:Htext; [|done].
    injection H as <- <-. split; [|done].
    by exists (pretty remote), (pretty (dateNow net)), response, body.
  - destruct (init db) as [[]|]; [|done].
    destruct (getClientLastVersion db) as [v|]; [|done].
    destruct (fetch net highspellAssetsURL) as [manifest|] eqn:Hfetch; [|done].
    destruct (Response.json manifest) as [[[assetData|]]|] eqn:Hjson; try done.
    simpl in H.
    exists (default 0%Z v), manifest, assetData.
    split; [done|]. split; [done|]. split; [done|].
    destruct (latestClientVersion assetData) as [remote|].
    + destruct (bool_decide (default 0%Z v < remote)%Z).
      * rewrite <- !app_assoc in H. simpl in H.
        fold (bundleURL (pretty remote) (pretty (dateNow net))) in H.
        destruct (fetch net (bundleURL _ _)) as [response|] eqn:Hfetch2; [|done].
        destruct (Response.text response) as [body|] eqn:Htext; [|done].
        destruct (setHighSpellClient db (patchClient body)) as [[]|] eqn:Hset1; [|done].
        destruct (setClientLastVersion db remote) as [[]|] eqn:Hset2; [|done].
        injection H as <- <-. split; [|done].
        by exists (pretty remote), (pretty (dateNow net)), response, body.
      * destruct (getHighSpellClient db) as [stored|] eqn:Hget; [|done].
        by injection H as <- <-.
    + destruct (getHighSpellClient db) as [stored|] eqn:Hget; [|done].
      by injection H as <- <-.
Qed.

Lemma X18_resolved_download_witness :
  ∃ stored manifest assetData,
    storedVersion closedDB true = Some stored
    ∧ fetch liveNetwork highspellAssetsURL = Resolved manifest
    ∧ Response.json manifest = Resolved (mkAssetJSON (Some assetData))
    ∧ match latestClientVersion assetData with
      | Some remote =>
          if bool_decide (stored < remote)%Z
          then (∃ versionText timeText response body,
                  [highspellAssetsURL;
                   "https://highspell.com/js/client/client.12.js?time=77"]
                  = [] ++ [highspellAssetsURL; bundleURL versionText timeText]
                  ∧ fetch liveNetwork (bundleURL versionText timeText) = Resolved response
                  ∧ Response.text response = Resolved body
                  ∧ codeUnits "0123" ++ codeUnits clientAccessors ++ codeUnits "456789abc"
                    = patchClient body)
               ∧ (true = false →
                  setHighSpellClient closedDB
                    (codeUnits "0123" ++ codeUnits clientAccessors ++ codeUnits "456789abc")
                  = Resolved tt
                  ∧ setClientLastVersion closedDB remote = Resolved tt)
          else keptStoredClient closedDB true []
                 [highspellAssetsURL;
                  "https://highspell.com/js/client/client.12.js?time=77"]
                 (codeUnits "0123" ++ codeUnits clientAccessors ++ codeUnits "456789abc")
      | None => keptStoredClient closedDB true []
                 [highspellAssetsURL;
                  "https://highspell.com/js/client/client.12.js?time=77"]
                 (codeUnits "0123" ++ codeUnits clientAccessors ++ codeUnits "456789abc")
      end.
Proof.
  apply (X18_resolved_download liveNetwork closedDB true []
           [highspellAssetsURL; "https://highspell.com/js/client/client.12.js?time=77"]
           (codeUnits "0123" ++ codeUnits clientAccessors ++ codeUnits "456789abc")).
  vm_compute. reflexivity.
Defined.

(** *** Files that do not mention gameHooks *)

Lemma isGameHooksAccess_elem chain :
  isGameHooksAccess chain = true → "gameHooks" ∈ chain.
Proof.
  unfold isGameHooksAccess. rewrite !orb_true_iff, !andb_true_iff, !bool_decide_eq_true.
  intros [[[H|H]|H]|H]; eapply list_elem_of_lookup_2; apply H.
Qed.

Lemma elem_of_markCall x l :
  x ∈ markCall l → x ∈ l ∨ ∃ y, x = y +:+ "()".
Proof.
  induction l as [|a l IH]; [by left|].
  destruct l as [|b l].
  - simpl. intros Hx. apply list_elem_of_singleton in Hx as ->. right. by exists a.
  - change (markCall (a :: b :: l)) with (a :: markCall (b :: l)).
    intros Hx. apply elem_of_cons in Hx as [->|Hx]; [left; left|].
    destruct (IH Hx) as [?|?]; [left; by right|by right].
Qed.

Lemma elem_of_traverse x n chain :
  (∀ y, x ≠ y +:+ "()") →
  x ∈ traverse n chain → x ∈ chain ∨ mentions x n = true.
Proof.
  intros Hx. revert chain.
  induction n as [t|t|l e IHe p|l e IHe args|l n IHn i|cs|cs|cs|cs|cs|cs];
    intros chain; simpl; try (by left).
  - intros Hin. apply elem_of_app in Hin as [?|Hin]; [by left|].
    apply list_elem_of_singleton in Hin as ->. right. by apply bool_decide_eq_true.
  - intros Hin. apply elem_of_app in Hin as [Hin|Hin].
    + destruct (IHe _ Hin) as [?| ->]; [by left|right]. apply orb_true_r.
    + apply list_elem_of_singleton in Hin as ->. right.
      rewrite bool_decide_eq_true_2 by done. done.
  - intros Hin. apply elem_of_markCall in Hin as [Hin|[y Hy]]; [|by destruct (Hx y)].
    destruct (IHe _ Hin) as [?| ->]; [by left|by right].
Qed.

Lemma gameHooks_not_a_call y : "gameHooks" ≠ y +:+ "()".
Proof.
  intros H.
  do 9 (destruct y as [|? y];
        [discriminate H
        |change (String ?a y +:+ "()") with (String a (y +:+ "()")) in H;
         injection H as _ H]).
  destruct y; discriminate H.
Qed.

Lemma isGameHooksAccess_mentions n :
  isGameHooksAccess (extractPropertyChain n) = true → mentions "gameHooks" n = true.
Proof.
  intros H. apply isGameHooksAccess_elem in H.
  destruct (elem_of_traverse _ _ _ gameHooks_not_a_call H) as [Hnil|?]; [|done].
  by apply elem_of_nil in Hnil.
Qed.

Lemma isGameHooksAccess_unmentioned n :
  mentions "gameHooks" n = false → isGameHooksAccess (extractPropertyChain n) = false.
Proof.
  intros Hm. destruct (isGameHooksAccess (extractPropertyChain n)) eqn:H; [|done].
  apply isGameHooksAccess_mentions in H. congruence.
Qed.

Lemma pushIndirect_quiet filePath node line v segment st :
  quiet st → pushIndirect filePath node line v segment st = st.
Proof.
  intros [Ha _]. unfold pushIndirect, getVariableReference. by rewrite Ha, lookup_empty.
Qed.

Lemma accessStep_quiet filePath isInit node st :
  mentions "gameHooks" node = false → quiet st → accessStep filePath isInit node st = st.
Proof.
  intros Hm Hq. unfold accessStep.
  destruct node as [| |l e p|l e args| | | | | | |]; try done;
    rewrite (isGameHooksAccess_unmentioned _ Hm).
  - destruct e; try done. by apply pushIndirect_quiet.
  - destruct e as [| |? [] ?| | | | | | | |]; try done; by apply pushIndirect_quiet.
Qed.

Lemma declarationStep_quiet filePath node st :
  mentions "gameHooks" node = false → declarationStep filePath node st = st.
Proof.
  intros Hm. unfold declarationStep.
  destruct node as [| | | |l [v| | | | | | | | | |] [init|]| | | | | |]; try done.
  destruct (bool_decide (v = "")); [done|].
  simpl in Hm. apply orb_false_iff in Hm as [_ Hm].
  by rewrite (isGameHooksAccess_unmentioned _ Hm).
Qed.

Lemma enterScope_quiet st : quiet st → quiet (enterScope st).
Proof. by intros [? ?]. Qed.

Lemma exitScope_quiet st : quiet st → quiet (exitScope st).
Proof.
  intros [Ha Hd]. split; [|done]. unfold exitScope. simpl. rewrite Ha.
  apply map_filter_empty.
Qed.

Lemma fold_visit_quiet filePath cs :
  Forall (λ c, ∀ isInit st, quiet st → quiet (visit filePath isInit c st)) cs →
  ∀ st, quiet st → quiet (fold_left (λ s c, visit filePath false c s) cs st).
Proof.
  induction 1 as [|c cs Hc _ IH]; intros st Hst; simpl; [done|]. by apply IH, Hc.
Qed.

Lemma visit_quiet filePath node :
  mentions "gameHooks" node = false →
  ∀ isInit st, quiet st → quiet (visit filePath isInit node st).
Proof.
  induction node as [t|t|l e n IHe|l e args IHe IHargs|l n IHn|l n i IHn IHi
                    |cs IH|cs IH|cs IH|cs IH|cs IH|cs IH] using Node_nested_ind;
    intros Hm isInit st Hq; rewrite visit_unfold; cbn [isScopeNode]; cbv zeta;
    try apply exitScope_quiet;
    (rewrite declarationStep_quiet by done);
    (rewrite accessStep_quiet; [|done|try apply enterScope_quiet; done]);
    cbn [visitChildren]; simpl in Hm.
  - done.
  - done.
  - apply orb_false_iff in Hm as [_ Hm]. by apply IHe.
  - apply orb_false_iff in Hm as [He Hargs]. apply fold_visit_quiet; [|by apply IHe].
    exact (Forall_existsb_false _ _ _ IHargs Hargs).
  - by apply IHn.
  - apply orb_false_iff in Hm as [Hn Hi]. by apply IHi, IHn.
  - apply fold_visit_quiet; [|by apply enterScope_quiet].
    exact (Forall_existsb_false _ _ _ IH Hm).
  - apply fold_visit_quiet; [|by apply enterScope_quiet].
    exact (Forall_existsb_false _ _ _ IH Hm).
  - apply fold_visit_quiet; [|by apply enterScope_quiet].
    exact (Forall_existsb_false _ _ _ IH Hm).
  - apply fold_visit_quiet; [|by apply enterScope_quiet].
    exact (Forall_existsb_false _ _ _ IH Hm).
  - apply fold_visit_quiet; [|done]. exact (Forall_existsb_false _ _ _ IH Hm).
  - apply fold_visit_quiet; [|done]. exact (Forall_existsb_false _ _ _ IH Hm).
Qed.

(** X19: a file in which neither an identifier nor a property is called
    [gameHooks] yields no reference at all, direct or through an alias. *)
Theorem X19_no_mention_no_reference (filePath : string) (root : Node) :
  mentions "gameHooks" root = false →
  analyzeFileForGameHooks filePath (Some root) = [].
Proof.
  intros Hm. unfold analyzeFileForGameHooks.
  apply (visit_quiet filePath root Hm false initialWalkState). by split.
Qed.

Lemma X19_no_mention_no_reference_witness :
  analyzeFileForGameHooks "a.ts" (Some fooBarCall) = [].
Proof.
  apply (X19_no_mention_no_reference "a.ts" fooBarCall). reflexivity.
Defined.

(** *** Registrations and call-sites *)

Lemma fold_forEachNode_preorder {St} (handle : Node → St → St) cs :
  Forall (λ c, ∀ st, forEachNode handle c st
                     = fold_left (λ s n, handle n s) (preorder c) st) cs →
  ∀ st, fold_left (λ s c, forEachNode handle c s) cs st
        = fold_left (λ s n, handle n s) (flat_map preorder cs) st.
Proof.
  induction 1 as [|c cs Hc _ IH]; intros st; simpl; [done|].
  by rewrite fold_left_app, IH, Hc.
Qed.

(** A walk is the fold of its handler over the nodes in walking order. *)
Lemma forEachNode_preorder {St} (handle : Node → St → St) node st :
  forEachNode handle node st = fold_left (λ s n, handle n s) (preorder node) st.
Proof.
  revert st.
  induction node as [t|t|l e n IHe|l e args IHe IHargs|l n IHn|l n i IHn IHi
                    |cs IH|cs IH|cs IH|cs IH|cs IH|cs IH] using Node_nested_ind;
    intros st; cbn [forEachNode preorder fold_left]; try done.
  - by rewrite fold_left_app, (fold_forEachNode_preorder _ _ IHargs), IHe.
  - by rewrite fold_left_app, IHi, IHn.
  - by apply fold_forEachNode_preorder.
  - by apply fold_forEachNode_preorder.
  - by apply fold_forEachNode_preorder.
  - by apply fold_forEachNode_preorder.
  - by apply fold_forEachNode_preorder.
  - by apply fold_forEachNode_preorder.
Qed.

Lemma registrationStep_call filePath node w :
  registrationStep filePath node w
  = match registrationCall node with
    | Some (className, methodName) => recordRegistration filePath className methodName w
    | None => w
    end.
Proof.
  unfold registrationStep, registrationBranch, registrationCall.
  destruct node as [| | |l [| |l' e name| | | | | | | |] [|[|c| | | | | | | | |] [|[|m| | | | | | | | |] rest]]
                   | | | | | | |]; try done.
  destruct (bool_decide_reflect (name = "registerClassHook")) as [->|Hne]; simpl; [done|].
  by destruct (bool_decide (name = "registerClassOverrideHook")).
Qed.

Lemma fold_registrationStep_calls filePath nodes w :
  fold_left (λ w n, registrationStep filePath n w) nodes w
  = fold_left (λ w call, recordRegistration filePath call.1 call.2 w)
      (omap registrationCall nodes) w.
Proof.
  revert w. induction nodes as [|n nodes IH]; intros w; simpl; [done|].
  rewrite IH, registrationStep_call.
  by destruct (registrationCall n) as [[c m]|].
Qed.

Lemma fold_recordRegistration_thrown filePath calls w :
  thrown w = true →
  fold_left (λ w call, recordRegistration filePath call.1 call.2 w) calls w = w.
Proof.
  intros Hw. induction calls as [|[c m] calls IH]; simpl; [done|].
  unfold recordRegistration at 2. by rewrite Hw.
Qed.

Lemma recorded_addRegistration filePath c m' hookUsage h m :
  recorded (addRegistration filePath c m' hookUsage) h m
  ↔ recorded hookUsage h m ∨ (h, m) = (c, m').
Proof.
  unfold recorded, addRegistration.
  destruct (decide (c = h)) as [->|Hne].
  - rewrite lookup_insert_eq. split.
    + intros (u & [= <-] & Hm). simpl in Hm.
      apply elem_of_union in Hm as [Hm|Hm]; [right; apply elem_of_singleton in Hm; by subst|].
      left. destruct (hookUsage !! h) as [u|]; [by exists u|]. simpl in Hm. set_solver.
    + intros [(u & Hu & Hm)|[= ->]]; eexists; (split; [done|]); simpl.
      * rewrite Hu. simpl. set_solver.
      * set_solver.
  - rewrite lookup_insert_ne by done. split; [by left|].
    intros [?|[= ? ?]]; [done|]. by subst.
Qed.

Lemma fold_recordRegistration_recorded filePath calls w h m :
  thrown w = false →
  recorded (hookUsage (fold_left (λ w call, recordRegistration filePath call.1 call.2 w)
                         calls w)) h m
  ↔ recorded (hookUsage w) h m ∨ (h, m) ∈ effectiveCalls calls.
Proof.
  revert w. induction calls as [|[c m'] calls IH]; intros w Hw; simpl.
  - split; [by left|]. intros [?|Hin]; [done|]. by apply elem_of_nil in Hin.
  - unfold recordRegistration at 2. rewrite Hw. simpl.
    destruct (inheritedKey c).
    + rewrite fold_recordRegistration_thrown by done. simpl.
      split; [by left|]. intros [?|Hin]; [done|]. by apply elem_of_nil in Hin.
    + rewrite IH by done. simpl. rewrite recorded_addRegistration, elem_of_cons. tauto.
Qed.

(** X20: registrations and call-sites.  A method is recorded for a hook by
    [analyzeFileForHookRegistrations] exactly when the file holds a call
    [x.registerClassHook("Hook", "method", ...)] or
    [x.registerClassOverrideHook("Hook", "method", ...)] for them that comes,
    in walking order, before every such call that names a member inherited
    from [Object.prototype]. *)
Theorem X20_registrations_are_call_sites (filePath : string) (root : Node) (h m : string) :
  recorded (analyzeFileForHookRegistrations filePath (Some root)) h m
  ↔ (h, m) ∈ effectiveCalls (omap registrationCall (preorder root)).
Proof.
  unfold analyzeFileForHookRegistrations.
  rewrite forEachNode_preorder, fold_registrationStep_calls.
  rewrite fold_recordRegistration_recorded by done. simpl. split; [|by right].
  intros [(u & Hu & _)|?]; [|done]. by rewrite lookup_empty in Hu.
Qed.

(** *** How a run ends *)

Lemma existsb_dependenciesOf (f : GameHookDependency.t → bool) files :
  existsb f (dependenciesOf files) = true
  ↔ ∃ file dep, file ∈ files ∧ dep ∈ analyzeFileForGameHooks file.1 file.2 ∧ f dep = true.
Proof.
  unfold dependenciesOf. rewrite existsb_exists. split.
  - intros (dep & Hin & Hf). apply in_concat in Hin as (l & Hl & Hdep).
    apply in_map_iff in Hl as (file & <- & Hfile). exists file, dep.
    split; [by apply list_elem_of_In|]. split; [by apply list_elem_of_In|done].
  - intros (file & dep & Hfile & Hdep & Hf). exists dep. split; [|done].
    apply in_concat. exists (analyzeFileForGameHooks file.1 file.2). split.
    + apply in_map_iff. exists file. split; [done|by apply list_elem_of_In].
    + by apply list_elem_of_In.
Qed.

(** X21: how a run can fail.  Once the files are listed and parsed, the
    script ends with a reported failure in one case only: some file holds a
    reference whose hook name is a member inherited from [Object.prototype]
    (as in [gameHooks.constructor.name]); the failure is then the
    [TypeError] of [hookUsage.files.add].  In every other case, whatever the
    network and the bundle do, the script prints its results. *)
Theorem X21_run_fails_on_inherited_names_only
    (relative : string → string) (acornParse : JSString → option ES.Node)
    (net : Network) (db : IndexDB)
    (files : list (string * option Node)) (coreFile : string * option Node) :
  let run := analyzeGameHookDependencies relative acornParse net db files coreFile in
  (∀ message,
     scriptEnd run = ReportedFailure message
     ↔ message = typeErrorAdd
       ∧ ∃ file dep,
           file ∈ files
           ∧ dep ∈ analyzeFileForGameHooks file.1 file.2
           ∧ inheritedKey (GameHookDependency.hookName dep) = true)
  ∧ ((∀ file dep,
        file ∈ files → dep ∈ analyzeFileForGameHooks file.1 file.2 →
        inheritedKey (GameHookDependency.hookName dep) = false)
     → scriptEnd run = PrintedResults (results run)).
Proof.
  cbv zeta. unfold analyzeGameHookDependencies, scriptEnd.
  rewrite collectUsage_unfold, forDependencies_spec.
  pose proof (existsb_dependenciesOf
                (λ dep, inheritedKey (GameHookDependency.hookName dep)) files) as Hex.
  destruct (existsb _ (dependenciesOf files)).
  - split.
    + intros message. simpl. split.
      * intros [= <-]. split; [done|]. by apply Hex.
      * by intros [-> _].
    + intros Hnone. destruct (proj1 Hex eq_refl) as (file & dep & Hfile & Hdep & Hkey).
      rewrite (Hnone file dep Hfile Hdep) in Hkey. done.
  - split.
    + intros message.
      destruct (matchingPhase _ _ _ _ _ _) as [[suggestions|message'] log]; simpl.
      * split; [done|]. intros [_ Hsome]. apply Hex in Hsome. done.
      * split; [done|]. intros [_ Hsome]. apply Hex in Hsome. done.
    + intros _. by destruct (matchingPhase _ _ _ _ _ _) as [[suggestions|message'] log].
Qed.

Lemma X21_run_fails_on_inherited_names_only_witness :
  scriptEnd (analyzeGameHookDependencies id (λ _, None) deadNetwork closedDB twoFiles
               ("core.ts", None))
  = PrintedResults
      (results (analyzeGameHookDependencies id (λ _, None) deadNetwork closedDB twoFiles
                  ("core.ts", None))).
Proof.
  apply (proj2 (X21_run_fails_on_inherited_names_only id (λ _, None) deadNetwork closedDB
                  twoFiles ("core.ts", None))).
  intros file dep Hfile Hdep.
  destruct (inheritedKey (GameHookDependency.hookName dep)) eqn:Hkey; [exfalso|reflexivity].
  assert (existsb (λ dep, inheritedKey (GameHookDependency.hookName dep))
            (dependenciesOf twoFiles) = true) as Hex.
  { apply existsb_dependenciesOf. exists file, dep. auto. }
  vm_compute in Hex. discriminate Hex.
Defined.

(** *** References through aliases are backed by a declaration *)

Lemma declaredIn_push deps d hookName chain :
  declaredIn deps hookName chain → declaredIn (deps ++ [d]) hookName chain.
Proof.
  intros (d' & Hin & H). exists d'. split; [|done]. apply elem_of_app. by left.
Qed.

Lemma pushDirect_backed hookName chain fullExpression filePath line st :
  backedInvariant st →
  backedInvariant
    (pushDependency
       (GameHookDependency.mk hookName chain fullExpression filePath line true None) st).
Proof.
  intros [Ha Hd]. split; simpl.
  - intros k r Hr. by apply declaredIn_push, (Ha k).
  - intros d Hin Hind. apply elem_of_app in Hin as [Hin|Hin].
    + destruct (Hd _ Hin Hind) as (c & s & Hc & Hdecl).
      exists c, s. split; [done|]. by apply declaredIn_push.
    + apply list_elem_of_singleton in Hin as ->. done.
Qed.

Lemma pushIndirect_backed filePath node line v segment st :
  backedInvariant st → backedInvariant (pushIndirect filePath node line v segment st).
Proof.
  intros [Ha Hd]. unfold pushIndirect, getVariableReference.
  destruct (aliasesOf st !! v) as [r|] eqn:Hr; [|done]. split; simpl.
  - intros k r' Hr'. by apply declaredIn_push, (Ha k).
  - intros d Hin Hind. apply elem_of_app in Hin as [Hin|Hin].
    + destruct (Hd _ Hin Hind) as (c & s & Hc & Hdecl).
      exists c, s. split; [done|]. by apply declaredIn_push.
    + apply list_elem_of_singleton in Hin as ->. simpl.
      exists (VariableGameHookReference.propertyChain r), segment. split; [done|].
      by apply declaredIn_push, (Ha v).
Qed.

Lemma declarationStep_backed filePath node st :
  backedInvariant st → backedInvariant (declarationStep filePath node st).
Proof.
  intros Hst. destruct node as [| | | |l n [i|]| | | | | |]; simpl; try done;
    [|by destruct n].
  destruct n as [v| | | | | | | | | |]; try done.
  destruct (bool_decide (v = "")); [done|].
  destruct (isGameHooksAccess _); [|done].
  destruct (getHookNameAndProperties _) as [hook props].
  destruct (bool_decide (hook = "")); [done|].
  destruct Hst as [Ha Hd]. split; simpl.
  - intros k r Hr. destruct (decide (v = k)) as [->|Hne].
    + rewrite lookup_insert_eq in Hr. injection Hr as <-. simpl.
      eexists. split; [apply elem_of_app; right; by apply list_elem_of_singleton|done].
    + rewrite lookup_insert_ne in Hr by done. by apply declaredIn_push, (Ha k).
  - intros d Hin Hind. apply elem_of_app in Hin as [Hin|Hin].
    + destruct (Hd _ Hin Hind) as (c & s & Hc & Hdecl).
      exists c, s. split; [done|]. by apply declaredIn_push.
    + apply list_elem_of_singleton in Hin as ->. done.
Qed.

Lemma accessStep_backed filePath isInit node st :
  backedInvariant st → backedInvariant (accessStep filePath isInit node st).
Proof.
  intros Hst. destruct node as [| |l e n|l e args| | | | | | |]; simpl; try done.
  - destruct (isGameHooksAccess _).
    + destruct (getHookNameAndProperties _) as [hook props].
      destruct (bool_decide (hook = "")); [done|].
      destruct isInit; [done|]. by apply pushDirect_backed.
    + destruct e; try done. by apply pushIndirect_backed.
  - destruct (isGameHooksAccess _).
    + destruct (getHookNameAndProperties _) as [hook props].
      destruct (bool_decide (hook = "")); [done|].
      destruct isInit; [done|]. by apply pushDirect_backed.
    + destruct e as [| |? [] ?| | | | | | | |]; try done; by apply pushIndirect_backed.
Qed.

Lemma analyzeFileForGameHooks_backed filePath sourceFile d :
  d ∈ analyzeFileForGameHooks filePath sourceFile →
  GameHookDependency.isDirect d = false →
  ∃ chain segment,
    GameHookDependency.propertyChain d = chain ++ [segment]
    ∧ declaredIn (analyzeFileForGameHooks filePath sourceFile)
        (GameHookDependency.hookName d) chain.
Proof.
  destruct sourceFile as [root|]; simpl; [|by intros H%elem_of_nil].
  revert d.
  refine (proj2 (visit_invariant backedInvariant filePath _ _ _ _
                   root false initialWalkState _)).
  - intros st [Ha Hd]. by split.
  - intros st [Ha Hd]. split; [|done]. simpl.
    intros k r [Hr _]%map_lookup_filter_Some. by apply (Ha k).
  - intros. by apply declarationStep_backed.
  - intros. by apply accessStep_backed.
  - split.
    + intros k r Hr. simpl in Hr. by rewrite lookup_empty in Hr.
    + intros d Hin. simpl in Hin. by apply elem_of_nil in Hin.
Qed.

(** X22: a reference through an alias never stands alone.  For every
    indirect reference that [analyzeFileForGameHooks] reports, the same
    report holds a direct reference to the same hook whose property chain is
    the chain of the indirect one without its last item (the declaration of
    the alias). *)
Theorem X22_indirect_reference_is_backed
    (filePath : string) (sourceFile : option Node) (d : GameHookDependency.t) :
  d ∈ analyzeFileForGameHooks filePath sourceFile →
  GameHookDependency.isDirect d = false →
  ∃ d' segment,
    d' ∈ analyzeFileForGameHooks filePath sourceFile
    ∧ GameHookDependency.isDirect d' = true
    ∧ GameHookDependency.hookName d' = GameHookDependency.hookName d
    ∧ GameHookDependency.propertyChain d
      = GameHookDependency.propertyChain d' ++ [segment].
Proof.
  intros Hin Hind.
  destruct (analyzeFileForGameHooks_backed _ _ _ Hin Hind)
    as (chain & segment & Hchain & d' & Hd' & Hdir & Hhook & Hc).
  exists d', segment. by rewrite Hc.
Qed.

Lemma X22_indirect_reference_is_backed_witness :
  ∃ d' segment,
    d' ∈ analyzeFileForGameHooks "a.ts" (Some aliasExample)
    ∧ GameHookDependency.isDirect d' = true
    ∧ GameHookDependency.hookName d' = GameHookDependency.hookName (indirectFooBarBaz "a.ts")
    ∧ GameHookDependency.propertyChain (indirectFooBarBaz "a.ts")
      = GameHookDependency.propertyChain d' ++ [segment].
Proof.
  apply (X22_indirect_reference_is_backed "a.ts" (Some aliasExample)
           (indirectFooBarBaz "a.ts")).
  - vm_compute. do 2 right. left.
  - reflexivity.
Defined.

(** X23: the two source flags of a usage entry.  When the aggregation
    succeeds, an entry is marked [fromDirectAccess] exactly when some file
    references the hook (through an alias or not), and
    [fromHookRegistration] exactly when some file registers it; every entry
    carries at least one of the two marks. *)
Theorem X23_usage_source_flags
    (relative : string → string) (files : list (string * option Node))
    (usage : gmap string GameHookUsage.t) (h : string) (u : GameHookUsage.t) :
  collectUsage relative files = Resolved usage →
  usage !! h = Some u →
  GameHookUsage.fromDirectAccess u = bool_decide (referencesTo files h ≠ [])
  ∧ GameHookUsage.fromHookRegistration u = bool_decide (registrationsFor files h ≠ [])
  ∧ (GameHookUsage.fromDirectAccess u = true
     ∨ GameHookUsage.fromHookRegistration u = true).
Proof.
  rewrite collectUsage_unfold, forDependencies_spec.
  destruct (existsb _ (dependenciesOf files)); [done|]. intros [= <-].
  rewrite mergeRegistrations_lookup. unfold registrationsOf.
  rewrite registrationsOf_lookup, fold_mergeDependency_lookup, !lookup_empty.
  fold (referencesTo files h).
  rewrite fold_absorbRegistrations_None, fold_absorbDependency_None.
  assert (referencesTo files h ≠ [] →
          existsb GameHookDependency.isDirect (referencesTo files h) = true) as Hdirect.
  { destruct (referencesTo files h) as [|d refs] eqn:Hrefs; [done|]. intros _.
    rewrite <- Hrefs. apply existsb_exists.
    assert (In d (referencesTo files h)) as Hd by (rewrite Hrefs; by left).
    destruct (GameHookDependency.isDirect d) eqn:Hdir; [by exists d|].
    unfold referencesTo in Hd. apply filter_In in Hd as [Hd Hh].
    apply bool_decide_eq_true in Hh.
    unfold dependenciesOf in Hd. apply in_concat in Hd as (l & Hl & Hdl).
    apply in_map_iff in Hl as (file & <- & Hfile).
    apply list_elem_of_In in Hdl.
    destruct (analyzeFileForGameHooks_backed _ _ _ Hdl Hdir)
      as (chain & segment & _ & d' & Hd' & Hdir' & Hhook & _).
    exists d'. split; [|done]. unfold referencesTo. apply filter_In. split.
    - unfold dependenciesOf. apply in_concat.
      exists (analyzeFileForGameHooks file.1 file.2). split.
      + apply in_map_iff. by exists file.
      + by apply list_elem_of_In.
    - apply bool_decide_eq_true. congruence. }
  destruct (referencesTo files h) as [|d refs], (registrationsFor files h) as [|r regs];
    try done; intros [= <-];
    cbn [GameHookUsage.fromDirectAccess GameHookUsage.fromHookRegistration].
  - split; [done|]. split; [done|]. by right.
  - simpl in Hdirect. rewrite (Hdirect ltac:(done)). split; [done|]. split; [done|]. by left.
  - simpl in Hdirect. rewrite (Hdirect ltac:(done)). split; [done|]. split; [done|]. by left.
Qed.

Lemma X23_usage_source_flags_witness :
  ∃ u, twoFilesUsage !! "Foo" = Some u
       ∧ GameHookUsage.fromDirectAccess u = bool_decide (referencesTo twoFiles "Foo" ≠ [])
       ∧ GameHookUsage.fromHookRegistration u
         = bool_decide (registrationsFor twoFiles "Foo" ≠ [])
       ∧ (GameHookUsage.fromDirectAccess u = true
          ∨ GameHookUsage.fromHookRegistration u = true).
Proof.
  eexists. split; [vm_compute; reflexivity|].
  eapply (X23_usage_source_flags id twoFiles twoFilesUsage "Foo").
  - vm_compute. reflexivity.
  - vm_compute. reflexivity.
Defined.

(** *** The files that are analysed *)

Lemma Dirent_nested_ind (P : Dirent → Prop) :
  (∀ name, P (FileEntry name)) →
  (∀ name, P (OtherEntry name)) →
  (∀ name message, P (DirectoryEntry name (Rejected message))) →
  (∀ name entries, Forall P entries → P (DirectoryEntry name (Resolved entries))) →
  ∀ entry, P entry.
Proof.
  intros HF HO HR HD. fix IH 1. intros [name|name [entries|message]|name].
  - apply HF.
  - apply HD. induction entries; constructor; [apply IH|assumption].
  - apply HR.
  - apply HO.
Qed.

Lemma listed_nil join dir p : ¬ listed join dir [] p.
Proof. inversion 1; subst; by eapply elem_of_nil. Qed.

Lemma listed_cons join dir entry entries p :
  listed join dir (entry :: entries) p
  ↔ listed join dir [entry] p ∨ listed join dir entries p.
Proof.
  split.
  - inversion 1 as [? ? name Hin Hsrc|? ? name content ? Hin Hdir Hsub]; subst;
      apply elem_of_cons in Hin as [<-|Hin].
    + left. apply listed_file; [left|done].
    + right. by apply listed_file.
    + left. eapply listed_below; [left|done..].
    + right. by eapply listed_below.
  - intros [H|H]; inversion H as [? ? name Hin Hsrc|? ? name content ? Hin Hdir Hsub]; subst.
    + apply list_elem_of_singleton in Hin as <-. apply listed_file; [left|done].
    + apply list_elem_of_singleton in Hin as <-. eapply listed_below; [left|done..].
    + apply listed_file; [by right|done].
    + eapply listed_below; [by right|done..].
Qed.

Lemma forEntries_listed join dir entries :
  Forall (λ entry, ∀ dir files files',
            traverseEntry join dir entry files = Resolved files' →
            ∃ new, files' = files ++ new ∧ ∀ p, p ∈ new ↔ listed join dir [entry] p)
    entries →
  ∀ files files',
    forEntries (traverseEntry join dir) entries files = Resolved files' →
    ∃ new, files' = files ++ new ∧ ∀ p, p ∈ new ↔ listed join dir entries p.
Proof.
  induction 1 as [|entry entries Hentry _ IH]; intros files files'; simpl.
  - intros [= <-]. exists []. split; [by rewrite app_nil_r|].
    intros p. split; [by intros ?%elem_of_nil|by intros ?%listed_nil].
  - destruct (traverseEntry join dir entry files) as [files1|] eqn:Hstep; [|done].
    intros Hrest. destruct (Hentry _ _ _ Hstep) as (new1 & -> & Hnew1).
    destruct (IH _ _ Hrest) as (new2 & -> & Hnew2).
    exists (new1 ++ new2). split; [by rewrite app_assoc|].
    intros p. rewrite elem_of_app, listed_cons, Hnew1, Hnew2. done.
Qed.

Lemma traverseEntry_listed join entry :
  ∀ dir files files',
    traverseEntry join dir entry files = Resolved files' →
    ∃ new, files' = files ++ new ∧ ∀ p, p ∈ new ↔ listed join dir [entry] p.
Proof.
  induction entry as [name|name|name message|name entries IH] using Dirent_nested_ind;
    intros dir files files'; cbn [traverseEntry].
  - destruct (isSourceFile name) eqn:Hsrc; intros [= <-].
    + exists [join dir name]. split; [done|]. intros p. rewrite list_elem_of_singleton. split.
      * intros ->. apply listed_file; [left|done].
      * inversion 1 as [? ? n Hin Hs|? ? n c ? Hin Hd Hsub]; subst;
          apply list_elem_of_singleton in Hin; by simplify_eq.
    + exists []. split; [by rewrite app_nil_r|]. intros p. split; [by intros ?%elem_of_nil|].
      inversion 1 as [? ? n Hin Hs|? ? n c ? Hin Hd Hsub]; subst;
        apply list_elem_of_singleton in Hin; simplify_eq. congruence.
  - intros [= <-]. exists []. split; [by rewrite app_nil_r|].
    intros p. split; [by intros ?%elem_of_nil|].
    inversion 1 as [? ? n Hin Hs|? ? n c ? Hin Hd Hsub]; subst;
      apply list_elem_of_singleton in Hin; by simplify_eq.
  - destruct (isSearchedDirectory name); [done|]. intros [= <-].
    exists []. split; [by rewrite app_nil_r|].
    intros p. split; [by intros ?%elem_of_nil|].
    inversion 1 as [? ? n Hin Hs|? ? n c ? Hin Hd Hsub]; subst;
      apply list_elem_of_singleton in Hin; by simplify_eq.
  - destruct (isSearchedDirectory name) eqn:Hdir.
    + intros Hloop.
      destruct (forEntries_listed join (join dir name) entries IH _ _ Hloop)
        as (new & -> & Hnew).
      exists new. split; [done|]. intros p. rewrite Hnew. split.
      * intros Hsub. eapply listed_below; [left|done..].
      * inversion 1 as [? ? n Hin Hs|? ? n c ? Hin Hd Hsub]; subst;
          apply list_elem_of_singleton in Hin; by simplify_eq.
    + intros [= <-]. exists []. split; [by rewrite app_nil_r|].
      intros p. split; [by intros ?%elem_of_nil|].
      inversion 1 as [? ? n Hin Hs|? ? n c ? Hin Hd Hsub]; subst;
        apply list_elem_of_singleton in Hin; simplify_eq. congruence.
Qed.

(** X24: the files that are analysed.  When [findTypeScriptFiles] resolves,
    it returns exactly the paths of the entries that are files, whose name
    ends in [.ts] but not in [.d.ts], and that are reached from the root
    through directories whose name neither starts with a dot nor is
    [node_modules], [out], [dist] or [build]. *)
Theorem X24_listed_source_files
    (join : string → string → string) (dir : string) (entries : list Dirent)
    (files : list string) :
  findTypeScriptFiles join dir (Resolved entries) = Resolved files →
  ∀ p, p ∈ files ↔ listed join dir entries p.
Proof.
  unfold findTypeScriptFiles, traverseDir. intros Hloop.
  destruct (forEntries_listed join dir entries
              ltac:(apply Forall_forall; intros; by apply traverseEntry_listed) _ _ Hloop)
    as (new & -> & Hnew).
  exact Hnew.
Qed.

Lemma X24_listed_source_files_witness :
  "/repo/node_modules/x.ts" ∈ ["/repo/src/a.ts"]
  ↔ listed joinWithSlash "/repo" projectTree "/repo/node_modules/x.ts".
Proof.
  apply (X24_listed_source_files joinWithSlash "/repo" projectTree ["/repo/src/a.ts"]).
  vm_compute. reflexivity.
Defined.

(** *** What the recoverer finds *)

Lemma walk_keepsClasses node st :
  keepsClasses (classMap st) (classMap (walk node st)).
Proof.
  apply (walk_invariant (λ st', keepsClasses (classMap st) (classMap st'))).
  - intros n st' H. eapply keepsClasses_trans; [exact H|apply enter_keeps].
  - intros n st' H. by rewrite leave_classMap.
  - apply keepsClasses_refl.
Qed.

Lemma classSatisfies_keeps className Q m m' :
  stableFact Q → keepsClasses m m' →
  classSatisfies className Q m → classSatisfies className Q m'.
Proof.
  intros HQ Hkeep (c & Hc & Hq). destruct (Hkeep _ _ Hc) as (c' & Hc' & Hincl).
  exists c'. split; [done|]. by eapply HQ.
Qed.

Lemma fold_walk_keeps className Q cs st :
  stableFact Q →
  classSatisfies className Q (classMap st) →
  classSatisfies className Q (classMap (fold_left (λ s c, walk c s) cs st)).
Proof.
  intros HQ. revert st. induction cs as [|c cs IH]; intros st Hst; simpl; [done|].
  apply IH. eapply classSatisfies_keeps; [done|apply walk_keepsClasses|done].
Qed.

Lemma fold_walk_finds className Q cs node :
  stableFact Q →
  Forall (λ c, node ∈ bundleNodes c →
               ∀ st, classSatisfies className Q (classMap (walk c st))) cs →
  node ∈ flat_map bundleNodes cs →
  ∀ st, classSatisfies className Q (classMap (fold_left (λ s c, walk c s) cs st)).
Proof.
  intros HQ. induction 1 as [|c cs Hc _ IH]; simpl; intros Hin st.
  - by apply elem_of_nil in Hin.
  - apply elem_of_app in Hin as [Hin|Hin].
    + by apply fold_walk_keeps, Hc.
    + by apply IH.
Qed.

Lemma enter_walk_keeps node st :
  keepsClasses (classMap (enter node st)) (classMap (walk node st)).
Proof.
  assert (Hfold : ∀ cs s, keepsClasses (classMap s)
                            (classMap (fold_left (λ s c, walk c s) cs s))).
  { intros cs. induction cs as [|c cs IH]; intros s; simpl; [apply keepsClasses_refl|].
    eapply keepsClasses_trans; [apply walk_keepsClasses|apply IH]. }
  assert (Hopt : ∀ (o : option ES.Node) s,
            keepsClasses (classMap s)
              (classMap (match o with Some n => walk n s | None => s end))).
  { intros [n|] s; [apply walk_keepsClasses|apply keepsClasses_refl]. }
  destruct node as [n| |cs|ident superClass body|ident init|ident params body
                   |static key kind value|lhs rhs|object property|cs];
    cbn [walk]; rewrite leave_classMap.
  - apply keepsClasses_refl.
  - apply keepsClasses_refl.
  - apply Hfold.
  - eapply keepsClasses_trans; [|apply walk_keepsClasses].
    eapply keepsClasses_trans; [apply (Hopt ident)|apply (Hopt superClass)].
  - destruct init.
    + eapply keepsClasses_trans; apply walk_keepsClasses.
    + apply walk_keepsClasses.
  - eapply keepsClasses_trans; [|apply walk_keepsClasses].
    eapply keepsClasses_trans; [apply (Hopt ident)|apply Hfold].
  - eapply keepsClasses_trans; apply walk_keepsClasses.
  - eapply keepsClasses_trans; apply walk_keepsClasses.
  - eapply keepsClasses_trans; apply walk_keepsClasses.
  - apply Hfold.
Qed.

(** A stable fact that the walk of a node records whatever the state, is
    recorded wherever the node stands in the bundle. *)
Lemma walk_finds className Q node :
  stableFact Q →
  (∀ st, classSatisfies className Q (classMap (walk node st))) →
  ∀ ast, node ∈ bundleNodes ast →
         ∀ st, classSatisfies className Q (classMap (walk ast st)).
Proof.
  intros HQ Hwalk ast.
  assert (Hk : ∀ n st, classSatisfies className Q (classMap st) →
                       classSatisfies className Q (classMap (walk n st))).
  { intros n st. apply classSatisfies_keeps; [done|apply walk_keepsClasses]. }
  induction ast as [n| |cs IH|ident superClass body IHi IHs IHb|ident init IHi IHn
                   |ident params body IHi IHp IHb|static key kind value IHk IHv
                   |lhs rhs IHl IHr|object property IHo IHp|cs IH]
    using ESNode_nested_ind; intros Hin st; cbn [bundleNodes] in Hin;
    (apply elem_of_cons in Hin as [->|Hin]; [by apply Hwalk|]);
    cbn [walk]; rewrite leave_classMap;
    try (by apply elem_of_nil in Hin).
  - by apply (fold_walk_finds _ _ _ _ HQ IH).
  - rewrite !elem_of_app in Hin. destruct Hin as [Hin|[Hin|Hin]].
    + destruct ident as [i|]; [|by apply elem_of_nil in Hin].
      apply Hk. destruct superClass; [apply Hk|]; by apply (IHi i).
    + destruct superClass as [s|]; [|by apply elem_of_nil in Hin].
      apply Hk. by apply (IHs s).
    + by apply IHb.
  - rewrite elem_of_app in Hin. destruct Hin as [Hin|Hin].
    + destruct init; [apply Hk|]; by apply IHi.
    + destruct init as [i|]; [|by apply elem_of_nil in Hin]. by apply (IHn i).
  - rewrite !elem_of_app in Hin. destruct Hin as [Hin|[Hin|Hin]].
    + destruct ident as [i|]; [|by apply elem_of_nil in Hin].
      apply Hk, fold_walk_keeps; [done|]. by apply (IHi i).
    + apply Hk. by apply (fold_walk_finds _ _ _ _ HQ IHp).
    + by apply IHb.
  - rewrite elem_of_app in Hin. destruct Hin as [Hin|Hin]; [apply Hk; by apply IHk|by apply IHv].
  - rewrite elem_of_app in Hin. destruct Hin as [Hin|Hin]; [apply Hk; by apply IHl|by apply IHr].
  - rewrite elem_of_app in Hin. destruct Hin as [Hin|Hin]; [apply Hk; by apply IHo|by apply IHp].
  - by apply (fold_walk_finds _ _ _ _ HQ IH).
Qed.

Lemma enter_finds className Q node :
  stableFact Q →
  (∀ st, classSatisfies className Q (classMap (enter node st))) →
  ∀ ast, node ∈ bundleNodes ast →
         ∀ st, classSatisfies className Q (classMap (walk ast st)).
Proof.
  intros HQ Henter. apply walk_finds; [done|]. intros st.
  eapply classSatisfies_keeps; [done|apply enter_walk_keeps|apply Henter].
Qed.

Lemma classMapGet_ensureClass className m :
  is_Some (classMapGet className (ensureClass className m)).
Proof.
  unfold ensureClass. destruct (classMapHas className m) eqn:Hhas.
  - by apply classMapHas_get.
  - clear Hhas. induction m as [|[k c] m IH]; simpl.
    + rewrite bool_decide_eq_true_2 by done. by eexists.
    + destruct (bool_decide (k = className)); [by eexists|exact IH].
Qed.

Lemma enter_prototypeAssignment className methodName value st :
  isShortName className = true →
  classSatisfies className (λ c, methodName ∈ ClientClass.methods c)
    (classMap (enter (prototypeAssignment className methodName value) st)).
Proof.
  intros Hshort. unfold enter, prototypeAssignment.
  cbn [enterClassDeclaration enterVariableDeclarator enterFunctionDeclaration
       enterStaticAssignment enterThisAssignment].
  assert (enterAccessor
            (ES.AssignmentExpression
               (ES.MemberExpression
                  (ES.MemberExpression (ES.Identifier className) (ES.Identifier "prototype"))
                  (ES.Identifier methodName)) value)
            (enterMethodDefinition
               (ES.AssignmentExpression
                  (ES.MemberExpression
                     (ES.MemberExpression (ES.Identifier className)
                        (ES.Identifier "prototype"))
                     (ES.Identifier methodName)) value) st) = st) as ->.
  { unfold enterAccessor, enterMethodDefinition. by destruct (openClass st). }
  unfold enterPrototypeAssignment. rewrite Hshort, bool_decide_eq_true_2 by done.
  cbn [andb classMap].
  destruct (classMapGet_ensureClass className (classMap st)) as [c Hc].
  exists (addMethod methodName c). rewrite classMapGet_updateClass, Hc. split; [done|].
  simpl. set_solver.
Qed.

Lemma enter_staticAssignment className propertyName value st :
  isShortName className = true →
  classSatisfies className
    (λ c, propertyName ∈ ClientClass.staticProperties c
          ∧ (propertyName = "Instance" → ClientClass.hasInstance c = true)
          ∧ (propertyName = "Manager" → ClientClass.hasManager c = true))
    (classMap (enter (staticAssignment className propertyName value) st)).
Proof.
  intros Hshort. unfold enter, staticAssignment.
  cbn [enterClassDeclaration enterVariableDeclarator enterFunctionDeclaration
       enterPrototypeAssignment enterThisAssignment].
  assert (enterAccessor
            (ES.AssignmentExpression
               (ES.MemberExpression (ES.Identifier className) (ES.Identifier propertyName))
               value)
            (enterMethodDefinition
               (ES.AssignmentExpression
                  (ES.MemberExpression (ES.Identifier className)
                     (ES.Identifier propertyName)) value) st) = st) as ->.
  { unfold enterAccessor, enterMethodDefinition. by destruct (openClass st). }
  unfold enterStaticAssignment. rewrite Hshort. cbn [classMap].
  destruct (classMapGet_ensureClass className (classMap st)) as [c Hc].
  unfold classSatisfies. rewrite classMapGet_updateClass, Hc.
  eexists. split; [reflexivity|].
  destruct (bool_decide_reflect (propertyName = "Instance")) as [Hi|Hi];
    destruct (bool_decide_reflect (propertyName = "Manager")) as [Hm|Hm];
    simpl; (split; [set_solver|]); split; intros; congruence.
Qed.

Lemma recoverClasses_finds className (Q : ClientClass.t → Prop) ast :
  (∀ c, Q c → hasMembers c = true) →
  classSatisfies className Q (classMap (walk ast (mkRecoverState [] None))) →
  ∃ c, c ∈ recoverClasses ast ∧ ClientClass.name c = className ∧ Q c.
Proof.
  intros Hmembers (c & Hc & Hq). exists c.
  destruct (walk_classMapInvariant ast) as [_ Hwf]. unfold recoverClasses.
  revert Hc Hwf. generalize (classMap (walk ast (mkRecoverState [] None))). intros m Hc Hwf.
  assert ((className, c) ∈ m) as Hin.
  { clear Hwf. induction m as [|[k c'] m IH]; simpl in Hc; [done|].
    destruct (bool_decide_reflect (k = className)) as [->|Hne].
    - injection Hc as ->. left.
    - right. by apply IH. }
  split; [|split; [|done]].
  - apply list_elem_of_In, filter_In. split; [|by apply Hmembers].
    apply list_elem_of_In, list_elem_of_fmap. by exists (className, c).
  - rewrite Forall_forall in Hwf. by destruct (Hwf _ Hin) as (Hname & _).
Qed.

(** X25: what the recoverer always finds.  Wherever in the bundle an
    assignment [Name.prototype.method = ...] stands, for a name of one to
    three letters, the returned classes include [Name] with that method; and
    wherever an assignment [Name.property = ...] stands, they include [Name]
    with that static property, flagged [hasInstance] (resp. [hasManager])
    when the property is [Instance] (resp. [Manager]). *)
Theorem X25_assignments_are_recovered
    (acornParse : JSString → option ES.Node) (clientCode : JSString) (ast : ES.Node)
    (className member : string) (value : ES.Node) :
  acornParse clientCode = Some ast →
  isShortName className = true →
  (prototypeAssignment className member value ∈ bundleNodes ast →
   ∃ c, c ∈ parseClientForClasses acornParse clientCode
        ∧ ClientClass.name c = className
        ∧ member ∈ ClientClass.methods c)
  ∧ (staticAssignment className member value ∈ bundleNodes ast →
     ∃ c, c ∈ parseClientForClasses acornParse clientCode
          ∧ ClientClass.name c = className
          ∧ member ∈ ClientClass.staticProperties c
          ∧ (member = "Instance" → ClientClass.hasInstance c = true)
          ∧ (member = "Manager" → ClientClass.hasManager c = true)).
Proof.
  intros Hparse Hshort. unfold parseClientForClasses. rewrite Hparse. split; intros Hin.
  - apply (recoverClasses_finds className (λ c, member ∈ ClientClass.methods c)).
    + intros c Hc. apply hasMembers_memberCount. unfold memberCount.
      assert (size (ClientClass.methods c) ≠ 0)%nat; [|lia].
      apply size_non_empty_iff. set_solver.
    + apply (enter_finds className _ (prototypeAssignment className member value));
        [| |done].
      * intros c c' Hc (_ & _ & Hm & _). set_solver.
      * intros st. by apply enter_prototypeAssignment.
  - apply (recoverClasses_finds className
             (λ c, member ∈ ClientClass.staticProperties c
                   ∧ (member = "Instance" → ClientClass.hasInstance c = true)
                   ∧ (member = "Manager" → ClientClass.hasManager c = true))).
    + intros c (Hc & _). apply hasMembers_memberCount. unfold memberCount.
      assert (size (ClientClass.staticProperties c) ≠ 0)%nat; [|lia].
      apply size_non_empty_iff. set_solver.
    + apply (enter_finds className _ (staticAssignment className member value));
        [| |done].
      * intros c c' (Hc & Hi & Hm) (_ & _ & _ & Hsp & _ & Hi' & Hm').
        split; [set_solver|]. split; auto.
      * intros st. by apply enter_staticAssignment.
Qed.

Lemma X25_assignments_are_recovered_witness :
  (∃ c, c ∈ parseClientForClasses (λ _, Some assignmentBundle) (codeUnits "bundle")
        ∧ ClientClass.name c = "Ab"
        ∧ "Instance" ∈ ClientClass.staticProperties c
        ∧ ("Instance" = "Instance" → ClientClass.hasInstance c = true)
        ∧ ("Instance" = "Manager" → ClientClass.hasManager c = true)).
Proof.
  apply (proj2 (X25_assignments_are_recovered (λ _, Some assignmentBundle) (codeUnits "bundle")
                  assignmentBundle "Ab" "Instance" (ES.Identifier "x")
                  eq_refl eq_refl)).
  apply list_elem_of_In. simpl. tauto.
Defined.

Lemma enter_not_closing node st :
  closesCandidate node = false → currentClass (enter node st) = currentClass st.
Proof.
  intros Hc. unfold enter.
  assert (enterClassDeclaration node st = st) as ->.
  { by destruct node. }
  assert (enterVariableDeclarator node st = st) as ->.
  { destruct node as [| | | |[] [[]|]| | | | |]; try done. }
  assert (enterFunctionDeclaration node st = st) as ->.
  { by destruct node. }
  assert (∀ s, currentClass (enterMethodDefinition node s) = currentClass s) as H1.
  { intros s. unfold enterMethodDefinition. by repeat case_match. }
  assert (∀ s, currentClass (enterAccessor node s) = currentClass s) as H2.
  { intros s. unfold enterAccessor. by repeat case_match. }
  assert (∀ s, currentClass (enterPrototypeAssignment node s) = currentClass s) as H3.
  { intros s. unfold enterPrototypeAssignment. by repeat case_match. }
  assert (∀ s, currentClass (enterStaticAssignment node s) = currentClass s) as H4.
  { intros s. unfold enterStaticAssignment. by repeat case_match. }
  assert (∀ s, currentClass (enterThisAssignment node s) = currentClass s) as H5.
  { intros s. unfold enterThisAssignment. by repeat case_match. }
  by rewrite H5, H4, H3, H2, H1.
Qed.

Lemma leave_not_closing node st : closesCandidate node = false → leave node st = st.
Proof. intros Hc. destruct node as [| | | |? [[]|]| | | | |]; done. Qed.

Lemma noneCloses_cons n nodes :
  noneCloses (n :: nodes) = true ↔ closesCandidate n = false ∧ noneCloses nodes = true.
Proof.
  unfold noneCloses. simpl. rewrite andb_true_iff, negb_true_iff. done.
Qed.

Lemma noneCloses_app l1 l2 :
  noneCloses (l1 ++ l2) = true ↔ noneCloses l1 = true ∧ noneCloses l2 = true.
Proof. unfold noneCloses. by rewrite forallb_app, andb_true_iff. Qed.

Lemma fold_walk_currentClass cs :
  Forall (λ c, noneCloses (bundleNodes c) = true →
               ∀ st, currentClass (walk c st) = currentClass st) cs →
  noneCloses (flat_map bundleNodes cs) = true →
  ∀ st, currentClass (fold_left (λ s c, walk c s) cs st) = currentClass st.
Proof.
  induction 1 as [|c cs Hc _ IH]; simpl; intros Hplain st; [done|].
  apply noneCloses_app in Hplain as [H1 H2]. by rewrite IH, Hc.
Qed.

(** A subtree without closing node leaves the open candidate open. *)
Lemma walk_currentClass node :
  noneCloses (bundleNodes node) = true →
  ∀ st, currentClass (walk node st) = currentClass st.
Proof.
  induction node as [n| |cs IH|ident superClass body IHi IHs IHb|ident init IHi IHn
                    |ident params body IHi IHp IHb|static key kind value IHk IHv
                    |lhs rhs IHl IHr|object property IHo IHp|cs IH]
    using ESNode_nested_ind; intros Hplain st; cbn [bundleNodes] in Hplain;
    apply noneCloses_cons in Hplain as [Hself Hplain]; try discriminate Hself;
    cbn [walk]; rewrite (leave_not_closing _ _ Hself).
  - by apply enter_not_closing.
  - by apply enter_not_closing.
  - rewrite (fold_walk_currentClass _ IH Hplain). by apply enter_not_closing.
  - apply noneCloses_app in Hplain as [H1 H2].
    destruct init as [i|].
    + rewrite (IHn i eq_refl H2), (IHi H1). by apply enter_not_closing.
    + rewrite (IHi H1). by apply enter_not_closing.
  - apply noneCloses_app in Hplain as [H1 H2].
    rewrite (IHv H2), (IHk H1). by apply enter_not_closing.
  - apply noneCloses_app in Hplain as [H1 H2].
    rewrite (IHr H2), (IHl H1). by apply enter_not_closing.
  - apply noneCloses_app in Hplain as [H1 H2].
    rewrite (IHp H2), (IHo H1). by apply enter_not_closing.
  - rewrite (fold_walk_currentClass _ IH Hplain). by apply enter_not_closing.
Qed.

Lemma classMapGet_has className m :
  is_Some (classMapGet className m) → classMapHas className m = true.
Proof.
  unfold classMapHas. rewrite bool_decide_eq_true.
  induction m as [|[k c] m IH]; simpl; [by intros [? ?]|].
  destruct (bool_decide_reflect (k = className)) as [->|Hne]; [left|].
  intros H. right. by apply IH.
Qed.

(** The candidate [className] is open. *)
Lemma openClass_open className st :
  currentClass st = Some className →
  is_Some (classMapGet className (classMap st)) →
  openClass st = Some className.
Proof.
  intros Hcur Hget. unfold openClass. by rewrite Hcur, (classMapGet_has _ _ Hget).
Qed.

Lemma walk_stays_open className node st :
  noneCloses (bundleNodes node) = true →
  currentClass st = Some className →
  is_Some (classMapGet className (classMap st)) →
  currentClass (walk node st) = Some className
  ∧ is_Some (classMapGet className (classMap (walk node st))).
Proof.
  intros Hplain Hcur [c Hc]. split; [by rewrite walk_currentClass|].
  destruct (walk_keepsClasses node st _ _ Hc) as (c' & Hc' & _). by exists c'.
Qed.

Lemma fold_walk_stays_open className cs st :
  noneCloses (flat_map bundleNodes cs) = true →
  currentClass st = Some className →
  is_Some (classMapGet className (classMap st)) →
  currentClass (fold_left (λ s c, walk c s) cs st) = Some className
  ∧ is_Some (classMapGet className (classMap (fold_left (λ s c, walk c s) cs st))).
Proof.
  revert st. induction cs as [|c cs IH]; intros st Hplain Hcur Hget; simpl; [done|].
  simpl in Hplain. apply noneCloses_app in Hplain as [H1 H2].
  destruct (walk_stays_open className c st H1 Hcur Hget) as [Hcur' Hget'].
  by apply IH.
Qed.

Lemma enter_methodDefinition className (static : bool) methodName kind value st :
  openClass st = Some className →
  classSatisfies className
    (λ c, methodName ∈ (if static then ClientClass.staticMethods c
                        else ClientClass.methods c))
    (classMap (enter (ES.MethodDefinition static (ES.Identifier methodName) kind value) st)).
Proof.
  intros Hopen.
  destruct (openClass_Some _ _ Hopen) as [Hcur Hhas].
  destruct (classMapHas_get _ _ Hhas) as [c0 Hc0].
  unfold enter. cbn [enterClassDeclaration enterVariableDeclarator enterFunctionDeclaration].
  unfold enterMethodDefinition at 1. rewrite Hopen.
  set (st1 := mkRecoverState _ _).
  assert (openClass st1 = Some className) as Hopen1.
  { unfold openClass, st1. simpl. by rewrite Hcur, classMapHas_updateClass, Hhas. }
  assert (∀ s, enterThisAssignment
                 (ES.MethodDefinition static (ES.Identifier methodName) kind value)
                 (enterStaticAssignment
                    (ES.MethodDefinition static (ES.Identifier methodName) kind value)
                    (enterPrototypeAssignment
                       (ES.MethodDefinition static (ES.Identifier methodName) kind value) s))
               = s) as -> by done.
  unfold enterAccessor, classSatisfies. rewrite Hopen1.
  destruct kind; simpl;
    rewrite ?classMapGet_updateClass, Hc0; simpl;
    (eexists; split; [reflexivity|]);
    destruct static; repeat case_match; simpl; set_solver.
Qed.

Lemma walk_classDeclaration className superClass members (static : bool) methodName kind
    value st :
  isShortName className = true →
  noneCloses
    (tail (bundleNodes (ES.ClassDeclaration (Some (ES.Identifier className)) superClass
                          (ES.ClassBody members)))) = true →
  ES.MethodDefinition static (ES.Identifier methodName) kind value ∈ members →
  classSatisfies className
    (λ c, methodName ∈ (if static then ClientClass.staticMethods c
                        else ClientClass.methods c))
    (classMap (walk (ES.ClassDeclaration (Some (ES.Identifier className)) superClass
                       (ES.ClassBody members)) st)).
Proof.
  intros Hshort Hplain Hin.
  assert (stableFact (λ c, methodName ∈ (if static then ClientClass.staticMethods c
                                         else ClientClass.methods c))) as HQ.
  { intros c c' Hc (_ & _ & Hm & _ & Hsm & _). destruct static; set_solver. }
  unfold ES.ClassBody in *. cbn [bundleNodes tail] in Hplain.
  apply noneCloses_app in Hplain as [_ Hplain].
  apply noneCloses_app in Hplain as [Hsuper Hbody].
  apply noneCloses_cons in Hbody as [_ Hmembers].
  cbn [walk]. rewrite leave_classMap.
  set (st1 := enter (ES.ClassDeclaration (Some (ES.Identifier className)) superClass
                       (ES.Other members)) st).
  assert (currentClass st1 = Some className
          ∧ is_Some (classMapGet className (classMap st1))) as [Hcur1 Hget1].
  { unfold st1, enter. cbn [enterClassDeclaration].
    unfold openCandidate. rewrite Hshort.
    set (s := mkRecoverState _ _).
    assert (enterThisAssignment
              (ES.ClassDeclaration (Some (ES.Identifier className)) superClass
                 (ES.Other members))
              (enterStaticAssignment
                 (ES.ClassDeclaration (Some (ES.Identifier className)) superClass
                    (ES.Other members))
                 (enterPrototypeAssignment
                    (ES.ClassDeclaration (Some (ES.Identifier className)) superClass
                       (ES.Other members))
                    (enterAccessor
                       (ES.ClassDeclaration (Some (ES.Identifier className)) superClass
                          (ES.Other members))
                       (enterMethodDefinition
                          (ES.ClassDeclaration (Some (ES.Identifier className)) superClass
                             (ES.Other members))
                          (enterFunctionDeclaration
                             (ES.ClassDeclaration (Some (ES.Identifier className))
                                superClass (ES.Other members))
                             (enterVariableDeclarator
                                (ES.ClassDeclaration (Some (ES.Identifier className))
                                   superClass (ES.Other members)) s)))))) = s) as ->.
    { simpl. unfold enterAccessor, enterMethodDefinition. by destruct (openClass s). }
    split; [done|]. apply classMapGet_ensureClass. }
  destruct (walk_stays_open className (ES.Identifier className) st1 eq_refl Hcur1 Hget1)
    as [Hcur2 Hget2].
  set (st2 := walk (ES.Identifier className) st1) in *.
  assert (currentClass (match superClass with Some n => walk n st2 | None => st2 end)
          = Some className
          ∧ is_Some (classMapGet className
                       (classMap (match superClass with
                                  | Some n => walk n st2 | None => st2 end))))
    as [Hcur3 Hget3].
  { destruct superClass as [sc|]; [|done]. by apply walk_stays_open. }
  set (st3 := match superClass with Some n => walk n st2 | None => st2 end) in *.
  rewrite leave_classMap.
  set (st4 := enter (ES.Other members) st3).
  assert (currentClass st4 = Some className
          ∧ is_Some (classMapGet className (classMap st4))) as [Hcur4 Hget4].
  { unfold st4. split; [by rewrite enter_not_closing|].
    destruct Hget3 as [c Hc]. destruct (enter_keeps (ES.Other members) st3 _ _ Hc)
      as (c' & Hc' & _). by exists c'. }
  apply list_elem_of_split in Hin as (pre & post & ->).
  rewrite fold_left_app. cbn [fold_left].
  rewrite flat_map_app in Hmembers. apply noneCloses_app in Hmembers as [Hpre _].
  destruct (fold_walk_stays_open className pre st4 Hpre Hcur4 Hget4) as [Hcur5 Hget5].
  apply fold_walk_keeps; [done|].
  eapply classSatisfies_keeps; [done|apply enter_walk_keeps|].
  apply enter_methodDefinition. by apply openClass_open.
Qed.

(** X26: methods of class bodies.  Wherever in the bundle a declaration
    [class Name ... { ... }] stands, for a name of one to three letters,
    whose heritage and body hold no class declaration, function declaration
    or function-valued variable declarator, the returned classes include
    [Name] with every method of the body that has an identifier key: among
    [staticMethods] when it is static, among [methods] otherwise. *)
Theorem X26_class_body_methods_are_recovered
    (acornParse : JSString → option ES.Node) (clientCode : JSString) (ast : ES.Node)
    (className : string) (superClass : option ES.Node) (members : list ES.Node)
    (static : bool) (methodName : string) (kind : ES.MethodKind) (value : ES.Node) :
  acornParse clientCode = Some ast →
  isShortName className = true →
  ES.ClassDeclaration (Some (ES.Identifier className)) superClass (ES.ClassBody members)
    ∈ bundleNodes ast →
  noneCloses
    (tail (bundleNodes (ES.ClassDeclaration (Some (ES.Identifier className)) superClass
                          (ES.ClassBody members)))) = true →
  ES.MethodDefinition static (ES.Identifier methodName) kind value ∈ members →
  ∃ c, c ∈ parseClientForClasses acornParse clientCode
       ∧ ClientClass.name c = className
       ∧ methodName ∈ (if static then ClientClass.staticMethods c else ClientClass.methods c).
Proof.
  intros Hparse Hshort Hnode Hplain Hin. unfold parseClientForClasses. rewrite Hparse.
  apply (recoverClasses_finds className
           (λ c, methodName ∈ (if static then ClientClass.staticMethods c
                               else ClientClass.methods c))).
  - intros c Hc. apply hasMembers_memberCount. unfold memberCount.
    destruct static.
    + assert (size (ClientClass.staticMethods c) ≠ 0)%nat; [|lia].
      apply size_non_empty_iff. set_solver.
    + assert (size (ClientClass.methods c) ≠ 0)%nat; [|lia].
      apply size_non_empty_iff. set_solver.
  - eapply walk_finds; [| |exact Hnode].
    + intros c c' Hc (_ & _ & Hm & _ & Hsm & _). destruct static; set_solver.
    + intros st. by apply (walk_classDeclaration _ _ _ _ _ kind value).
Qed.

Lemma X26_class_body_methods_are_recovered_witness :
  ∃ c, c ∈ parseClientForClasses (λ _, Some twoMethodBundle) (codeUnits "bundle")
       ∧ ClientClass.name c = "Ab"
       ∧ "m2" ∈ ClientClass.methods c.
Proof.
  apply (X26_class_body_methods_are_recovered (λ _, Some twoMethodBundle) (codeUnits "bundle")
           twoMethodBundle "Ab" None
           [ ES.MethodDefinition false (ES.Identifier "m1") ES.KindMethod
               (ES.FunctionExpression []);
             ES.MethodDefinition false (ES.Identifier "m2") ES.KindMethod
               (ES.FunctionExpression []) ]
           false "m2" ES.KindMethod (ES.FunctionExpression []) eq_refl eq_refl).
  - apply list_elem_of_In. simpl. tauto.
  - reflexivity.
  - right. left.
Defined.

(** *** Scopes without nested scopes *)

(** X27: scopes without nested scopes clean up after themselves.
    [exitScope] deletes exactly the aliases tagged with the scope that is
    current when it runs.  Hence after the walk has left a block none of
    whose statements contains a function or block, or a function with such
    a block as body (its other children holding no function, block or
    variable declaration), no alias declared inside is resolvable:
    whatever resolves was there before.  For
    [function f(){ const x = gameHooks.Foo.bar; } x.baz;] no indirect
    reference is produced. *)
Theorem X27_flat_scope_cleans_up filePath :
  (∀ st v r,
     getVariableReference v (exitScope st) = Some r
     ↔ getVariableReference v st = Some r
       ∧ VariableGameHookReference.scope r ≠ scopeOf st)
  ∧ (∀ node isInit st v r,
       flatScope node = true →
       getVariableReference v (visit filePath isInit node st) = Some r →
       getVariableReference v st = Some r)
  ∧ indirectReferences (analyzeFileForGameHooks filePath (Some scopedAliasExample)) = [].
Proof.
  split; [apply exitScope_lookup|]. split; [|vm_compute; reflexivity].
  intros node isInit st v r Hflat.
  destruct node as [| | | | |cs|cs|cs|statements| |]; try discriminate.
  - rewrite visit_unfold. by apply visit_flatFunction.
  - rewrite visit_unfold. by apply visit_flatFunction.
  - rewrite visit_unfold. by apply visit_flatFunction.
  - by apply visit_flatBlock.
Qed.

Lemma X27_flat_scope_cleans_up_witness :
  getVariableReference "y" outerState = Some outerAlias.
Proof.
  apply (proj1 (proj2 (X27_flat_scope_cleans_up "a.ts")) functionWithAlias false outerState
           "y" outerAlias).
  - vm_compute. reflexivity.
  - vm_compute. reflexivity.
Defined.

(** *** Order of the files *)

(** X28: the order of the files does not matter.  The per-hook
    aggregates (property, method, file and expression sets and the two
    provenance flags) that [analyzeGameHookDependencies] builds are the
    same for every processing order of the source files (and so is the
    error, when a hook name makes the aggregation throw); two registration
    call-sites for the same hook name may be recorded in either order with
    the same result, hence the same method set (and so may two call-sites
    for different hook names when both names, or neither, are members
    inherited from [Object.prototype]); a repeated call-site changes
    nothing. *)
Theorem X28_file_order_independent relative :
  (∀ files files' : list (string * option Node),
     files ≡ₚ files' → collectUsage relative files = collectUsage relative files')
  ∧ (∀ f1 m1 f2 m2 c w,
       recordRegistration f1 c m1 (recordRegistration f2 c m2 w)
       = recordRegistration f2 c m2 (recordRegistration f1 c m1 w))
  ∧ (∀ f1 c1 m1 f2 c2 m2 w,
       inheritedKey c1 = inheritedKey c2 →
       recordRegistration f1 c1 m1 (recordRegistration f2 c2 m2 w)
       = recordRegistration f2 c2 m2 (recordRegistration f1 c1 m1 w))
  ∧ (∀ f c m w,
       recordRegistration f c m (recordRegistration f c m w) = recordRegistration f c m w).
Proof.
  split; [|split; [intros; by apply recordRegistration_comm
                  |split; [apply recordRegistration_comm|apply recordRegistration_idemp]]].
  intros files files' Hperm. rewrite !collectUsage_unfold, !forDependencies_spec.
  pose proof (dependenciesOf_permutation _ _ Hperm) as Hdeps.
  rewrite (existsb_permutation _ _ _ Hdeps).
  destruct (existsb _ (dependenciesOf files')); [done|]. f_equal. f_equal.
  - apply fold_left_permutation; [|done]. intros. apply mergeDependency_comm.
  - unfold registrationsOf. apply fold_left_permutation; [|done].
    intros. apply fileRegistrations_comm.
Qed.

Lemma X28_file_order_independent_witness :
  collectUsage id twoFiles = collectUsage id (reverse twoFiles).
Proof.
  apply (proj1 (X28_file_order_independent id) twoFiles (reverse twoFiles)).
  apply perm_swap.
Defined.
